(** * instamatic: stage calibration and the cRED acquisition loop

    A shallow embedding of

    - [instamatic/calibrate/calibrate_stage_lowmag.py]  (modules [StageLowmag]
      and [LowmagLive]),
    - [instamatic/calibrate/calibrate_stagematrix.py]   (module [StageMatrix]),
    - [instamatic/experiments/cred/experiment.py]       (module [Cred]),
    - [instamatic/camera/camera_emmenu.py]              (module [Emmenu]),

    together with the properties of these programs that the specification
    states.  Python floats are idealised: the two calibration modules
    compute over the real numbers (they need square roots), the acquisition
    loop over the rationals (it needs truncation and runs on concrete
    schedules). *)

From Stdlib Require Import String Reals Lra ZArith QArith Qround Qabs Lia Bool
  Sorted List.
Import ListNotations.

(* ================================================================== *)
(** * numpy arrays of shape (2,) and (2,2) over the reals              *)
(* ================================================================== *)

Module Np.

Local Open Scope R_scope.

(** A numpy array of shape (2,). *)
Definition vec : Type := (R * R)%type.

(** A numpy array of shape (2,2), row major. *)
Record mat : Type := Mat { m00 : R; m01 : R; m10 : R; m11 : R }.

Definition vadd (a b : vec) : vec := (fst a + fst b, snd a + snd b).
Definition vsub (a b : vec) : vec := (fst a - fst b, snd a - snd b).

(** [a + c] and [a - c] for a scalar [c] (numpy broadcasting). *)
Definition vadds (a : vec) (c : R) : vec := (fst a + c, snd a + c).
Definition vsubs (a : vec) (c : R) : vec := (fst a - c, snd a - c).

(** [np.dot(v, m)] for a 1-d [v] and a 2-d [m]: the row vector times the
    matrix. *)
Definition dot (v : vec) (m : mat) : vec :=
  (fst v * m00 m + snd v * m10 m, fst v * m01 m + snd v * m11 m).

(** [m / c] for a scalar [c]. *)
Definition mdivs (m : mat) (c : R) : mat :=
  Mat (m00 m / c) (m01 m / c) (m10 m / c) (m11 m / c).

Definition det (m : mat) : R := m00 m * m11 m - m01 m * m10 m.

(** [np.linalg.inv]: raises [LinAlgError] (here [None]) on a singular
    matrix. *)
Definition inv (m : mat) : option mat :=
  if Req_dec_T (det m) 0 then None
  else Some (Mat (m11 m / det m) (- m01 m / det m)
                 (- m10 m / det m) (m00 m / det m)).

Definition Reqb (a b : R) : bool := if Req_dec_T a b then true else false.
Definition Rltb (a b : R) : bool := if Rlt_dec a b then true else false.

Lemma Reqb_true (a b : R) : Reqb a b = true <-> a = b.
Proof. unfold Reqb. destruct (Req_dec_T a b); split; congruence. Qed.

Lemma Rltb_true (a b : R) : Rltb a b = true <-> a < b.
Proof. unfold Rltb. destruct (Rlt_dec a b); split; congruence. Qed.

Lemma Rltb_false (a b : R) : Rltb a b = false <-> b <= a.
Proof.
  unfold Rltb. destruct (Rlt_dec a b); split; intros H; try congruence; lra.
Qed.

End Np.

(* ================================================================== *)
(** * calibrate_stage_lowmag.py : the [CalibStage] coordinate maps     *)
(* ================================================================== *)

Module StageLowmag.

Import Np.
Local Open Scope R_scope.

(** ** The private transforms, arguments in the order of the source *)

Definition _reference_setting_to_pixelcoord
    (px_ref image_pos : vec) (r : mat) (t reference_pos : vec) : option vec :=
  match inv r with
  | None => None
  | Some r_i =>
      let vect := vsub image_pos reference_pos in
      let px := vsub px_ref (dot (vsub vect t) r_i) in
      Some px
  end.

Definition _pixelcoord_to_reference_setting
    (px image_pos : vec) (r : mat) (t reference_pos : vec) : option vec :=
  match inv r with
  | None => None
  | Some r_i =>
      let vect := vsub image_pos reference_pos in
      let px_ref := vadd (dot (vsub vect t) r_i) px in
      Some px_ref
  end.

Definition _pixelcoord_to_stagepos
    (px image_pos : vec) (r : mat) (t reference_pos : vec) : option vec :=
  match _pixelcoord_to_reference_setting px image_pos r t reference_pos with
  | None => None
  | Some px_ref =>
      let stagepos := vadd (vadd (dot (vsubs px_ref 1024) r) t) reference_pos in
      Some stagepos
  end.

Definition _stagepos_to_pixelcoord
    (stagepos image_pos : vec) (r : mat) (t reference_pos : vec) : option vec :=
  match inv r with
  | None => None
  | Some r_i =>
      let px_ref := vadds (dot (vsub (vsub stagepos t) reference_pos) r_i) 1024 in
      _reference_setting_to_pixelcoord px_ref image_pos r t reference_pos
  end.

(** ** The class and its public methods *)

Record CalibStage : Type := mkCalibStage {
  has_data : bool;
  rotation : mat;
  translation : vec;
  reference_position : vec
}.

(** [CalibStage.__init__]. *)
Definition init (rotation : mat) (translation reference_position : vec)
  : CalibStage :=
  mkCalibStage false rotation translation reference_position.

Definition reference_setting_to_pixelcoord (self : CalibStage)
    (px_ref image_pos : vec) : option vec :=
  _reference_setting_to_pixelcoord px_ref image_pos
    (rotation self) (translation self) (reference_position self).

Definition pixelcoord_to_reference_setting (self : CalibStage)
    (px image_pos : vec) : option vec :=
  _pixelcoord_to_reference_setting px image_pos
    (rotation self) (translation self) (reference_position self).

Definition pixelcoord_to_stagepos (self : CalibStage)
    (px image_pos : vec) : option vec :=
  _pixelcoord_to_stagepos px image_pos
    (rotation self) (translation self) (reference_position self).

Definition stagepos_to_pixelcoord (self : CalibStage)
    (stagepos image_pos : vec) : option vec :=
  _stagepos_to_pixelcoord stagepos image_pos
    (rotation self) (translation self) (reference_position self).

(** ** Algebra of the 2x2 inverse *)

Lemma inv_regular (m : mat) :
  det m <> 0 ->
  inv m = Some (Mat (m11 m / det m) (- m01 m / det m)
                    (- m10 m / det m) (m00 m / det m)).
Proof.
  intros Hd. unfold inv. destruct (Req_dec_T (det m) 0) as [E | _].
  - contradiction.
  - reflexivity.
Qed.

Lemma inv_singular (m : mat) : det m = 0 -> inv m = None.
Proof.
  intros Hd. unfold inv. destruct (Req_dec_T (det m) 0) as [_ | N].
  - reflexivity.
  - contradiction.
Qed.

Lemma vec_ext (a b : vec) : fst a = fst b -> snd a = snd b -> a = b.
Proof. destruct a, b; simpl; intros -> ->; reflexivity. Qed.

(** Multiplying by the matrix and then by its inverse is the identity on
    row vectors, and the other way round. *)
Lemma dot_inv_r (v : vec) (m m' : mat) :
  inv m = Some m' -> dot (dot v m) m' = v.
Proof.
  unfold inv. destruct (Req_dec_T (det m) 0) as [E | N]; [discriminate |].
  intros [= <-]. destruct v as [x y], m as [a b c d].
  unfold det in N; simpl in N.
  apply vec_ext; unfold dot, det; simpl; field; exact N.
Qed.

Lemma dot_inv_l (v : vec) (m m' : mat) :
  inv m = Some m' -> dot (dot v m') m = v.
Proof.
  unfold inv. destruct (Req_dec_T (det m) 0) as [E | N]; [discriminate |].
  intros [= <-]. destruct v as [x y], m as [a b c d].
  unfold det in N; simpl in N.
  apply vec_ext; unfold dot, det; simpl; field; exact N.
Qed.

Lemma dot_vsub (u v : vec) (m : mat) :
  dot (vsub u v) m = vsub (dot u m) (dot v m).
Proof. apply vec_ext; unfold dot, vsub; simpl; ring. Qed.

Lemma dot_vadd (u v : vec) (m : mat) :
  dot (vadd u v) m = vadd (dot u m) (dot v m).
Proof. apply vec_ext; unfold dot, vadd; simpl; ring. Qed.

(** ** The two conversions are mutual inverses *)

Lemma pixel_stage_pixel (px ip : vec) (r : mat) (t ref : vec) :
  det r <> 0 ->
  exists s,
    _pixelcoord_to_stagepos px ip r t ref = Some s /\
    _stagepos_to_pixelcoord s ip r t ref = Some px.
Proof.
  intros Hd.
  unfold _pixelcoord_to_stagepos, _stagepos_to_pixelcoord,
    _pixelcoord_to_reference_setting, _reference_setting_to_pixelcoord.
  destruct (inv r) as [ri |] eqn:Hi.
  2:{ rewrite (inv_regular r Hd) in Hi. discriminate. }
  eexists. split; [reflexivity |]. f_equal.
  set (w := dot (vsub (vsub ip ref) t) ri).
  set (q := vsubs (vadd w px) 1024).
  replace (vsub (vsub (vadd (vadd (dot q r) t) ref) t) ref) with (dot q r)
    by (apply vec_ext; unfold vsub, vadd; simpl; ring).
  rewrite (dot_inv_r q r ri Hi).
  apply vec_ext; unfold q, vsub, vadd, vadds, vsubs; simpl; ring.
Qed.

Lemma stage_pixel_stage (s ip : vec) (r : mat) (t ref : vec) :
  det r <> 0 ->
  exists px,
    _stagepos_to_pixelcoord s ip r t ref = Some px /\
    _pixelcoord_to_stagepos px ip r t ref = Some s.
Proof.
  intros Hd.
  unfold _pixelcoord_to_stagepos, _stagepos_to_pixelcoord,
    _pixelcoord_to_reference_setting, _reference_setting_to_pixelcoord.
  destruct (inv r) as [ri |] eqn:Hi.
  2:{ rewrite (inv_regular r Hd) in Hi. discriminate. }
  eexists. split; [reflexivity |]. f_equal.
  set (w := dot (vsub (vsub ip ref) t) ri).
  set (u := dot (vsub (vsub s t) ref) ri).
  replace (vsubs (vadd w (vsub (vadds u 1024) w)) 1024) with u
    by (apply vec_ext; unfold vsub, vadd, vadds, vsubs; simpl; ring).
  unfold u. rewrite (dot_inv_l _ r ri Hi).
  apply vec_ext; unfold vsub, vadd; simpl; ring.
Qed.

(** C1. For an invertible rotation matrix, any translation, reference
    position, image position [ip] and payload [p], [pixelcoord_to_stagepos]
    and [stagepos_to_pixelcoord] are mutual inverses, in both orders of
    composition: both conversions are defined, and converting [p] through
    one and then the other gives [p] back (exactly, over the reals). *)
Theorem pixelcoord_stagepos_roundtrip (c : CalibStage) (ip p : vec) :
  det (rotation c) <> 0 ->
  (exists s, pixelcoord_to_stagepos c p ip = Some s /\
             stagepos_to_pixelcoord c s ip = Some p) /\
  (exists px, stagepos_to_pixelcoord c p ip = Some px /\
              pixelcoord_to_stagepos c px ip = Some p).
Proof.
  intros Hd. unfold pixelcoord_to_stagepos, stagepos_to_pixelcoord. split.
  - apply pixel_stage_pixel; exact Hd.
  - apply stage_pixel_stage; exact Hd.
Qed.

Definition sample_calib : CalibStage :=
  init (Mat 2 1 1 1) (3, 4) (100, 200).

Lemma sample_calib_regular : det (rotation sample_calib) <> 0.
Proof. unfold det; simpl. lra. Qed.

Lemma pixelcoord_stagepos_roundtrip_witness :
  det (rotation sample_calib) <> 0 /\
  ((exists s, pixelcoord_to_stagepos sample_calib (512, 768) (150, 250) = Some s /\
              stagepos_to_pixelcoord sample_calib s (150, 250) = Some (512, 768)) /\
   (exists px, stagepos_to_pixelcoord sample_calib (512, 768) (150, 250) = Some px /\
               pixelcoord_to_stagepos sample_calib px (150, 250) = Some (512, 768))).
Proof.
  split.
  - exact sample_calib_regular.
  - apply (pixelcoord_stagepos_roundtrip sample_calib (150, 250) (512, 768)).
    exact sample_calib_regular.
Defined.

(** ** The other pair of conversions, and what the chain amounts to *)

Lemma reference_current_reference (px ip : vec) (r : mat) (t ref : vec) :
  det r <> 0 ->
  exists q,
    _reference_setting_to_pixelcoord px ip r t ref = Some q /\
    _pixelcoord_to_reference_setting q ip r t ref = Some px.
Proof.
  intros Hd.
  unfold _pixelcoord_to_reference_setting, _reference_setting_to_pixelcoord.
  rewrite (inv_regular r Hd). eexists. split; [reflexivity |]. f_equal.
  apply vec_ext; unfold vadd, vsub; simpl; ring.
Qed.

Lemma current_reference_current (px ip : vec) (r : mat) (t ref : vec) :
  det r <> 0 ->
  exists q,
    _pixelcoord_to_reference_setting px ip r t ref = Some q /\
    _reference_setting_to_pixelcoord q ip r t ref = Some px.
Proof.
  intros Hd.
  unfold _pixelcoord_to_reference_setting, _reference_setting_to_pixelcoord.
  rewrite (inv_regular r Hd). eexists. split; [reflexivity |]. f_equal.
  apply vec_ext; unfold vadd, vsub; simpl; ring.
Qed.

(** X1. For an invertible rotation matrix, [reference_setting_to_pixelcoord]
    and [pixelcoord_to_reference_setting] are mutual inverses at every image
    position, in both orders of composition. *)
Theorem reference_setting_pixelcoord_roundtrip (c : CalibStage) (ip p : vec) :
  det (rotation c) <> 0 ->
  (exists q, reference_setting_to_pixelcoord c p ip = Some q /\
             pixelcoord_to_reference_setting c q ip = Some p) /\
  (exists q, pixelcoord_to_reference_setting c p ip = Some q /\
             reference_setting_to_pixelcoord c q ip = Some p).
Proof.
  intros Hd.
  unfold reference_setting_to_pixelcoord, pixelcoord_to_reference_setting.
  split.
  - apply reference_current_reference; exact Hd.
  - apply current_reference_current; exact Hd.
Qed.

Lemma reference_setting_pixelcoord_roundtrip_witness :
  det (rotation sample_calib) <> 0 /\
  ((exists q, reference_setting_to_pixelcoord sample_calib (512, 768) (150, 250)
                = Some q /\
              pixelcoord_to_reference_setting sample_calib q (150, 250)
                = Some (512, 768)) /\
   (exists q, pixelcoord_to_reference_setting sample_calib (512, 768) (150, 250)
                = Some q /\
              reference_setting_to_pixelcoord sample_calib q (150, 250)
                = Some (512, 768))).
Proof.
  split.
  - exact sample_calib_regular.
  - apply (reference_setting_pixelcoord_roundtrip sample_calib (150, 250)
             (512, 768)).
    exact sample_calib_regular.
Defined.

(** X2. With an invertible rotation matrix the stage position of a pixel
    is the stage position of the image plus the offset of the pixel from
    1024 taken through the rotation: the translation and the reference
    position cancel out of [pixelcoord_to_stagepos], and likewise out of
    [stagepos_to_pixelcoord].  In particular the pixel (1024, 1024) of an
    image is the place the image was taken at. *)
Theorem pixelcoord_to_stagepos_closed_form (c : CalibStage) (ip p : vec) :
  det (rotation c) <> 0 ->
  pixelcoord_to_stagepos c p ip
    = Some (vadd ip (dot (vsubs p 1024) (rotation c))) /\
  (exists r_i,
      inv (rotation c) = Some r_i /\
      stagepos_to_pixelcoord c p ip
        = Some (vadds (dot (vsub p ip) r_i) 1024)) /\
  pixelcoord_to_stagepos c (1024, 1024) ip = Some ip.
Proof.
  intros Hd.
  assert (Hclosed : forall q,
    pixelcoord_to_stagepos c q ip
      = Some (vadd ip (dot (vsubs q 1024) (rotation c)))).
  { intros q.
    unfold pixelcoord_to_stagepos, _pixelcoord_to_stagepos,
      _pixelcoord_to_reference_setting.
    destruct (inv (rotation c)) as [ri |] eqn:Hi.
    2:{ rewrite (inv_regular _ Hd) in Hi. discriminate. }
    f_equal.
    set (w := vsub (vsub ip (reference_position c)) (translation c)).
    replace (vsubs (vadd (dot w ri) q) 1024)
      with (vadd (dot w ri) (vsubs q 1024))
      by (apply vec_ext; unfold vadd, vsubs; simpl; ring).
    rewrite dot_vadd, (dot_inv_l w _ ri Hi).
    apply vec_ext; unfold w, vadd, vsub; simpl; ring. }
  split; [apply Hclosed |]. split.
  - destruct (inv (rotation c)) as [ri |] eqn:Hi.
    2:{ rewrite (inv_regular _ Hd) in Hi. discriminate. }
    exists ri. split; [reflexivity |].
    unfold stagepos_to_pixelcoord, _stagepos_to_pixelcoord,
      _reference_setting_to_pixelcoord.
    rewrite Hi. f_equal.
    replace (vsub p ip)
      with (vsub (vsub (vsub p (translation c)) (reference_position c))
                 (vsub (vsub ip (reference_position c)) (translation c)))
      by (apply vec_ext; unfold vsub; simpl; ring).
    rewrite dot_vsub.
    apply vec_ext; unfold vadds, vsub; simpl; ring.
  - rewrite Hclosed. f_equal.
    apply vec_ext; unfold vadd, vsubs, dot; simpl; ring.
Qed.

Lemma pixelcoord_to_stagepos_closed_form_witness :
  det (rotation sample_calib) <> 0 /\
  pixelcoord_to_stagepos sample_calib (1024, 1024) (150, 250)
    = Some (150, 250).
Proof.
  split.
  - exact sample_calib_regular.
  - exact (proj2 (proj2 (pixelcoord_to_stagepos_closed_form sample_calib
                           (150, 250) (1024, 1024) sample_calib_regular))).
Defined.

(** X3. With a singular rotation matrix none of the four conversions
    answers: each of them inverts the matrix and raises, also
    [pixelcoord_to_stagepos], whose own formula needs no inverse. *)
Theorem singular_rotation_fails_every_conversion (c : CalibStage)
    (p ip : vec) :
  det (rotation c) = 0 ->
  reference_setting_to_pixelcoord c p ip = None /\
  pixelcoord_to_reference_setting c p ip = None /\
  pixelcoord_to_stagepos c p ip = None /\
  stagepos_to_pixelcoord c p ip = None.
Proof.
  intros Hd.
  unfold reference_setting_to_pixelcoord, pixelcoord_to_reference_setting,
    pixelcoord_to_stagepos, stagepos_to_pixelcoord,
    _reference_setting_to_pixelcoord, _pixelcoord_to_reference_setting,
    _pixelcoord_to_stagepos, _stagepos_to_pixelcoord,
    _pixelcoord_to_reference_setting.
  rewrite (inv_singular _ Hd). repeat split.
Qed.

Definition flat_calib : CalibStage := init (Mat 1 2 2 4) (3, 4) (100, 200).

Lemma singular_rotation_fails_every_conversion_witness :
  det (rotation flat_calib) = 0 /\
  pixelcoord_to_stagepos flat_calib (512, 768) (150, 250) = None /\
  stagepos_to_pixelcoord flat_calib (512, 768) (150, 250) = None.
Proof.
  assert (Hd : det (rotation flat_calib) = 0) by (unfold det; simpl; lra).
  split; [exact Hd |].
  destruct (singular_rotation_fails_every_conversion flat_calib
              (512, 768) (150, 250) Hd) as (_ & _ & H3 & H4).
  split; assumption.
Defined.

End StageLowmag.

(* ================================================================== *)
(** * calibrate_stagematrix.py                                         *)
(* ================================================================== *)

Module StageMatrix.

Import Np.
Local Open Scope R_scope.

(** ** Floats that may be infinite or not-a-number

    The only place where the module leaves the finite reals is the
    division inside [scipy.stats.zscore]: numpy divides by zero without
    raising and yields [nan] for [0/0] and a signed infinity otherwise. *)

Inductive float : Type :=
| Fin (x : R)
| PInf
| NInf
| NaN.

Definition fdiv (a b : R) : float :=
  if Req_dec_T b 0 then
    if Req_dec_T a 0 then NaN else if Rlt_dec 0 a then PInf else NInf
  else Fin (a / b).

(** [abs(z)]. *)
Definition fabs (z : float) : float :=
  match z with
  | Fin x => Fin (Rabs x)
  | PInf | NInf => PInf
  | NaN => NaN
  end.

(** [z < t] for a finite [t]: every comparison with [nan] is false. *)
Definition flt (z : float) (t : R) : bool :=
  match z with
  | Fin x => Rltb x t
  | NInf => true
  | PInf | NaN => false
  end.

(** ** [np.linalg.norm(data, axis=1)], [np.mean], [np.std] *)

Definition norm (v : vec) : R := sqrt (fst v * fst v + snd v * snd v).

Definition sum (l : list R) : R := fold_right Rplus 0 l.

Definition mean (l : list R) : R := sum l / INR (length l).

(** Population standard deviation ([ddof=0]). *)
Definition std (l : list R) : R :=
  sqrt (mean (map (fun x => (x - mean l) * (x - mean l)) l)).

(** [scipy.stats.zscore(a)]: [(a - a.mean()) / a.std()], elementwise. *)
Definition zscore (a : list R) : list float :=
  map (fun x => fdiv (x - mean a) (std a)) a.

(** ** Exceptions and console output *)

Definition path : Type := string.

Inductive message : Type :=
| MsgFiltered (n : nat)
    (* Filtered {n} outliers. *)
| MsgStagePos (xy : vec)
    (* print(current_stage_pos) *)
| MsgShift (translation : vec) (error phasediff : R)
    (* shift {translation} error {error} phasediff {phasediff} *)
| MsgCalibrating (mode : string) (mag : Z) (saved : option path)
    (* Calibrating `{mode}` @ {mag}x, followed by -> {drc} when saving *)
| MsgInvalidPixelsize (mode : string) (mag : Z) (pixelsize : R)
    (* Invalid pixelsize for `{mode}` @ {mag}x -> {pixelsize} *)
| MsgNaNToInteger
    (* cannot convert float NaN to integer *)
| MsgAxisError
    (* axis 1 is out of bounds for array of dimension 1 *)
| MsgUpdate.
    (* Update: {location}, and the yaml dump of the result *)

Inductive exc : Type :=
| ValueError (m : message)
| AxisError        (* numpy's AxisError is a subclass of ValueError *)
| ZeroDivisionError
| KeyError
| TypeError
| LinAlgError
| OverflowError
| NameError (name : string)
    (* name '{name}' is not defined *)
| FitError.        (* whatever [fit_affine_transformation] raises *)

Definition is_ValueError (e : exc) : bool :=
  match e with
  | ValueError _ | AxisError => true
  | _ => false
  end.

(** ** [get_outlier_filter]

    [data] is a sequence of 2-vectors.  The function returns the boolean
    selection and prints one line when something was filtered; on an empty
    sequence [np.linalg.norm(.., axis=1)] raises [AxisError]. *)

Definition count_false (sel : list bool) : nat :=
  (length sel - length (filter (fun b => b) sel))%nat.

Definition all_true (sel : list bool) : bool := forallb (fun b => b) sel.

Definition get_outlier_filter (data : list vec) (threshold : R)
  : exc + (list bool * list message) :=
  match data with
  | [] => inl AxisError
  | _ =>
      let zs := zscore (map norm data) in
      let sel := map (fun z => flt (fabs z) threshold) zs in
      let out :=
        if negb (all_true sel) then [MsgFiltered (count_false sel)] else [] in
      inr (sel, out)
  end.

(** The default [threshold]. *)
Definition default_threshold : R := 2.

(** Boolean-mask indexing [np.array(xs)[sel]]. *)
Fixpoint mask {A : Type} (xs : list A) (sel : list bool) : list A :=
  match xs, sel with
  | x :: xs', b :: sel' => if b then x :: mask xs' sel' else mask xs' sel'
  | _, _ => []
  end.

(** ** The microscope, as far as the calibration touches it *)

Inductive event : Type :=
| SetMode (mode : string)                 (* ctrl.mode = mode *)
| SetMagnification (mag : Z)              (* ctrl.magnification.value = mag *)
| StageSetBacklash (x y : R)              (* ctrl.stage.set_xy_with_backlash_correction *)
| StageSetXY (x y : R)                    (* ctrl.stage.xy = (x, y) *)
| CamGetImage                             (* ctrl.getImage() *)
| ReadTiff (drc : path) (j i : nat)       (* read_tiff(drc / '{j}_{i}.tiff') *)
| WriteTiff (drc : path) (j i : nat)      (* write_tiff(drc / '{j}_{i}.tiff', img) *)
| WriteLog (drc : path)                   (* yaml.dump(d, open(drc / 'log.yaml', 'w')) *)
| Plot                                    (* plt.show() *)
| NewWorkSubdirectory (stem : string).    (* get_new_work_subdirectory(stem) *)

Record ctrl : Type := mkCtrl {
  mode : string;
  magnification : Z;
  stage : vec;
  events : list event;      (* the commands issued so far, oldest first *)
  stdout : list message     (* the lines printed so far, oldest first *)
}.

(** Does the event move the stage or take or load an image? *)
Definition moves_or_captures (e : event) : bool :=
  match e with
  | StageSetBacklash _ _ | StageSetXY _ _ | CamGetImage
  | ReadTiff _ _ _ | WriteTiff _ _ _ => true
  | _ => false
  end.

(** ** A state-and-exception monad over [ctrl] *)

Definition M (A : Type) : Type := ctrl -> (exc + A) * ctrl.

Definition ret {A : Type} (a : A) : M A := fun s => (inr a, s).

Definition raise {A : Type} (e : exc) : M A := fun s => (inl e, s).

Definition bind {A B : Type} (m : M A) (k : A -> M B) : M B :=
  fun s =>
    match m s with
    | (inl e, s') => (inl e, s')
    | (inr a, s') => k a s'
    end.

Declare Scope calib_scope.
Delimit Scope calib_scope with calib.
Notation "x <- m ;; k" := (bind m (fun x => k))
  (at level 61, m at next level, right associativity) : calib_scope.
Notation "m ;;; k" := (bind m (fun _ => k))
  (at level 61, right associativity) : calib_scope.
Local Open Scope calib_scope.

Definition get : M ctrl := fun s => (inr s, s).

Definition emit (e : event) : M unit :=
  fun s => (inr tt, mkCtrl (mode s) (magnification s) (stage s)
                           (events s ++ [e]) (stdout s)).

Definition print (m : message) : M unit :=
  fun s => (inr tt, mkCtrl (mode s) (magnification s) (stage s)
                           (events s) (stdout s ++ [m])).

Definition set_mode (m : string) : M unit :=
  fun s => (inr tt, mkCtrl m (magnification s) (stage s)
                           (events s ++ [SetMode m]) (stdout s)).

Definition set_magnification (g : Z) : M unit :=
  fun s => (inr tt, mkCtrl (mode s) g (stage s)
                           (events s ++ [SetMagnification g]) (stdout s)).

(** The stage is taken to reach the commanded position. *)
Definition set_xy_with_backlash_correction (x y : R) : M unit :=
  fun s => (inr tt, mkCtrl (mode s) (magnification s) (x, y)
                           (events s ++ [StageSetBacklash x y]) (stdout s)).

Definition set_stage_xy (x y : R) : M unit :=
  fun s => (inr tt, mkCtrl (mode s) (magnification s) (x, y)
                           (events s ++ [StageSetXY x y]) (stdout s)).

Definition lift {A : Type} (r : exc + A) : M A := fun s => (r, s).

(** [try: m  except ValueError as e: h e]. *)
Definition try_ValueError {A : Type} (m : M A) (h : exc -> M A) : M A :=
  fun s =>
    match m s with
    | (inl e, s') => if is_ValueError e then h e s' else (inl e, s')
    | r => r
    end.

(** [try: m  except KeyError: h]. *)
Definition try_KeyError {A : Type} (m : M A) (h : M A) : M A :=
  fun s =>
    match m s with
    | (inl KeyError, s') => h s'
    | r => r
    end.

(** A name that is not bound where it is used.  The module binds the names
    of its imports (lines 1-14), [write] and its five functions, and
    nothing else; evaluating any other name that is not a builtin raises
    [NameError]. *)
Definition unbound {A : Type} (name : string) : M A := raise (NameError name).

(** The module-level switch [write = False]. *)
Definition write : bool := false.

(** A Python dict with insertion order, [d[k] = v] and [d[k]]. *)
Fixpoint dict_set {K V : Type} (eqb : K -> K -> bool) (k : K) (v : V)
    (d : list (K * V)) : list (K * V) :=
  match d with
  | [] => [(k, v)]
  | (k', v') :: d' =>
      if eqb k k' then (k', v) :: d' else (k', v') :: dict_set eqb k v d'
  end.

Fixpoint dict_get {K V : Type} (eqb : K -> K -> bool) (k : K)
    (d : list (K * V)) : option V :=
  match d with
  | [] => None
  | (k', v') :: d' => if eqb k k' then Some v' else dict_get eqb k d'
  end.

(** One entry of the returned configuration:
    [{'stagematrix': {mag: [..]}, 'pixelsize': {mag: ..}}]. *)
Record mode_cfg : Type := mkModeCfg {
  stagematrix : list (Z * list R);
  pixelsize : list (Z * R)
}.

(** [cfg]: a mode maps to [{}] ([None]) until its turn in the sweep. *)
Definition cfg_dict : Type := list (string * option mode_cfg).

Section Calibration.

(** What the module takes from outside: the configuration, the image
    sources, the cross-correlation, and [fit_affine_transformation] of
    [.fit]. *)
Variable image : Type.
Variable camera_dimensions : R * R.                       (* config.camera.dimensions *)
Variable calibration_pixelsize : string -> Z -> option R. (* config.calibration[mode]['pixelsize'][mag] *)
Variable microscope_ranges : list (string * list Z).      (* config.microscope.ranges *)
Variable cam_getImage : vec -> image.
Variable cam_binning : R.                                 (* ctrl.cam.getBinning()[0] *)
Variable read_tiff : path -> nat -> nat -> image.
Variable rotate_image : image -> string -> Z -> image.
Variable register_translation : image -> image -> vec * R * R.
Variable fit_affine_transformation : list vec -> list vec -> exc + (mat * vec).
Variable np_round : R -> R.                               (* x.round(4) *)
Variable get_new_work_subdirectory : string -> path.

Definition getImage (drc : option path) (j i : nat) (mode : string) (mag : Z)
  : M image :=
  if write then
    s <- get ;;
    emit CamGetImage ;;;
    match drc with
    | Some d => emit (WriteTiff d j i)
    | None => ret tt
    end ;;;
    ret (cam_getImage (stage s))
  else
    match drc with
    | None => raise TypeError
    | Some d =>
        emit (ReadTiff d j i) ;;;
        ret (rotate_image (read_tiff d j i) mode mag)
    end.

(** The body of [for j in range(1, n_steps)]. *)
Fixpoint step_loop (drc : option path) (i : nat) (mode : string) (mag : Z)
    (dx dy : R) (js : list nat) (last_img : image)
    (pairs : list (image * image)) (stage_shifts : list vec)
  : M (list (image * image) * list vec) :=
  match js with
  | [] => ret (pairs, stage_shifts)
  | j :: js' =>
      s <- get ;;
      let new_x_pos := fst (stage s) + dx in
      let new_y_pos := snd (stage s) + dy in
      set_xy_with_backlash_correction new_x_pos new_y_pos ;;;
      img <- getImage drc j i mode mag ;;
      let pairs := pairs ++ [(last_img, img)] in
      let stage_shifts := stage_shifts ++ [(dx, dy)] in
      s' <- get ;;
      print (MsgStagePos (stage s')) ;;;
      step_loop drc i mode mag dx dy js' img pairs stage_shifts
  end.

(** [range(1, n_steps)]. *)
Definition range1 (n_steps : Z) : list nat := seq 1 (Z.to_nat (n_steps - 1)).

(** The body of [for i, (n_steps, step) in enumerate(args)]. *)
Fixpoint range_loop (drc : option path) (mode : string) (mag : Z)
    (stage_xy : vec) (i : nat) (args : list (Z * vec))
    (pairs : list (image * image)) (stage_shifts : list vec)
  : M (list (image * image) * list vec) :=
  match args with
  | [] => ret (pairs, stage_shifts)
  | (n_steps, step) :: args' =>
      last_img <- getImage drc 0 i mode mag ;;
      let '(dx, dy) := step in
      acc <- step_loop drc i mode mag dx dy (range1 n_steps) last_img
               pairs stage_shifts ;;
      set_stage_xy (fst stage_xy) (snd stage_xy) ;;;
      range_loop drc mode mag stage_xy (S i) args' (fst acc) (snd acc)
  end.

(** The cross-correlation loop. *)
Fixpoint correlate (pairs : list (image * image)) (translations : list vec)
  : M (list vec) :=
  match pairs with
  | [] => ret translations
  | (img0, img1) :: pairs' =>
      let '(translation, error, phasediff) := register_translation img0 img1 in
      print (MsgShift translation error phasediff) ;;;
      correlate pairs' (translations ++ [translation])
  end.

Definition calibrate_stage_from_stagepos (args : list (Z * vec))
    (plot : bool) (drc : option path) : M mat :=
  s0 <- get ;;
  let stage_xy := stage s0 in
  let mag := magnification s0 in
  let mode := mode s0 in
  let binning := cam_binning in
  acc <- range_loop drc mode mag stage_xy 0 args [] [] ;;
  let '(pairs, stage_shifts) := acc in
  translations <- correlate pairs [] ;;
  (* Filter outliers *)
  flt_out <- lift (get_outlier_filter translations default_threshold) ;;
  let '(sel, out) := flt_out in
  (fun s => (inr tt, mkCtrl (StageMatrix.mode s) (magnification s) (stage s)
                            (events s) (stdout s ++ out))) ;;;
  let stage_shifts := mask stage_shifts sel in
  let translations := mask translations sel in
  (* Fit stagematrix *)
  fit_result <- lift (fit_affine_transformation translations stage_shifts) ;;
  let '(r, t) := fit_result in
  (if write then
     match drc with
     | Some d => emit (WriteLog d)
     | None => ret tt
     end
   else ret tt) ;;;
  (if plot then
     match inv r with
     | None => raise LinAlgError
     | Some r_i => emit Plot
     end
   else ret tt) ;;;
  let stagematrix := mdivs r binning in
  ret stagematrix.

(** Truthiness of the optional arguments [mode] and [mag]. *)
Definition truthy_mode (mode : option string) : bool :=
  match mode with
  | Some m => negb (String.eqb m EmptyString)
  | None => false
  end.

Definition truthy_mag (mag : option Z) : bool :=
  match mag with
  | Some g => negb (Z.eqb g 0)
  | None => false
  end.

(** [int(a // b)] on numpy floats: a zero divisor gives an infinity or a
    [nan], which [int] refuses. *)
Definition int_floordiv (a b : R) : exc + Z :=
  if Req_dec_T b 0 then
    if Req_dec_T a 0 then inl (ValueError MsgNaNToInteger) else inl OverflowError
  else inr (Int_part (a / b)).

(** [n_step] for one axis. *)
Definition n_step (step stage_length : R) (min_n_step max_n_step : Z) : M Z :=
  if Rltb stage_length (step * IZR min_n_step) then ret min_n_step
  else
    q <- lift (int_floordiv stage_length step) ;;
    ret (Z.min q max_n_step).

Definition calibrate_stage (mode : option string) (mag : option Z)
    (overlap : R) (stage_length : Z) (min_n_step max_n_step : Z)
    (plot : bool) (drc : option path) : M mat :=
  mm <- match mode, mag with
        | Some m, Some g =>
            if truthy_mode mode && truthy_mag mag then
              set_mode m ;;; set_magnification g ;;; ret (m, g)
            else
              s <- get ;; ret (StageMatrix.mode s, magnification s)
        | _, _ => s <- get ;; ret (StageMatrix.mode s, magnification s)
        end ;;
  let '(mode, mag) := mm in
  let shape := camera_dimensions in
  pixelsize <- match calibration_pixelsize mode mag with
               | Some p => ret p
               | None => raise KeyError
               end ;;
  if Reqb pixelsize 1 || Reqb pixelsize 0 then
    raise (ValueError (MsgInvalidPixelsize mode mag pixelsize))
  else
    let displacement := (fst shape * pixelsize, snd shape * pixelsize) in
    let x_step := fst displacement * (1 - overlap) in
    let y_step := snd displacement * (1 - overlap) in
    n_x_step <- n_step x_step (IZR stage_length) min_n_step max_n_step ;;
    n_y_step <- n_step y_step (IZR stage_length) min_n_step max_n_step ;;
    let args := [(n_x_step, (x_step, 0)); (n_y_step, (0, y_step))] in
    calibrate_stage_from_stagepos args plot drc.

(** ** [calibrate_stage_all] *)

Definition modes : list string := ["lowmag"%string; "mag1"%string].

(** What [print(e)] shows for a caught [ValueError]. *)
Definition message_of (e : exc) : message :=
  match e with
  | ValueError m => m
  | _ => MsgAxisError
  end.

(** [cfg[mode][..][mag] = ..] for both tables of one mode. *)
Definition cfg_record (mode : string) (mag : Z) (px : R) (sm : list R)
    (cfg : cfg_dict) : exc + cfg_dict :=
  match dict_get String.eqb mode cfg with
  | Some (Some mc) =>
      let mc1 := mkModeCfg (stagematrix mc) (dict_set Z.eqb mag px (pixelsize mc)) in
      let mc2 := mkModeCfg (dict_set Z.eqb mag sm (stagematrix mc1)) (pixelsize mc1) in
      inr (dict_set String.eqb mode (Some mc2) cfg)
  | _ => inl KeyError
  end.

(** One turn of [for mag in mag_ranges[mode]], up to its [continue] or its
    end; [stage_length] is not handed on to [calibrate_stage], which runs
    with its default 40000.

    Line 310 reads [drcs] and line 328 calls [stagematrix_to_pixelsize].
    Neither name is bound in the module, so each use raises [NameError];
    [except KeyError] does not catch it.  The statements after line 310
    are kept as they are written. *)
Definition sweep_body (mode : string) (overlap : R)
    (min_n_step max_n_step : Z) (save : bool) (mag : Z)
    (cfg : cfg_dict) : M cfg_dict :=
  saved <- (if save then
              emit (NewWorkSubdirectory ("stagematrix_" ++ mode)) ;;;
              ret (Some (get_new_work_subdirectory ("stagematrix_" ++ mode)))
            else ret None) ;;
  let msg := MsgCalibrating mode mag saved in
  found <- try_KeyError
             (drcs <- @unbound (string -> Z -> option path) "drcs" ;;
              drc <- match drcs mode mag with
                     | Some d => ret d
                     | None => raise KeyError
                     end ;;
              print msg ;;;
              ret (Some drc))
             (* except KeyError: continue *)
             (ret None) ;;
  match found with
  | None => ret cfg
  | Some drc =>
      r <- try_ValueError
             (sm <- calibrate_stage (Some mode) (Some mag) overlap 40000
                      min_n_step max_n_step false (Some drc) ;;
              ret (Some sm))
             (fun e => print (message_of e) ;;; ret None) ;;
      match r with
      | None => (* except ValueError: continue *)
          ret cfg
      | Some sm =>
          stagematrix_to_pixelsize <-
            @unbound (mat -> R) "stagematrix_to_pixelsize" ;;
          lift (cfg_record mode mag (stagematrix_to_pixelsize sm)
                  (map np_round [m00 sm; m01 sm; m10 sm; m11 sm]) cfg)
      end
  end.

Fixpoint sweep_mags (mode : string) (overlap : R)
    (min_n_step max_n_step : Z) (save : bool) (mags : list Z)
    (cfg : cfg_dict) : M cfg_dict :=
  match mags with
  | [] => ret cfg
  | mag :: mags' =>
      cfg' <- sweep_body mode overlap min_n_step max_n_step save mag cfg ;;
      sweep_mags mode overlap min_n_step max_n_step save mags' cfg'
  end.

(** The body of [for mode in modes]. *)
Fixpoint sweep_modes (mag_ranges : list (string * list Z)) (overlap : R)
    (min_n_step max_n_step : Z) (save : bool) (ms : list string)
    (cfg : cfg_dict) : M cfg_dict :=
  match ms with
  | [] => ret cfg
  | mode :: ms' =>
      let cfg := dict_set String.eqb mode (Some (mkModeCfg [] [])) cfg in
      mags <- match dict_get String.eqb mode mag_ranges with
              | Some mags => ret mags
              | None => raise KeyError
              end ;;
      cfg' <- sweep_mags mode overlap min_n_step max_n_step save mags cfg ;;
      sweep_modes mag_ranges overlap min_n_step max_n_step save ms' cfg'
  end.

Definition calibrate_stage_all (mag_ranges : option (list (string * list Z)))
    (overlap : R) (stage_length : Z) (min_n_step max_n_step : Z)
    (save : bool) : M cfg_dict :=
  let mag_ranges :=
    match mag_ranges with
    | Some (kv :: d) => kv :: d
    | _ => microscope_ranges
    end in
  let cfg := map (fun mode => (mode, @None mode_cfg)) modes in
  cfg' <- sweep_modes mag_ranges overlap min_n_step max_n_step save modes cfg ;;
  print MsgUpdate ;;;
  ret cfg'.

(** ** The pixel-size guard of [calibrate_stage] *)

(** The mode and magnification a call works at: the requested ones when
    both are given (and truthy), the microscope's current ones otherwise. *)
Definition requested (mode : option string) (mag : option Z) (s : ctrl)
  : string * Z :=
  match mode, mag with
  | Some m, Some g =>
      if truthy_mode mode && truthy_mag mag then (m, g)
      else (StageMatrix.mode s, magnification s)
  | _, _ => (StageMatrix.mode s, magnification s)
  end.

(** The microscope after [calibrate_stage] has selected them. *)
Definition selected (mode : option string) (mag : option Z) (s : ctrl)
  : ctrl :=
  match mode, mag with
  | Some m, Some g =>
      if truthy_mode mode && truthy_mag mag then
        mkCtrl m g (stage s) (events s ++ [SetMode m; SetMagnification g])
               (stdout s)
      else s
  | _, _ => s
  end.

Definition quiet (evs : list event) : bool :=
  forallb (fun e => negb (moves_or_captures e)) evs.

Lemma selected_spec (mode : option string) (mag : option Z) (s : ctrl) :
  stage (selected mode mag s) = stage s /\
  stdout (selected mode mag s) = stdout s /\
  exists evs, events (selected mode mag s) = events s ++ evs /\
              quiet evs = true.
Proof.
  unfold selected.
  destruct mode as [m |], mag as [g |];
    try (repeat split; try reflexivity; exists []; rewrite app_nil_r;
         split; reflexivity).
  destruct (truthy_mode (Some m) && truthy_mag (Some g)).
  - repeat split; try reflexivity.
    exists [SetMode m; SetMagnification g]. split; reflexivity.
  - repeat split; try reflexivity. exists []. rewrite app_nil_r.
    split; reflexivity.
Qed.

Lemma calibrate_stage_invalid (mode : option string) (mag : option Z)
    (overlap : R) (stage_length min_n_step max_n_step : Z) (plot : bool)
    (drc : option path) (s : ctrl) (p : R) :
  calibration_pixelsize (fst (requested mode mag s))
                        (snd (requested mode mag s)) = Some p ->
  p = 1 \/ p = 0 ->
  calibrate_stage mode mag overlap stage_length min_n_step max_n_step
                  plot drc s =
  (inl (ValueError (MsgInvalidPixelsize (fst (requested mode mag s))
                                        (snd (requested mode mag s)) p)),
   selected mode mag s).
Proof.
  intros Hp Hbad.
  assert (Hg : Reqb p 1 || Reqb p 0 = true).
  { apply orb_true_iff. rewrite !Reqb_true. exact Hbad. }
  unfold calibrate_stage, requested, selected in *.
  destruct mode as [m |], mag as [g |]; simpl in *;
    try (unfold bind, get, ret, raise; simpl; rewrite Hp; simpl; rewrite Hg;
         reflexivity).
  destruct (negb (String.eqb m "") && negb (Z.eqb g 0)); simpl in *;
    unfold bind, get, ret, raise, set_mode, set_magnification; simpl;
    rewrite Hp; simpl; rewrite Hg; rewrite <- ?app_assoc; reflexivity.
Qed.

(** C5. When the configured pixel size for the mode and magnification the
    call works at is the uncalibrated value 1.0 or zero, [calibrate_stage]
    raises its [ValueError] naming them.  Up to that point it has at most
    selected the mode and the magnification: the stage has not moved, no
    image has been taken or loaded, and nothing has been printed. *)
Theorem calibrate_stage_fails_fast (mode : option string) (mag : option Z)
    (overlap : R) (stage_length min_n_step max_n_step : Z) (plot : bool)
    (drc : option path) (s : ctrl) (p : R) :
  calibration_pixelsize (fst (requested mode mag s))
                        (snd (requested mode mag s)) = Some p ->
  p = 1 \/ p = 0 ->
  exists s',
    calibrate_stage mode mag overlap stage_length min_n_step max_n_step
                    plot drc s =
    (inl (ValueError (MsgInvalidPixelsize (fst (requested mode mag s))
                                          (snd (requested mode mag s)) p)),
     s') /\
    stage s' = stage s /\
    stdout s' = stdout s /\
    exists evs, events s' = events s ++ evs /\ quiet evs = true.
Proof.
  intros Hp Hbad. exists (selected mode mag s). split.
  - apply calibrate_stage_invalid; assumption.
  - apply selected_spec.
Qed.

(** ** The sweep over the magnifications *)

(** The ranges a sweep runs over: the argument, or the configured ones
    when it is missing or empty. *)
Definition effective_ranges (mag_ranges : option (list (string * list Z)))
  : list (string * list Z) :=
  match mag_ranges with
  | Some (kv :: d) => kv :: d
  | _ => microscope_ranges
  end.

Definition empty_cfg : cfg_dict :=
  [("lowmag"%string, Some (mkModeCfg [] []));
   ("mag1"%string, Some (mkModeCfg [] []))].

(** The microscope when the first turn of the sweep stops: with [save] the
    work directory of that turn has been created, and nothing else has
    happened. *)
Definition first_turn (save : bool) (mode : string) (s : ctrl) : ctrl :=
  if save then
    mkCtrl (StageMatrix.mode s) (magnification s) (stage s)
           (events s ++ [NewWorkSubdirectory ("stagematrix_" ++ mode)])
           (stdout s)
  else s.

Lemma sweep_body_unbound (mode : string) (overlap : R)
    (min_n_step max_n_step : Z) (save : bool) (mag : Z) (cfg : cfg_dict)
    (s : ctrl) :
  sweep_body mode overlap min_n_step max_n_step save mag cfg s =
  (inl (NameError "drcs"), first_turn save mode s).
Proof.
  unfold sweep_body, first_turn.
  destruct save; unfold bind, try_KeyError, unbound, raise, emit, ret;
    reflexivity.
Qed.

Lemma sweep_mags_unbound (mode : string) (overlap : R)
    (min_n_step max_n_step : Z) (save : bool) (mag : Z) (mags : list Z)
    (cfg : cfg_dict) (s : ctrl) :
  sweep_mags mode overlap min_n_step max_n_step save (mag :: mags) cfg s =
  (inl (NameError "drcs"), first_turn save mode s).
Proof.
  cbn [sweep_mags]. unfold bind at 1. rewrite sweep_body_unbound.
  reflexivity.
Qed.

(** The whole of [calibrate_stage_all], by the ranges of the two modes. *)
Lemma calibrate_stage_all_run
    (mag_ranges : option (list (string * list Z))) (overlap : R)
    (stage_length min_n_step max_n_step : Z) (save : bool)
    (l1 l2 : list Z) (s : ctrl) :
  dict_get String.eqb "lowmag"%string (effective_ranges mag_ranges) = Some l1 ->
  dict_get String.eqb "mag1"%string (effective_ranges mag_ranges) = Some l2 ->
  calibrate_stage_all mag_ranges overlap stage_length min_n_step
                      max_n_step save s =
  match l1, l2 with
  | _ :: _, _ => (inl (NameError "drcs"), first_turn save "lowmag" s)
  | [], _ :: _ => (inl (NameError "drcs"), first_turn save "mag1" s)
  | [], [] =>
      (inr empty_cfg,
       mkCtrl (mode s) (magnification s) (stage s) (events s)
              (stdout s ++ [MsgUpdate]))
  end.
Proof.
  intros H1 H2.
  unfold calibrate_stage_all. fold (effective_ranges mag_ranges).
  unfold modes, sweep_modes. simpl map.
  unfold bind at 1 2. rewrite H1. simpl dict_set. unfold ret at 1.
  unfold bind at 1.
  destruct l1 as [| g1 l1].
  - cbn [sweep_mags]. unfold ret at 1.
    unfold bind at 1 2. rewrite H2. simpl dict_set. unfold ret at 1.
    unfold bind at 1.
    destruct l2 as [| g2 l2].
    + cbn [sweep_mags]. unfold ret, bind, print. reflexivity.
    + rewrite sweep_mags_unbound. reflexivity.
  - rewrite sweep_mags_unbound. reflexivity.
Qed.

(** C6. The sweep never gets as far as the pixel-size check.  Whatever the
    configured pixel sizes, as soon as one of the two modes has a
    magnification to calibrate, the first turn of the loop raises
    [NameError] at [drcs] (line 310), before the announcement is printed
    and before [calibrate_stage] is called: mode, magnification and stage
    are untouched, nothing is on the console, and the only command issued
    is the creation of that turn's work directory when [save] is set.  The
    exception is not caught, so no dictionary is returned and no further
    magnification is visited. *)
Theorem calibrate_stage_all_raises_NameError
    (mag_ranges : option (list (string * list Z))) (overlap : R)
    (stage_length min_n_step max_n_step : Z) (save : bool)
    (l1 l2 : list Z) (s : ctrl) :
  dict_get String.eqb "lowmag"%string (effective_ranges mag_ranges) = Some l1 ->
  dict_get String.eqb "mag1"%string (effective_ranges mag_ranges) = Some l2 ->
  l1 ++ l2 <> [] ->
  exists s',
    calibrate_stage_all mag_ranges overlap stage_length min_n_step
                        max_n_step save s = (inl (NameError "drcs"), s') /\
    mode s' = mode s /\
    magnification s' = magnification s /\
    stage s' = stage s /\
    stdout s' = stdout s /\
    events s' =
      events s ++
      (if save then
         [NewWorkSubdirectory
            ("stagematrix_" ++ match l1 with
                               | [] => "mag1"
                               | _ :: _ => "lowmag"
                               end)]
       else []).
Proof.
  intros H1 H2 Hne.
  rewrite (calibrate_stage_all_run mag_ranges overlap stage_length
             min_n_step max_n_step save l1 l2 s H1 H2).
  destruct l1 as [| g1 l1]; [destruct l2 as [| g2 l2] |].
  - contradiction Hne. reflexivity.
  - exists (first_turn save "mag1" s). split; [reflexivity |].
    unfold first_turn. destruct save; cbn [mode magnification stage stdout events];
      rewrite ?app_nil_r; repeat split.
  - exists (first_turn save "lowmag" s). split; [reflexivity |].
    unfold first_turn. destruct save; cbn [mode magnification stage stdout events];
      rewrite ?app_nil_r; repeat split.
Qed.

(** ** The step count of one axis *)

Lemma Int_part_lower (r : R) : IZR (Int_part r) <= r.
Proof. destruct (base_Int_part r) as [H _]. exact H. Qed.

Lemma Int_part_upper (r : R) : r < IZR (Int_part r + 1).
Proof. destruct (base_Int_part r) as [_ H]. rewrite plus_IZR. lra. Qed.

Lemma Int_part_ge (z : Z) (r : R) : IZR z <= r -> (z <= Int_part r)%Z.
Proof.
  intros H. pose proof (Int_part_upper r) as Hu.
  assert (Hlt : IZR z < IZR (Int_part r + 1)) by lra.
  apply lt_IZR in Hlt. lia.
Qed.

(** X6. For a positive step and [min_n_step <= max_n_step] the step count
    of an axis is always defined, lies between the two bounds, and is the
    largest count whose steps fit into [stage_length], clipped to the
    bounds: either it is [min_n_step] or [n * step <= stage_length], and
    below [max_n_step] one more step would exceed [stage_length].  The
    microscope is not touched. *)
Theorem n_step_within_bounds (step stage_length : R)
    (min_n_step max_n_step : Z) (s : ctrl) :
  0 < step -> (min_n_step <= max_n_step)%Z ->
  exists n,
    n_step step stage_length min_n_step max_n_step s = (inr n, s) /\
    (min_n_step <= n <= max_n_step)%Z /\
    (n = min_n_step \/ IZR n * step <= stage_length) /\
    ((n < max_n_step)%Z -> stage_length < IZR (n + 1) * step).
Proof.
  intros Hstep Hmm. unfold n_step.
  destruct (Rltb stage_length (step * IZR min_n_step)) eqn:Hb.
  - apply Rltb_true in Hb. exists min_n_step.
    split; [reflexivity |]. split; [lia |]. split; [left; reflexivity |].
    intros _. rewrite plus_IZR. lra.
  - apply Rltb_false in Hb. unfold int_floordiv, bind, lift, ret.
    destruct (Req_dec_T step 0) as [E | _]; [lra |].
    set (q := Int_part (stage_length / step)).
    assert (Hq1 : IZR q * step <= stage_length).
    { pose proof (Int_part_lower (stage_length / step)) as Hl. fold q in Hl.
      apply (Rmult_le_compat_r step) in Hl; [| lra].
      replace (stage_length / step * step) with stage_length in Hl
        by (field; lra).
      exact Hl. }
    assert (Hq2 : stage_length < IZR (q + 1) * step).
    { pose proof (Int_part_upper (stage_length / step)) as Hu. fold q in Hu.
      apply (Rmult_lt_compat_r step) in Hu; [| lra].
      replace (stage_length / step * step) with stage_length in Hu
        by (field; lra).
      exact Hu. }
    assert (Hq3 : (min_n_step <= q)%Z).
    { apply Int_part_ge. apply (Rmult_le_reg_r step); [lra |].
      replace (stage_length / step * step) with stage_length by (field; lra).
      lra. }
    exists (Z.min q max_n_step). split; [reflexivity |].
    split; [lia |]. split.
    + right. destruct (Z.min_spec q max_n_step) as [[_ ->] | [Hle ->]].
      * exact Hq1.
      * apply IZR_le in Hle. nra.
    + intros Hlt. assert (Z.min q max_n_step = q) as -> by lia. exact Hq2.
Qed.

(** ** The walk of [calibrate_stage_from_stagepos] *)

(** The commands of one range: the image at the start, then for every
    [j] in [range(1, n_steps)] a move to [start + j * step] and an image,
    and the move back to the start. *)
Definition range_events (d : path) (x0 y0 : R) (i : nat) (n_steps : Z)
    (step : vec) : list event :=
  ReadTiff d 0 i ::
  flat_map (fun j => [StageSetBacklash (x0 + INR j * fst step)
                                       (y0 + INR j * snd step);
                      ReadTiff d j i])
           (range1 n_steps)
  ++ [StageSetXY x0 y0].

Fixpoint sweep_events (d : path) (x0 y0 : R) (i : nat)
    (args : list (Z * vec)) : list event :=
  match args with
  | [] => []
  | (n_steps, step) :: args' =>
      range_events d x0 y0 i n_steps step ++ sweep_events d x0 y0 (S i) args'
  end.

(** The stage shift recorded with every image pair. *)
Definition planned_shifts (args : list (Z * vec)) : list vec :=
  flat_map (fun a => repeat (snd a) (length (range1 (fst a)))) args.

Lemma step_loop_run (d : path) (i : nat) (md : string) (mg : Z)
    (dx dy x0 y0 : R) :
  forall (k a : nat) (last_img : image) (pairs : list (image * image))
         (shifts : list vec) (s : ctrl),
    stage s = (x0 + INR a * dx, y0 + INR a * dy) ->
    exists pairs' s',
      step_loop (Some d) i md mg dx dy (seq (S a) k) last_img pairs shifts s
        = (inr (pairs ++ pairs', shifts ++ repeat (dx, dy) k), s') /\
      length pairs' = k /\
      stage s' = (x0 + INR (a + k) * dx, y0 + INR (a + k) * dy) /\
      mode s' = mode s /\ magnification s' = magnification s /\
      events s' =
        events s ++
        flat_map (fun j => [StageSetBacklash (x0 + INR j * dx) (y0 + INR j * dy);
                            ReadTiff d j i])
                 (seq (S a) k).
Proof.
  induction k as [| k IH]; intros a last_img pairs shifts s Hs.
  - exists [], s. cbn [seq step_loop repeat flat_map].
    rewrite !app_nil_r, Nat.add_0_r. unfold ret. repeat split. exact Hs.
  - cbn [seq step_loop].
    unfold bind at 1, get at 1. unfold bind at 1.
    unfold set_xy_with_backlash_correction at 1.
    unfold bind at 1, getImage at 1, write.
    unfold bind at 1, emit at 1. unfold ret at 1.
    unfold bind at 1, get at 1. unfold bind at 1, print at 1.
    cbn [mode magnification stage events stdout].
    match goal with
    | |- context [step_loop _ _ _ _ _ _ _ ?img ?ps ?ss ?st] =>
        destruct (IH (S a) img ps ss st)
          as (pairs' & s' & Hrun & Hlen & Hst & Hmd & Hmg & Hev)
    end.
    { cbn [stage]. rewrite Hs. cbn [fst snd]. rewrite S_INR.
      f_equal; ring. }
    rewrite Hrun. eexists (_ :: pairs'), s'. split.
    { rewrite <- !app_assoc. reflexivity. }
    split; [cbn [length]; rewrite Hlen; reflexivity |].
    split; [rewrite Hst, Nat.add_succ_comm; reflexivity |].
    split; [rewrite Hmd; reflexivity |].
    split; [rewrite Hmg; reflexivity |].
    rewrite Hev. cbn [events flat_map]. rewrite Hs. cbn [fst snd].
    rewrite <- !app_assoc. cbn [app]. rewrite S_INR.
    replace (x0 + INR a * dx + dx) with (x0 + (INR a + 1) * dx) by ring.
    replace (y0 + INR a * dy + dy) with (y0 + (INR a + 1) * dy) by ring.
    reflexivity.
Qed.

Lemma range_loop_run (d : path) (md : string) (mg : Z) (x0 y0 : R) :
  forall (args : list (Z * vec)) (i : nat) (pairs : list (image * image))
         (shifts : list vec) (s : ctrl),
    stage s = (x0, y0) ->
    exists pairs' s',
      range_loop (Some d) md mg (x0, y0) i args pairs shifts s
        = (inr (pairs ++ pairs', shifts ++ planned_shifts args), s') /\
      length pairs' = length (planned_shifts args) /\
      stage s' = (x0, y0) /\
      mode s' = mode s /\ magnification s' = magnification s /\
      events s' = events s ++ sweep_events d x0 y0 i args.
Proof.
  induction args as [| [n [dx dy]] args IH]; intros i pairs shifts s Hs.
  - exists [], s. cbn [range_loop planned_shifts flat_map sweep_events].
    rewrite !app_nil_r. unfold ret. repeat split. exact Hs.
  - cbn [range_loop].
    unfold bind at 1, getImage at 1, write.
    unfold bind at 1, emit at 1. unfold ret at 1.
    unfold bind at 1. unfold range1 at 1.
    match goal with
    | |- context [step_loop _ _ _ _ _ _ (seq 1 ?k) ?img ?ps ?ss ?st] =>
        destruct (step_loop_run d i md mg dx dy x0 y0 k 0 img ps ss st)
          as (p1 & s1 & Hrun & Hlen & Hst & Hmd & Hmg & Hev)
    end.
    { cbn [stage]. rewrite Hs. cbn [INR]. f_equal; ring. }
    rewrite Hrun. unfold bind at 1, set_stage_xy at 1. cbn [fst snd].
    match goal with
    | |- context [range_loop _ _ _ _ _ _ ?ps ?ss ?st] =>
        destruct (IH (S i) ps ss st)
          as (p2 & s2 & Hrun2 & Hlen2 & Hst2 & Hmd2 & Hmg2 & Hev2)
    end.
    { reflexivity. }
    rewrite Hrun2. exists (p1 ++ p2), s2.
    cbn [planned_shifts flat_map fst snd]. fold (planned_shifts args).
    unfold range1. rewrite !length_seq.
    split; [rewrite <- !app_assoc; reflexivity |].
    split; [rewrite !length_app, repeat_length, Hlen, Hlen2; reflexivity |].
    split; [exact Hst2 |].
    split; [rewrite Hmd2; cbn [mode]; rewrite Hmd; reflexivity |].
    split; [rewrite Hmg2; cbn [magnification]; rewrite Hmg; reflexivity |].
    rewrite Hev2. cbn [events sweep_events]. rewrite Hev. cbn [events].
    unfold range_events, range1. cbn [fst snd].
    rewrite <- !app_assoc. cbn [app]. rewrite <- !app_assoc. reflexivity.
Qed.

Lemma correlate_run :
  forall (pairs : list (image * image)) (translations : list vec) (s : ctrl),
    exists out,
      correlate pairs translations s
        = (inr (translations ++
                map (fun p => fst (fst (register_translation (fst p) (snd p))))
                    pairs),
           mkCtrl (mode s) (magnification s) (stage s) (events s)
                  (stdout s ++ out)) /\
      length out = length pairs.
Proof.
  induction pairs as [| [img0 img1] pairs IH]; intros translations s.
  - exists []. cbn [correlate map]. rewrite !app_nil_r. unfold ret.
    destruct s; split; reflexivity.
  - cbn [correlate map fst snd].
    destruct (register_translation img0 img1) as [[translation error] phasediff].
    unfold bind at 1, print at 1.
    match goal with
    | |- context [correlate pairs ?t ?st] =>
        destruct (IH t st) as (out & Hrun & Hlen)
    end.
    rewrite Hrun. cbn [mode magnification stage events stdout fst].
    exists (MsgShift translation error phasediff :: out).
    rewrite <- !app_assoc. cbn [app length]. rewrite Hlen.
    split; reflexivity.
Qed.

(** X7. Reading its images from a directory, the calibration walk ends
    with the stage where it started, whatever happens afterwards (it may
    return the stage matrix or fail in the outlier filter, the fit or the
    plot), and mode and magnification are untouched.  Its commands are,
    range after range: the image at the start, for every [j] from 1 to
    [n_steps - 1] a backlash-corrected move to [start + j * step] followed
    by an image, and a plain move back to the start; the only thing that
    can follow is the plot. *)
Theorem calibration_walk_returns_to_start (args : list (Z * vec))
    (plot : bool) (d : path) (s : ctrl) :
  let r := calibrate_stage_from_stagepos args plot (Some d) s in
  stage (snd r) = stage s /\
  mode (snd r) = mode s /\
  magnification (snd r) = magnification s /\
  exists tail,
    events (snd r) =
      events s ++
      sweep_events d (fst (stage s)) (snd (stage s)) 0 args ++ tail /\
    (tail = [] \/ tail = [Plot]).
Proof.
  intros r.
  assert (Hr : exists res s' tail,
    r = (res, s') /\ stage s' = stage s /\ mode s' = mode s /\
    magnification s' = magnification s /\
    events s' =
      events s ++
      sweep_events d (fst (stage s)) (snd (stage s)) 0 args ++ tail /\
    (tail = [] \/ tail = [Plot])).
  2:{ destruct Hr as (res & s' & tail & -> & H1 & H2 & H3 & H4 & H5).
      cbn [snd]. split; [exact H1 |]. split; [exact H2 |].
      split; [exact H3 |]. exists tail. split; [exact H4 | exact H5]. }
  subst r. unfold calibrate_stage_from_stagepos.
  unfold bind at 1, get at 1. unfold bind at 1.
  destruct (range_loop_run d (mode s) (magnification s)
              (fst (stage s)) (snd (stage s)) args 0 [] [] s)
    as (pairs & s1 & Hrun & _ & Hst & Hmd & Hmg & Hev).
  { destruct (stage s); reflexivity. }
  rewrite <- surjective_pairing in Hrun. rewrite Hrun. cbn [app].
  unfold bind at 1.
  destruct (correlate_run pairs [] s1) as (out & Hcor & _).
  rewrite Hcor. cbn [app].
  set (translations :=
         map (fun p => fst (fst (register_translation (fst p) (snd p)))) pairs).
  set (s2 := mkCtrl (mode s1) (magnification s1) (stage s1) (events s1)
                    (stdout s1 ++ out)).
  assert (Hs2 : stage s2 = stage s /\ mode s2 = mode s /\
                magnification s2 = magnification s /\
                events s2 = events s ++
                  sweep_events d (fst (stage s)) (snd (stage s)) 0 args).
  { subst s2. cbn [stage mode magnification events].
    rewrite Hst, Hmd, Hmg, Hev. rewrite <- surjective_pairing.
    repeat split. }
  clearbody s2. destruct Hs2 as (H1 & H2 & H3 & H4).
  unfold bind at 1, lift at 1.
  destruct (get_outlier_filter translations default_threshold)
    as [e | [sel msgs]].
  { exists (inl e), s2, []. rewrite app_nil_r. repeat split; auto. }
  unfold bind at 1. cbn [mode magnification stage events stdout].
  unfold bind at 1, lift at 1.
  destruct (fit_affine_transformation _ _) as [e | [rr tt']].
  { eexists (inl e), _, []. rewrite app_nil_r.
    split; [reflexivity |]. cbn [mode magnification stage events stdout].
    repeat split; auto. }
  unfold write. unfold bind at 1, ret at 1.
  destruct plot.
  - destruct (inv rr) as [ri |].
    + unfold bind, emit, ret. eexists _, _, [Plot].
      split; [reflexivity |]. cbn [mode magnification stage events stdout].
      rewrite H4, <- app_assoc. repeat split; auto.
    + unfold bind, raise. eexists _, _, [].
      split; [reflexivity |]. cbn [mode magnification stage events stdout].
      rewrite app_nil_r. repeat split; auto.
  - unfold bind, ret. eexists _, _, [].
    split; [reflexivity |]. cbn [mode magnification stage events stdout].
    rewrite app_nil_r. repeat split; auto.
Qed.

Lemma range1_single (n : Z) : (n <= 1)%Z -> range1 n = [].
Proof.
  intros Hn. unfold range1. replace (Z.to_nat (n - 1)) with 0%nat by lia.
  reflexivity.
Qed.

Lemma planned_shifts_single (args : list (Z * vec)) :
  Forall (fun a => (fst a <= 1)%Z) args -> planned_shifts args = [].
Proof.
  induction 1 as [| [n step] args Hn _ IH]; [reflexivity |].
  cbn [planned_shifts flat_map fst snd]. fold (planned_shifts args).
  rewrite (range1_single n Hn), IH. reflexivity.
Qed.

Lemma sweep_events_single (d : path) (x0 y0 : R) :
  forall (args : list (Z * vec)) (i : nat),
    Forall (fun a => (fst a <= 1)%Z) args ->
    sweep_events d x0 y0 i args =
    flat_map (fun i => [ReadTiff d 0 i; StageSetXY x0 y0])
             (seq i (length args)).
Proof.
  induction args as [| [n step] args IH]; intros i Hall.
  - reflexivity.
  - inversion Hall as [| a l Hn Hrest]; subst.
    cbn [sweep_events length seq flat_map]. unfold range_events.
    rewrite (range1_single n Hn), (IH (S i) Hrest). reflexivity.
Qed.

(** X8. When no range has more than one step (or there is no range at
    all) no image pair is formed, and the routine fails in the outlier
    filter with numpy's [AxisError], a [ValueError]: it has read the first
    image of every range and sent the stage back to the start each time,
    and it has printed nothing; neither the fit nor the plot is reached. *)
Theorem single_step_ranges_raise_AxisError (args : list (Z * vec))
    (plot : bool) (d : path) (s : ctrl) :
  Forall (fun a => (fst a <= 1)%Z) args ->
  let r := calibrate_stage_from_stagepos args plot (Some d) s in
  fst r = inl AxisError /\
  is_ValueError AxisError = true /\
  events (snd r) =
    events s ++
    flat_map (fun i => [ReadTiff d 0 i;
                        StageSetXY (fst (stage s)) (snd (stage s))])
             (seq 0 (length args)) /\
  (args = [] -> snd r = s).
Proof.
  intros Hall r.
  assert (Hr : exists s',
    r = (inl AxisError, s') /\
    events s' =
      events s ++
      flat_map (fun i => [ReadTiff d 0 i;
                          StageSetXY (fst (stage s)) (snd (stage s))])
               (seq 0 (length args)) /\
    (args = [] -> s' = s)).
  2:{ destruct Hr as (s' & -> & H1 & H2). cbn [fst snd].
      split; [reflexivity |]. split; [reflexivity |].
      split; [exact H1 | exact H2]. }
  subst r. unfold calibrate_stage_from_stagepos.
  unfold bind at 1, get at 1. unfold bind at 1.
  destruct args as [| a args].
  - cbn [range_loop]. unfold ret at 1. cbn [correlate].
    unfold bind at 1, ret at 1. unfold bind at 1, lift at 1.
    cbn [get_outlier_filter]. exists s. cbn [length seq flat_map].
    rewrite app_nil_r. repeat split.
  - destruct (range_loop_run d (mode s) (magnification s)
                (fst (stage s)) (snd (stage s)) (a :: args) 0 [] [] s)
      as (pairs & s1 & Hrun & Hlen & _ & _ & _ & Hev).
    { destruct (stage s); reflexivity. }
    rewrite (planned_shifts_single _ Hall) in Hlen, Hrun.
    destruct pairs as [| p pairs]; [| discriminate Hlen].
    rewrite <- surjective_pairing in Hrun. rewrite Hrun. cbn [app].
    cbn [correlate]. unfold bind at 1, ret at 1. unfold bind at 1, lift at 1.
    cbn [get_outlier_filter]. exists s1.
    split; [reflexivity |]. split; [| discriminate].
    rewrite Hev, (sweep_events_single _ _ _ _ 0 Hall). reflexivity.
Qed.

Lemma n_step_pure (step stage_length : R) (min_n_step max_n_step : Z)
    (s : ctrl) :
  exists r, n_step step stage_length min_n_step max_n_step s = (r, s).
Proof.
  unfold n_step. destruct (Rltb _ _).
  - eexists. reflexivity.
  - unfold bind, lift, ret. destruct (int_floordiv _ _); eexists; reflexivity.
Qed.

Lemma from_stagepos_no_directory (a : Z * vec) (args : list (Z * vec))
    (plot : bool) (s : ctrl) :
  calibrate_stage_from_stagepos (a :: args) plot None s = (inl TypeError, s).
Proof.
  unfold calibrate_stage_from_stagepos. destruct a as [n step].
  unfold bind at 1, get at 1. unfold bind at 1. cbn [range_loop].
  unfold bind at 1, getImage, write, raise. reflexivity.
Qed.

Lemma guarded_steps_no_directory (m : string) (g : Z) (overlap : R)
    (stage_length min_n_step max_n_step : Z) (plot : bool) (s : ctrl) :
  exists e,
    (pixelsize <- match calibration_pixelsize m g with
                  | Some p => ret p
                  | None => raise KeyError
                  end ;;
     if Reqb pixelsize 1 || Reqb pixelsize 0 then
       raise (ValueError (MsgInvalidPixelsize m g pixelsize))
     else
       let displacement := (fst camera_dimensions * pixelsize,
                            snd camera_dimensions * pixelsize) in
       let x_step := fst displacement * (1 - overlap) in
       let y_step := snd displacement * (1 - overlap) in
       n_x_step <- n_step x_step (IZR stage_length) min_n_step max_n_step ;;
       n_y_step <- n_step y_step (IZR stage_length) min_n_step max_n_step ;;
       let args := [(n_x_step, (x_step, 0)); (n_y_step, (0, y_step))] in
       calibrate_stage_from_stagepos args plot None) s
    = (inl e, s).
Proof.
  unfold bind at 1.
  destruct (calibration_pixelsize m g) as [p |];
    [| eexists; reflexivity].
  unfold ret at 1.
  destruct (Reqb p 1 || Reqb p 0); [eexists; reflexivity |].
  cbv zeta. unfold bind at 1.
  match goal with
  | |- context [n_step ?a ?b ?c ?d s] =>
      destruct (n_step_pure a b c d s) as [[e | nx] ->]
  end; [eexists; reflexivity |].
  unfold bind at 1.
  match goal with
  | |- context [n_step ?a ?b ?c ?d s] =>
      destruct (n_step_pure a b c d s) as [[e | ny] ->]
  end; [eexists; reflexivity |].
  rewrite from_stagepos_no_directory. eexists; reflexivity.
Qed.

(** X9. With the module as it is ([write = False]) every image is read
    from the directory [drc]; called without one, [calibrate_stage] cannot
    succeed: whatever the arguments and the configuration, it raises, and
    it does so before the stage is moved or an image is taken; the only
    commands it may have issued are the selection of mode and
    magnification. *)
Theorem calibrate_stage_needs_directory (mode : option string)
    (mag : option Z) (overlap : R) (stage_length min_n_step max_n_step : Z)
    (plot : bool) (s : ctrl) :
  exists e,
    calibrate_stage mode mag overlap stage_length min_n_step max_n_step
                    plot None s
    = (inl e, selected mode mag s).
Proof.
  unfold calibrate_stage, selected.
  destruct mode as [m |], mag as [g |];
    try (unfold bind at 1, get at 1; unfold ret at 1;
         apply guarded_steps_no_directory).
  destruct (truthy_mode (Some m) && truthy_mag (Some g)).
  - unfold bind at 1. unfold bind at 1, set_mode at 1.
    unfold bind at 1, set_magnification at 1. unfold ret at 1.
    cbn [mode magnification stage events stdout].
    rewrite <- app_assoc. apply guarded_steps_no_directory.
  - unfold bind at 1, get at 1. unfold ret at 1.
    apply guarded_steps_no_directory.
Qed.

(** ** What reaches the fit *)










End Calibration.

(** ** A concrete microscope: two uncalibrated low magnifications

    Images carry no information here ([unit]); at 100x the configured
    pixel size is the uncalibrated 1.0, at 200x it is zero, and at 1000x
    in [mag1] it is 1.0 again. *)

Definition demo_pixelsize (mode : string) (mag : Z) : option R :=
  if Z.eqb mag 100 then Some 1
  else if Z.eqb mag 200 then Some 0
  else if Z.eqb mag 1000 then Some 1
  else None.

Definition demo_ranges : list (string * list Z) :=
  [("lowmag"%string, [100; 200]%Z); ("mag1"%string, [1000]%Z)].

Definition demo_ctrl : ctrl := mkCtrl "mag1" 2500 (0, 0) [] [].

Definition demo_calibrate_stage :=
  calibrate_stage unit (2048, 2048) demo_pixelsize (fun _ => tt) 1
    (fun _ _ _ => tt) (fun img _ _ => img) (fun _ _ => ((0, 0), 0, 0))
    (fun _ _ => inl FitError).

Definition demo_calibrate_stage_all :=
  calibrate_stage_all unit (2048, 2048) demo_pixelsize [] (fun _ => tt) 1
    (fun _ _ _ => tt) (fun img _ _ => img) (fun _ _ => ((0, 0), 0, 0))
    (fun _ _ => inl FitError) (fun x => x) (fun stem => stem).

Lemma calibrate_stage_fails_fast_witness :
  exists s',
    demo_calibrate_stage (Some "lowmag"%string) (Some 100%Z) (1 / 2) 40000 3 15
                         false (Some "work"%string) demo_ctrl =
    (inl (ValueError (MsgInvalidPixelsize "lowmag" 100 1)), s') /\
    stage s' = stage demo_ctrl /\
    stdout s' = stdout demo_ctrl /\
    exists evs, events s' = events demo_ctrl ++ evs /\ quiet evs = true.
Proof.
  exact (calibrate_stage_fails_fast unit (2048, 2048) demo_pixelsize
           (fun _ => tt) 1 (fun _ _ _ => tt) (fun img _ _ => img)
           (fun _ _ => ((0, 0), 0, 0)) (fun _ _ => inl FitError)
           (Some "lowmag"%string) (Some 100%Z) (1 / 2) 40000 3 15
           false (Some "work"%string) demo_ctrl 1
           eq_refl (or_introl eq_refl)).
Defined.

Lemma calibrate_stage_all_raises_NameError_witness :
  exists s',
    demo_calibrate_stage_all (Some demo_ranges) (4 / 5) 40000 5 9 false
                             demo_ctrl = (inl (NameError "drcs"), s') /\
    mode s' = mode demo_ctrl /\
    magnification s' = magnification demo_ctrl /\
    stage s' = stage demo_ctrl /\
    stdout s' = stdout demo_ctrl /\
    events s' = events demo_ctrl ++ [].
Proof.
  refine (calibrate_stage_all_raises_NameError
            unit (2048, 2048) demo_pixelsize [] (fun _ => tt) 1
            (fun _ _ _ => tt) (fun img _ _ => img)
            (fun _ _ => ((0, 0), 0, 0)) (fun _ _ => inl FitError)
            (fun x => x) (fun stem => stem)
            (Some demo_ranges) (4 / 5) 40000%Z 5%Z 9%Z false
            [100; 200]%Z [1000]%Z demo_ctrl _ _ _).
  - reflexivity.
  - reflexivity.
  - discriminate.
Defined.

(** ** Mean and deviation of a constant sequence *)


Lemma INR_length_pos {A : Type} (l : list A) : l <> [] -> 0 < INR (length l).
Proof.
  destruct l as [| a l]; [congruence |]. intros _.
  apply lt_0_INR. simpl. lia.
Qed.




Lemma fdiv_regular (a b : R) : b <> 0 -> fdiv a b = Fin (a / b).
Proof.
  intros Hb. unfold fdiv.
  destruct (Req_dec_T b 0) as [E | _]; [contradiction | reflexivity].
Qed.

Lemma fdiv_zero_divisor (a : R) : flt (fabs (fdiv a 0)) = fun _ => false.
Proof.
  unfold fdiv. destruct (Req_dec_T 0 0) as [_ | N]; [| contradiction].
  destruct (Req_dec_T a 0); [reflexivity |].
  destruct (Rlt_dec 0 a); reflexivity.
Qed.







Section EqualNorms.

Variable image : Type.
Variable cam_getImage : vec -> image.
Variable cam_binning : R.
Variable read_tiff : path -> nat -> nat -> image.
Variable rotate_image : image -> string -> Z -> image.
Variable register_translation : image -> image -> vec * R * R.
Variable fit_affine_transformation : list vec -> list vec -> exc + (mat * vec).


End EqualNorms.




(** ** Which samples the filter keeps *)

Lemma selection_unfold (data : list vec) (threshold : R) :
  map (fun z => flt (fabs z) threshold) (zscore (map norm data)) =
  map (fun v => flt (fabs (fdiv (norm v - mean (map norm data))
                                (std (map norm data)))) threshold) data.
Proof. unfold zscore. rewrite !map_map. reflexivity. Qed.

(** C4 (amended). On a non-empty sequence the filter answers with one
    boolean per sample; a sample is kept exactly when the z-score of its
    Euclidean norm is defined and its absolute value is strictly below the
    threshold, so a sample whose absolute z-score equals the threshold, or
    whose z-score is undefined, is rejected; the number of rejected samples
    is printed when it is not zero. *)
Theorem outlier_filter_keeps_strictly_below
    (data : list vec) (threshold : R) :
  data <> [] ->
  exists sel,
    get_outlier_filter data threshold =
      inr (sel, if all_true sel then [] else [MsgFiltered (count_false sel)]) /\
    length sel = length data /\
    forall k v, nth_error data k = Some v ->
      exists b, nth_error sel k = Some b /\
        (b = true <->
         std (map norm data) <> 0 /\
         Rabs ((norm v - mean (map norm data)) / std (map norm data))
           < threshold).
Proof.
  intros Hne.
  exists (map (fun z => flt (fabs z) threshold) (zscore (map norm data))).
  split; [| split].
  - unfold get_outlier_filter. destruct data as [| v data]; [congruence |].
    destruct (all_true _); reflexivity.
  - unfold zscore. rewrite !length_map. reflexivity.
  - intros k v Hk. rewrite selection_unfold, nth_error_map, Hk. simpl.
    eexists. split; [reflexivity |].
    destruct (Req_dec_T (std (map norm data)) 0) as [E | N].
    + rewrite E, fdiv_zero_divisor. split; [discriminate |].
      intros [H _]. contradiction.
    + rewrite (fdiv_regular _ _ N). simpl. rewrite Rltb_true. tauto.
Qed.

Lemma outlier_filter_keeps_strictly_below_witness :
  exists sel,
    get_outlier_filter [(3, 4); (6, 8)] default_threshold =
      inr (sel, if all_true sel then [] else [MsgFiltered (count_false sel)]) /\
    length sel = 2%nat.
Proof.
  destruct (outlier_filter_keeps_strictly_below [(3, 4); (6, 8)]
              default_threshold ltac:(discriminate)) as (sel & H1 & H2 & _).
  exists sel. split; [exact H1 | exact H2].
Defined.

(** ** A sample exactly at the threshold *)

Definition boundary_data : list vec := [(3, 4); (3, 4); (3, 4); (3, 4); (6, 8)].

Lemma norm_3_4 : norm (3, 4) = 5.
Proof.
  unfold norm; simpl. replace (3 * 3 + 4 * 4) with (5 * 5) by lra.
  apply sqrt_square. lra.
Qed.

Lemma norm_6_8 : norm (6, 8) = 10.
Proof.
  unfold norm; simpl. replace (6 * 6 + 8 * 8) with (10 * 10) by lra.
  apply sqrt_square. lra.
Qed.

Lemma boundary_norms : map norm boundary_data = [5; 5; 5; 5; 10].
Proof. unfold boundary_data; simpl. rewrite norm_3_4, norm_6_8. reflexivity. Qed.

Lemma boundary_mean : mean [5; 5; 5; 5; 10] = 6.
Proof. unfold mean, sum; simpl. lra. Qed.

Lemma boundary_std : std [5; 5; 5; 5; 10] = 2.
Proof.
  unfold std. rewrite boundary_mean. unfold mean, sum; simpl.
  replace (((5 - 6) * (5 - 6) +
            ((5 - 6) * (5 - 6) +
             ((5 - 6) * (5 - 6) +
              ((5 - 6) * (5 - 6) + ((10 - 6) * (10 - 6) + 0))))) /
           (1 + 1 + 1 + 1 + 1)) with (2 * 2) by lra.
  apply sqrt_square. lra.
Qed.

Lemma boundary_zscore :
  zscore (map norm boundary_data) =
  [Fin (- (1 / 2)); Fin (- (1 / 2)); Fin (- (1 / 2)); Fin (- (1 / 2)); Fin 2].
Proof.
  rewrite boundary_norms. unfold zscore.
  rewrite boundary_mean, boundary_std. simpl.
  rewrite !fdiv_regular by lra.
  repeat (f_equal; try lra).
Qed.

Lemma boundary_selection :
  get_outlier_filter boundary_data default_threshold =
    inr ([true; true; true; true; false], [MsgFiltered 1]).
Proof.
  unfold get_outlier_filter.
  change boundary_data with ((3, 4) :: tl boundary_data) at 1.
  cbv iota. rewrite boundary_zscore. simpl map.
  assert (Hin : Rltb (Rabs (- (1 / 2))) default_threshold = true).
  { apply Rltb_true. unfold default_threshold.
    rewrite Rabs_Ropp, Rabs_pos_eq; lra. }
  assert (Hout : Rltb (Rabs 2) default_threshold = false).
  { apply Rltb_false. unfold default_threshold. rewrite Rabs_pos_eq; lra. }
  rewrite Hin, Hout. reflexivity.
Qed.

(** C4 as stated fails: it would keep every sample whose absolute z-score
    does not exceed the threshold.  In [boundary_data] the last sample has
    z-score exactly 2, which does not exceed the default threshold 2, and
    the filter rejects it. *)
Lemma outlier_filter_rejects_at_threshold :
  ~ (forall (data : list vec) (threshold : R) sel out k z,
       get_outlier_filter data threshold = inr (sel, out) ->
       nth_error (zscore (map norm data)) k = Some (Fin z) ->
       (nth_error sel k = Some false <-> Rabs z > threshold)).
Proof.
  intros H.
  specialize (H boundary_data default_threshold _ _ 4%nat 2 boundary_selection).
  rewrite boundary_zscore in H. specialize (H eq_refl).
  destruct H as [H _]. specialize (H eq_refl).
  unfold default_threshold in H. rewrite Rabs_pos_eq in H; lra.
Qed.

(** ** Witnesses for the walk and the step count *)

Definition demo_from_stagepos :=
  calibrate_stage_from_stagepos unit (fun _ => tt) 1
    (fun _ _ _ => tt) (fun img _ _ => img) (fun _ _ => ((0, 0), 0, 0))
    (fun _ _ => inl FitError).

Lemma n_step_within_bounds_witness :
  0 < 1024 /\ (3 <= 15)%Z /\
  exists n, n_step 1024 40000 3 15 demo_ctrl = (inr n, demo_ctrl) /\
            (3 <= n <= 15)%Z.
Proof.
  split; [lra |]. split; [lia |].
  destruct (n_step_within_bounds 1024 40000 3 15 demo_ctrl
              ltac:(lra) ltac:(lia)) as (n & H1 & H2 & _).
  exists n. split; [exact H1 | exact H2].
Defined.

Lemma single_step_ranges_raise_AxisError_witness :
  Forall (fun a : Z * vec => (fst a <= 1)%Z) [(1%Z, (512, 0)); (0%Z, (0, 512))] /\
  fst (demo_from_stagepos [(1%Z, (512, 0)); (0%Z, (0, 512))] false
         (Some "work"%string) demo_ctrl) = inl AxisError.
Proof.
  assert (H : Forall (fun a : Z * vec => (fst a <= 1)%Z)
                     [(1%Z, (512, 0)); (0%Z, (0, 512))]).
  { apply Forall_cons; [simpl; lia |]. apply Forall_cons; [simpl; lia |].
    apply Forall_nil. }
  split; [exact H |].
  exact (proj1 (single_step_ranges_raise_AxisError unit (fun _ => tt) 1
                  (fun _ _ _ => tt) (fun img _ _ => img)
                  (fun _ _ => ((0, 0), 0, 0)) (fun _ _ => inl FitError)
                  [(1%Z, (512, 0)); (0%Z, (0, 512))] false "work"%string
                  demo_ctrl H)).
Defined.

(** ** The filter does not depend on the unit of the samples *)

Definition scale (k : R) (v : vec) : vec := (k * fst v, k * snd v).

Lemma norm_scale (k : R) (v : vec) : norm (scale k v) = Rabs k * norm v.
Proof.
  unfold norm, scale. cbn [fst snd].
  replace (k * fst v * (k * fst v) + k * snd v * (k * snd v))
    with (Rsqr k * (fst v * fst v + snd v * snd v)) by (unfold Rsqr; ring).
  rewrite sqrt_mult_alt by apply Rle_0_sqr.
  rewrite sqrt_Rsqr_abs. reflexivity.
Qed.

Lemma sum_scale (c : R) (l : list R) : sum (map (Rmult c) l) = c * sum l.
Proof.
  induction l as [| x l IH].
  - simpl. ring.
  - change (sum (map (Rmult c) (x :: l))) with (c * x + sum (map (Rmult c) l)).
    change (sum (x :: l)) with (x + sum l). rewrite IH. ring.
Qed.

Lemma mean_scale (c : R) (l : list R) : mean (map (Rmult c) l) = c * mean l.
Proof.
  unfold mean. rewrite sum_scale, length_map. unfold Rdiv. ring.
Qed.

Lemma std_scale (c : R) (l : list R) :
  0 <= c -> std (map (Rmult c) l) = c * std l.
Proof.
  intros Hc. unfold std. rewrite mean_scale, map_map.
  rewrite (map_ext (fun x => (c * x - c * mean l) * (c * x - c * mean l))
                   (fun x => Rsqr c * ((x - mean l) * (x - mean l))))
    by (intros x; unfold Rsqr; ring).
  rewrite <- (map_map (fun x => (x - mean l) * (x - mean l)) (Rmult (Rsqr c))).
  rewrite mean_scale, sqrt_mult_alt by apply Rle_0_sqr.
  rewrite sqrt_Rsqr by exact Hc. reflexivity.
Qed.

Lemma fdiv_scale (c a b : R) : 0 < c -> fdiv (c * a) (c * b) = fdiv a b.
Proof.
  intros Hc. unfold fdiv.
  destruct (Req_dec_T b 0) as [Eb | Nb].
  - destruct (Req_dec_T (c * b) 0) as [_ | N]; [| subst b; lra].
    destruct (Req_dec_T a 0) as [Ea | Na].
    + destruct (Req_dec_T (c * a) 0) as [_ | N]; [reflexivity | subst a; lra].
    + destruct (Req_dec_T (c * a) 0) as [E | _]; [nra |].
      destruct (Rlt_dec 0 a), (Rlt_dec 0 (c * a)); try reflexivity; nra.
  - destruct (Req_dec_T (c * b) 0) as [E | _]; [nra |].
    f_equal. field. split; lra.
Qed.

Lemma zscore_scale (c : R) (l : list R) :
  0 < c -> zscore (map (Rmult c) l) = zscore l.
Proof.
  intros Hc. unfold zscore.
  rewrite mean_scale, std_scale, map_map by lra.
  apply map_ext. intros x.
  replace (c * x - c * mean l) with (c * (x - mean l)) by ring.
  apply fdiv_scale. exact Hc.
Qed.

(** X10. The selection does not depend on the unit in which the samples
    are given: multiplying every sample by the same non-zero factor (a
    change of binning or of sign included) gives the same booleans and the
    same printed line.  (Floats idealised as reals.) *)
Theorem outlier_filter_scale_invariant (k : R) (data : list vec)
    (threshold : R) :
  k <> 0 ->
  get_outlier_filter (map (scale k) data) threshold
  = get_outlier_filter data threshold.
Proof.
  intros Hk. unfold get_outlier_filter.
  destruct data as [| v data]; [reflexivity |].
  assert (Hn : map norm (map (scale k) (v :: data))
               = map (Rmult (Rabs k)) (map norm (v :: data))).
  { rewrite !map_map. apply map_ext. intros w. apply norm_scale. }
  change (map (scale k) (v :: data)) with (scale k v :: map (scale k) data).
  cbv zeta.
  change (scale k v :: map (scale k) data) with (map (scale k) (v :: data)).
  rewrite Hn, zscore_scale by (apply Rabs_pos_lt; exact Hk).
  reflexivity.
Qed.

Lemma outlier_filter_scale_invariant_witness :
  2 <> 0 /\
  get_outlier_filter (map (scale 2) boundary_data) default_threshold
  = get_outlier_filter boundary_data default_threshold.
Proof.
  split; [lra |].
  apply (outlier_filter_scale_invariant 2 boundary_data default_threshold).
  lra.
Defined.

(** ** How many samples the filter can reject *)

Lemma count_false_cons (b : bool) (sel : list bool) :
  count_false (b :: sel) = ((if b then 0 else 1) + count_false sel)%nat.
Proof.
  unfold count_false. pose proof (filter_length_le (fun b => b) sel) as Hle.
  destruct b; cbn [filter length]; lia.
Qed.

Lemma sum_squares_nonneg (m : R) (l : list R) :
  0 <= sum (map (fun x => (x - m) * (x - m)) l).
Proof.
  induction l as [| x l IH].
  - simpl. lra.
  - change (0 <= (x - m) * (x - m)
                 + sum (map (fun x => (x - m) * (x - m)) l)).
    pose proof (Rle_0_sqr (x - m)) as Hx. unfold Rsqr in Hx. lra.
Qed.

(** Every rejected sample contributes at least [(t * s)^2] to the sum of
    squared deviations. *)
Lemma rejected_weight (m s t : R) (l : list R) :
  0 < s -> 0 < t ->
  INR (count_false (map (fun x => flt (fabs (fdiv (x - m) s)) t) l))
    * (t * t * (s * s))
  <= sum (map (fun x => (x - m) * (x - m)) l).
Proof.
  intros Hs Ht. induction l as [| x l IH].
  - simpl. lra.
  - cbn [map]. rewrite count_false_cons, plus_INR.
    change (sum ((x - m) * (x - m)
                 :: map (fun x => (x - m) * (x - m)) l))
      with ((x - m) * (x - m) + sum (map (fun x => (x - m) * (x - m)) l)).
    rewrite (fdiv_regular _ _ (Rgt_not_eq _ _ Hs)). cbn [fabs flt].
    destruct (Rltb (Rabs ((x - m) / s)) t) eqn:Hb.
    + pose proof (Rle_0_sqr (x - m)) as Hx. unfold Rsqr in Hx.
      simpl INR. lra.
    + apply Rltb_false in Hb.
      assert (Hsq : t * t * (s * s) <= (x - m) * (x - m)).
      { assert (Hd : (x - m) * (x - m)
                     = Rabs ((x - m) / s) * Rabs ((x - m) / s) * (s * s)).
        { rewrite <- Rabs_mult, Rabs_pos_eq
            by (pose proof (Rle_0_sqr ((x - m) / s)) as Hq;
                unfold Rsqr in Hq; exact Hq).
          field. lra. }
        rewrite Hd. apply Rmult_le_compat_r; [nra |].
        pose proof (Rabs_pos ((x - m) / s)). nra. }
      simpl INR. lra.
Qed.

Lemma sum_squares_std (l : list R) :
  l <> [] ->
  sum (map (fun x => (x - mean l) * (x - mean l)) l)
  = INR (length l) * (std l * std l).
Proof.
  intros Hne. unfold std. rewrite sqrt_sqrt.
  - unfold mean at 3. rewrite length_map.
    pose proof (INR_length_pos l Hne). field. lra.
  - unfold mean at 1. rewrite length_map.
    apply Rmult_le_pos; [apply sum_squares_nonneg |].
    left. apply Rinv_0_lt_compat. apply INR_length_pos. exact Hne.
Qed.

(** X11. Unless the norms have no spread, the filter rejects at most
    [n / threshold^2] of [n] samples (Chebyshev's bound on the z-scores),
    so at the default threshold 2 never more than a quarter of them.
    (When the norms have no spread it rejects all of them.) *)
Theorem outlier_filter_rejects_at_most (data : list vec) (threshold : R) :
  std (map norm data) <> 0 -> 0 < threshold ->
  exists sel out,
    get_outlier_filter data threshold = inr (sel, out) /\
    INR (count_false sel) * (threshold * threshold) <= INR (length data).
Proof.
  intros Hstd Ht.
  assert (Hne : data <> []).
  { intros ->. apply Hstd. unfold std, mean. simpl.
    unfold Rdiv. rewrite Rmult_0_l. exact sqrt_0. }
  assert (Hs : 0 < std (map norm data)).
  { destruct (sqrt_pos (mean (map (fun x => (x - mean (map norm data))
                                           * (x - mean (map norm data)))
                                  (map norm data)))) as [H | H].
    - exact H.
    - exfalso. apply Hstd. unfold std. symmetry. exact H. }
  destruct data as [| v data]; [congruence |].
  unfold get_outlier_filter. eexists _, _. split; [reflexivity |].
  set (xs := map norm (v :: data)) in *.
  assert (Hxs : xs <> []) by (subst xs; discriminate).
  unfold zscore. rewrite map_map.
  pose proof (rejected_weight (mean xs) (std xs) threshold xs Hs Ht) as Hw.
  rewrite (sum_squares_std xs Hxs) in Hw.
  replace (length (v :: data)) with (length xs)
    by (subst xs; apply length_map).
  apply (Rmult_le_reg_r (std xs * std xs)); [nra |].
  lra.
Qed.

Lemma outlier_filter_rejects_at_most_witness :
  std (map norm boundary_data) <> 0 /\ 0 < default_threshold /\
  exists sel out,
    get_outlier_filter boundary_data default_threshold = inr (sel, out) /\
    INR (count_false sel) * (default_threshold * default_threshold)
      <= INR (length boundary_data).
Proof.
  assert (H1 : std (map norm boundary_data) <> 0)
    by (rewrite boundary_norms, boundary_std; lra).
  assert (H2 : 0 < default_threshold) by (unfold default_threshold; lra).
  split; [exact H1 |]. split; [exact H2 |].
  exact (outlier_filter_rejects_at_most boundary_data default_threshold H1 H2).
Defined.

End StageMatrix.

(* ================================================================== *)
(** * experiments/cred/experiment.py : the acquisition loop            *)
(* ================================================================== *)

Module Cred.

Local Open Scope Z_scope.

(** ** Data *)

(** An image is a 2-d array of counts, a header an opaque tag. *)
Definition image : Type := list (list Z).
Definition header : Type := nat.

(** An entry [(i, img, h)] of [buffer] or [image_buffer]. *)
Definition frame : Type := (Z * image * header)%type.

Definition frame_index (f : frame) : Z := fst (fst f).

(** What [find_holes] reports for one feature. *)
Record region : Type := mkRegion {
  weighted_centroid : Q * Q;       (* (cy, cx) *)
  bbox : Z * Z * Z * Z             (* (y1, x1, y2, x2) *)
}.

Record qmat : Type := QMat { t00 : Q; t01 : Q; t10 : Q; t11 : Q }.

(** [np.matmul(m, v)]: the matrix times the column vector. *)
Definition matmul (m : qmat) (v : Q * Q) : Q * Q :=
  (t00 m * fst v + t01 m * snd v, t10 m * fst v + t11 m * snd v)%Q.

(** Python's [int] on a float: truncation towards zero. *)
Definition int (q : Q) : Z := Z.quot (Qnum q) (Z.pos (Qden q)).

(** [l[a:b]] with Python's treatment of negative and overlong bounds. *)
Definition clamp_index (n k : Z) : Z :=
  if k <? 0 then Z.max (k + n) 0 else Z.min k n.

Definition py_slice {A : Type} (a b : Z) (l : list A) : list A :=
  let n := Z.of_nat (length l) in
  let a' := clamp_index n a in
  let b' := clamp_index n b in
  firstn (Z.to_nat (b' - a')) (skipn (Z.to_nat a') l).

(** [img[a1:b1, a2:b2]]. *)
Definition crop (a1 b1 a2 b2 : Z) (img : image) : image :=
  map (py_slice a2 b2) (py_slice a1 b1 img).

(** [img.shape] of a rectangular image. *)
Definition shape (img : image) : nat * nat :=
  (length img, match img with [] => 0%nat | row :: _ => length row end).

(** degrees to rotate before activating data collection procedure *)
Definition ACTIVATION_THRESHOLD : Q := 2 # 10.

(** ** What the function says and does to the outside *)

Inductive message : Type :=
| MsgImageShiftDone            (* ImageShift calibration done. *)
| MsgStarted                   (* Data recording started at: .. *)
| MsgSavingPath                (* Data saving path: .. *)
| MsgExposure (expt : Q)       (* Data collection exposure time: .. s *)
| MsgSpotSize                  (* Data collection spot size: .. *)
| MsgAutoActivated             (* Auto tracking-back mode activated. .. *)
| MsgNoCalibration             (* No calibration result found. .. *)
| MsgFindClearArea             (* Find a clear area, toggle the beam .. *)
| MsgBeamShiftDone             (* Beam shift calibration done. *)
| MsgBeamShift (x y : Q)       (* print bs_x0, bs_y0 *)
| MsgCroppedSize (sh : nat * nat)  (* Cropped image size: .. *)
| MsgSeparatedCrystal          (* Please find another nicely SEPARATED crystal for autotracking. *)
| MsgRecordingStarted          (* Data Recording started. *)
| MsgUnblanking                (* Unblanking beam *)
| MsgBlanking                  (* Blanking beam *)
| MsgMode (mode : string)      (* print self.mode *)
| MsgSavedToImageBuffer (i : Z)    (* {} saved to image_buffer *)
| MsgSavedToBuffer (i : Z)     (* {} saved to buffer *)
| MsgCrystalPos (cy cx : Q)    (* crystal_pos: {} by find_hole. *)
| MsgTwoApertures              (* At least two apertures found!! Exitting auto mode... *)
| MsgCrossCorrelation (cc : Q * Q)   (* Cross correlation result: {} *)
| MsgBeamShiftCoord (d : Q * Q)      (* Beam shift coordinates: {} *)
| MsgRotated (span a b : Q)    (* Rotated .. degrees from .. to .. *)
| MsgCameraLength (l : Z)      (* Data collection camera length: {} mm *)
| MsgCollectedFromTo (a b : Q) (* Data collected from {} degree to {} degree. *)
| MsgOscillation (osangle : Q) (* Oscillation angle: {} *)
| MsgPixelSizeUpdated          (* Pixel size and actual camera length updated .. *)
| MsgXDSCreated                (* XDS INP file created. *)
| MsgDone.                     (* Data Collection and Conversion Done. *)

(** The arguments of [ImgConversion.ImgConversion(..)]. *)
Record conversion : Type := mkConversion {
  conv_buffer : list (Z * image * header);
  conv_camera_length : Z;
  conv_osangle : Q;
  conv_startangle : Q;
  conv_endangle : Q;
  conv_rotation_angle : Q;
  conv_acquisition_time : Q
}.

Inductive event : Type :=
| Print (m : message)
| Log (m : message)                (* self.logger.info / self.logger.debug *)
| MakeDirs                         (* os.makedirs *)
| RawInput                         (* raw_input(..) *)
| SetImageShift (x y : Q)          (* ctrl.imageshift.set *)
| CalibrateBeamshift               (* calibrate_beamshift(ctrl) *)
| SetDiffFocus (v : Q)             (* ctrl.difffocus.value = v *)
| GetImage (exposure : Q)          (* ctrl.getImage(exposure, ..) *)
| SetBeamShift (x y : Q)           (* ctrl.beamshift.set *)
| SetBeamBlank (b : bool)          (* ctrl.beamblank = b *)
| CamBlock                         (* ctrl.cam.block() *)
| CamUnblock                       (* ctrl.cam.unblock() *)
| Sleep                            (* time.sleep(0.001) *)
| WriteRunLog (startangle endangle expt : Q) (camera_length : Z)
              (osangle : Q) (number_of_frames : nat)      (* cRED_log.txt *)
| Convert (c : conversion)         (* ImgConversion and its five writers *)
| WriteTrackingTiff (i : Z).       (* write_tiff(tiff_image/{i:05d}.tiff) *)

(** The locals that only the auto block binds. *)
Record track : Type := mkTrack {
  diff_focus_proper : Q;
  diff_focus_defocused : Q;
  bs_x0 : Q;
  bs_y0 : Q;
  crystal_pos : Q * Q;
  window_size : Z;
  img0_cropped : image
}.

Record state : Type := mkState {
  difffocus : Q;  (* ctrl.difffocus.value *)
  beamshift : Q * Q;  (* ctrl.beamshift *)
  imageshift : Q * Q;  (* ctrl.imageshift *)
  n_time : nat;  (* readings of time.time() taken so far *)
  n_stop : nat;  (* polls of stopEvent.is_set() so far *)
  n_shot : nat;  (* images taken so far *)
  n_angle : nat;  (* readings of ctrl.stageposition.a so far *)
  n_input : nat;  (* lines read by raw_input so far *)
  trace : list event;  (* commands and printed lines, oldest first *)
  i : Z;  (* the frame counter *)
  buffer : list frame;  (* diffraction frames *)
  image_buffer : list frame;  (* tracking frames *)
  tracking : option track;  (* the locals of the auto block, unbound otherwise *)
  calib_beamshift : option qmat;  (* self.calib_beamshift, when set *)
  startangle : option Q;  (* self.startangle *)
  endangle : option Q  (* self.endangle *)
}.

Definition with_difffocus (v : Q) (s : state) : state :=
  mkState v (beamshift s) (imageshift s) (n_time s) (n_stop s) (n_shot s)
    (n_angle s) (n_input s) (trace s) (i s) (buffer s) (image_buffer s)
    (tracking s) (calib_beamshift s) (startangle s) (endangle s).

Definition with_beamshift (v : Q * Q) (s : state) : state :=
  mkState (difffocus s) v (imageshift s) (n_time s) (n_stop s) (n_shot s)
    (n_angle s) (n_input s) (trace s) (i s) (buffer s) (image_buffer s)
    (tracking s) (calib_beamshift s) (startangle s) (endangle s).

Definition with_imageshift (v : Q * Q) (s : state) : state :=
  mkState (difffocus s) (beamshift s) v (n_time s) (n_stop s) (n_shot s)
    (n_angle s) (n_input s) (trace s) (i s) (buffer s) (image_buffer s)
    (tracking s) (calib_beamshift s) (startangle s) (endangle s).

Definition with_n_time (v : nat) (s : state) : state :=
  mkState (difffocus s) (beamshift s) (imageshift s) v (n_stop s) (n_shot s)
    (n_angle s) (n_input s) (trace s) (i s) (buffer s) (image_buffer s)
    (tracking s) (calib_beamshift s) (startangle s) (endangle s).

Definition with_n_stop (v : nat) (s : state) : state :=
  mkState (difffocus s) (beamshift s) (imageshift s) (n_time s) v (n_shot s)
    (n_angle s) (n_input s) (trace s) (i s) (buffer s) (image_buffer s)
    (tracking s) (calib_beamshift s) (startangle s) (endangle s).

Definition with_n_shot (v : nat) (s : state) : state :=
  mkState (difffocus s) (beamshift s) (imageshift s) (n_time s) (n_stop s) v
    (n_angle s) (n_input s) (trace s) (i s) (buffer s) (image_buffer s)
    (tracking s) (calib_beamshift s) (startangle s) (endangle s).

Definition with_n_angle (v : nat) (s : state) : state :=
  mkState (difffocus s) (beamshift s) (imageshift s) (n_time s) (n_stop s)
    (n_shot s) v (n_input s) (trace s) (i s) (buffer s) (image_buffer s)
    (tracking s) (calib_beamshift s) (startangle s) (endangle s).

Definition with_n_input (v : nat) (s : state) : state :=
  mkState (difffocus s) (beamshift s) (imageshift s) (n_time s) (n_stop s)
    (n_shot s) (n_angle s) v (trace s) (i s) (buffer s) (image_buffer s)
    (tracking s) (calib_beamshift s) (startangle s) (endangle s).

Definition with_trace (v : list event) (s : state) : state :=
  mkState (difffocus s) (beamshift s) (imageshift s) (n_time s) (n_stop s)
    (n_shot s) (n_angle s) (n_input s) v (i s) (buffer s) (image_buffer s)
    (tracking s) (calib_beamshift s) (startangle s) (endangle s).

Definition with_i (v : Z) (s : state) : state :=
  mkState (difffocus s) (beamshift s) (imageshift s) (n_time s) (n_stop s)
    (n_shot s) (n_angle s) (n_input s) (trace s) v (buffer s)
    (image_buffer s) (tracking s) (calib_beamshift s) (startangle s)
    (endangle s).

Definition with_buffer (v : list frame) (s : state) : state :=
  mkState (difffocus s) (beamshift s) (imageshift s) (n_time s) (n_stop s)
    (n_shot s) (n_angle s) (n_input s) (trace s) (i s) v (image_buffer s)
    (tracking s) (calib_beamshift s) (startangle s) (endangle s).

Definition with_image_buffer (v : list frame) (s : state) : state :=
  mkState (difffocus s) (beamshift s) (imageshift s) (n_time s) (n_stop s)
    (n_shot s) (n_angle s) (n_input s) (trace s) (i s) (buffer s) v
    (tracking s) (calib_beamshift s) (startangle s) (endangle s).

Definition with_tracking (v : option track) (s : state) : state :=
  mkState (difffocus s) (beamshift s) (imageshift s) (n_time s) (n_stop s)
    (n_shot s) (n_angle s) (n_input s) (trace s) (i s) (buffer s)
    (image_buffer s) v (calib_beamshift s) (startangle s) (endangle s).

Definition with_calib_beamshift (v : option qmat) (s : state) : state :=
  mkState (difffocus s) (beamshift s) (imageshift s) (n_time s) (n_stop s)
    (n_shot s) (n_angle s) (n_input s) (trace s) (i s) (buffer s)
    (image_buffer s) (tracking s) v (startangle s) (endangle s).

Definition with_startangle (v : option Q) (s : state) : state :=
  mkState (difffocus s) (beamshift s) (imageshift s) (n_time s) (n_stop s)
    (n_shot s) (n_angle s) (n_input s) (trace s) (i s) (buffer s)
    (image_buffer s) (tracking s) (calib_beamshift s) v (endangle s).

Definition with_endangle (v : option Q) (s : state) : state :=
  mkState (difffocus s) (beamshift s) (imageshift s) (n_time s) (n_stop s)
    (n_shot s) (n_angle s) (n_input s) (trace s) (i s) (buffer s)
    (image_buffer s) (tracking s) (calib_beamshift s) (startangle s) v.

(** The fields of the [Experiment] object that [start_collection] reads. *)
Record experiment : Type := mkExperiment {
  expt : Q;
  unblank_beam : bool;
  camtype : string;
  diff_defocus : Q;
  image_interval : Z;
  mode : string
}.

(** [Experiment.__init__], [enable_image_interval], [enable_autotrack]. *)
Definition init (expt : Q) (unblank_beam : bool) (camtype : string)
  : experiment :=
  mkExperiment expt unblank_beam camtype 0 99999 "initial".

Definition enable_image_interval (self : experiment) (interval : Z)
    (defocus : Q) : experiment :=
  mkExperiment (expt self) (unblank_beam self) (camtype self) defocus
               interval "manual".

Definition enable_autotrack (self : experiment) (interval : Z)
    (defocus : Q) : experiment :=
  mkExperiment (expt self) (unblank_beam self) (camtype self) defocus
               interval "auto".

(** Everything the function obtains from its collaborators. *)
Record world : Type := mkWorld {
  time_at : nat -> Q;                 (* the n-th reading of time.time() *)
  stop_at : nat -> bool;              (* the n-th poll of stopEvent.is_set() *)
  shot_at : nat -> image * header;    (* the n-th image of ctrl.getImage *)
  angle_at : nat -> Q;                (* the n-th reading of ctrl.stageposition.a *)
  input_at : nat -> string;           (* the n-th line typed at a prompt *)
  find_holes : image -> list region;
  register_translation : image -> image -> (Q * Q) * Q * Q;
  cross_correlate : image -> image -> Q * Q;
  fit_affine_transformation : list (Q * Q) -> list (Q * Q) -> qmat * (Q * Q);
  calib_from_file : option qmat;      (* CalibBeamShift.from_file(), None for IOError *)
  random_random : Q;                  (* np.random.random() *)
  magnification_get : Q;              (* ctrl.magnification.get() *)
  camera_rotation_vs_stage_xy : Q     (* config.microscope.camera_rotation_vs_stage_xy *)
}.

Inductive exc : Type :=
| ZeroDivisionError
| UnboundLocalError
| AttributeError.

(** ** A monad for state, exceptions and bounded loops *)

Inductive result (A : Type) : Type :=
| Done (a : A) (s : state)
| Raised (e : exc) (s : state)
| OutOfFuel (s : state).

Arguments Done {A} a s.
Arguments Raised {A} e s.
Arguments OutOfFuel {A} s.

(** The state a run has reached, however it ended. *)
Definition final {A : Type} (r : result A) : state :=
  match r with
  | Done _ s | Raised _ s | OutOfFuel s => s
  end.

Definition M (A : Type) : Type := state -> result A.

Definition ret {A : Type} (a : A) : M A := fun s => Done a s.

Definition raise {A : Type} (e : exc) : M A := fun s => Raised e s.

Definition out_of_fuel {A : Type} : M A := fun s => OutOfFuel s.

Definition bind {A B : Type} (m : M A) (k : A -> M B) : M B :=
  fun s =>
    match m s with
    | Done a s' => k a s'
    | Raised e s' => Raised e s'
    | OutOfFuel s' => OutOfFuel s'
    end.

Declare Scope cred_scope.
Delimit Scope cred_scope with cred.
Notation "x <- m ;; k" := (bind m (fun x => k))
  (at level 61, m at next level, right associativity) : cred_scope.
Notation "m ;;; k" := (bind m (fun _ => k))
  (at level 61, right associativity) : cred_scope.
Local Open Scope cred_scope.

Definition get : M state := fun s => Done s s.

Definition modify (f : state -> state) : M unit := fun s => Done tt (f s).

Definition emit (e : event) : M unit :=
  modify (fun s => with_trace (trace s ++ [e]) s).

Definition Qltb (a b : Q) : bool := negb (Qle_bool b a).

(** Python's [a / b] on floats. *)
Definition fdiv (a b : Q) : M Q :=
  if Qeq_bool b 0 then raise ZeroDivisionError else ret (a / b)%Q.

(** Python's [a % b] on ints. *)
Definition imod (a b : Z) : M Z :=
  if b =? 0 then raise ZeroDivisionError else ret (a mod b).

Inductive ctl : Type :=
| Next        (* the body ran to its end *)
| Break.      (* the body left the loop *)

Section Session.

Variable w : world.
Variable self : experiment.

(** *** Collaborator calls *)

Definition time : M Q :=
  fun s => Done (time_at w (n_time s)) (with_n_time (S (n_time s)) s).

Definition is_set : M bool :=
  fun s => Done (stop_at w (n_stop s)) (with_n_stop (S (n_stop s)) s).

Definition stageposition_a : M Q :=
  fun s => Done (angle_at w (n_angle s)) (with_n_angle (S (n_angle s)) s).

Definition raw_input : M string :=
  fun s => Done (input_at w (n_input s))
                (with_n_input (S (n_input s))
                   (with_trace (trace s ++ [RawInput]) s)).

Definition getImage (exposure : Q) : M (image * header) :=
  fun s => Done (shot_at w (n_shot s))
                (with_n_shot (S (n_shot s))
                   (with_trace (trace s ++ [GetImage exposure]) s)).

Definition set_difffocus (v : Q) : M unit :=
  modify (fun s => with_difffocus v (with_trace (trace s ++ [SetDiffFocus v]) s)).

Definition beamshift_set (x y : Q) : M unit :=
  modify (fun s => with_beamshift (x, y)
                     (with_trace (trace s ++ [SetBeamShift x y]) s)).

Definition imageshift_set (x y : Q) : M unit :=
  modify (fun s => with_imageshift (x, y)
                     (with_trace (trace s ++ [SetImageShift x y]) s)).

(** *** [Calibrate_Imageshift] *)

(** The body of the two nested [for] loops, over the pairs [(i, j)]. *)
Fixpoint imageshift_grid (x0 y0 : Q) (img_cent : image) (ij : list (Z * Z))
    (shifts imgpos : list (Q * Q)) : M (list (Q * Q) * list (Q * Q)) :=
  match ij with
  | [] => ret (shifts, imgpos)
  | (i, j) :: ij' =>
      let x := (x0 + inject_Z ((i - 2) * 2500))%Q in
      let y := (y0 + inject_Z ((j - 2) * 2500))%Q in
      imageshift_set x y ;;;
      imgh <- getImage (1 # 10) ;;
      let shift := cross_correlate w img_cent (fst imgh) in
      imageshift_grid x0 y0 img_cent ij' (shifts ++ [shift]) (imgpos ++ [(x, y)])
  end.

Definition grid_5x5 : list (Z * Z) :=
  flat_map (fun i => map (fun j => (i, j)) [0; 1; 2; 3; 4]) [0; 1; 2; 3; 4].

Definition Calibrate_Imageshift : M qmat :=
  s <- get ;;
  let x0 := fst (imageshift s) in
  let y0 := snd (imageshift s) in
  cent <- getImage (1 # 10) ;;
  _ <- raw_input ;;
  acc <- imageshift_grid x0 y0 (fst cent) grid_5x5 [] [] ;;
  imageshift_set x0 y0 ;;;
  let r := fst (fit_affine_transformation w (fst acc) (snd acc)) in
  emit (Print MsgImageShiftDone) ;;;
  ret r.

(** *** The auto block before the recording *)

(** [while calib_file == "x"]: calibrate the beam shift until the operator
    accepts.  The result of [calibrate_beamshift] is not kept. *)
Fixpoint recalibrate (fuel : nat) (calib_file : string) : M unit :=
  if String.eqb calib_file "x" then
    match fuel with
    | O => out_of_fuel
    | S fuel' =>
        emit (Print MsgFindClearArea) ;;;
        emit CalibrateBeamshift ;;;
        emit (Print MsgBeamShiftDone) ;;;
        answer <- raw_input ;;
        recalibrate fuel' answer
    end
  else ret tt.

(** The side of the crop window, from the bounding box of the feature. *)
Definition window_of (box : Z * Z * Z * Z) : Z :=
  let '(y1, x1, y2, x2) := box in
  let d_SA := y2 - y1 in
  let window_size := int (inject_Z d_SA / (1414 # 1000)) in
  if window_size mod 2 =? 1 then window_size + 1 else window_size.

(** The bounds [(a1, b1, a2, b2)] of the window around [crystal_pos];
    [window_size/2] is the integer division of Python 2. *)
Definition window_bounds (crystal_pos : Q * Q) (window_size : Z)
  : Z * Z * Z * Z :=
  let half := inject_Z (window_size / 2) in
  let a1 := int (fst crystal_pos - half) in
  let b1 := int (fst crystal_pos + half) in
  let a2 := int (snd crystal_pos - half) in
  let b2 := int (snd crystal_pos + half) in
  (a1, b1, a2, b2).

Definition crop_around (crystal_pos : Q * Q) (window_size : Z) (img : image)
  : image :=
  let '(a1, b1, a2, b2) := window_bounds crystal_pos window_size in
  crop a1 b1 a2 b2 img.

(** The first half of the auto block: the image-shift calibration and the
    loading of the beam-shift calibration. *)
Definition prepare_auto (fuel : nat) : M unit :=
  emit (Print MsgAutoActivated) ;;;
  transform_imgshift <- Calibrate_Imageshift ;;
  match calib_from_file w with
  | Some c => modify (with_calib_beamshift (Some c))
  | None =>
      emit (Print MsgNoCalibration) ;;;
      recalibrate fuel "x"
  end.

(** The second half: the defocused reference image and the crop around
    its single feature; [true] when the function goes on, [false] when it
    has returned [None]. *)
Definition reference_image : M bool :=
  s <- get ;;
  let diff_focus_proper := difffocus s in
  let diff_focus_defocused := diff_defocus self in
  set_difffocus diff_focus_defocused ;;;
  img0h <- getImage (expt self / 5) ;;
  let img0 := fst img0h in
  set_difffocus diff_focus_proper ;;;
  s <- get ;;
  let bs_x0 := fst (beamshift s) in
  let bs_y0 := snd (beamshift s) in
  emit (Print (MsgBeamShift bs_x0 bs_y0)) ;;;
  let aperture_position := find_holes w img0 in
  match aperture_position with
  | [prop] =>
      let crystal_pos := weighted_centroid prop in
      let window_size := window_of (bbox prop) in
      let img0_cropped := crop_around crystal_pos window_size img0 in
      emit (Log (MsgCroppedSize (shape img0_cropped))) ;;;
      modify (with_tracking
                (Some (mkTrack diff_focus_proper diff_focus_defocused
                               bs_x0 bs_y0 crystal_pos window_size
                               img0_cropped))) ;;;
      ret true
  | _ =>
      emit (Print MsgSeparatedCrystal) ;;;
      ret false
  end.

Definition auto_setup (fuel : nat) : M bool :=
  prepare_auto fuel ;;; reference_image.

(** *** Waiting for the rotation to start *)

Fixpoint wait_for_rotation (fuel : nat) (a a0 : Q) : M Q :=
  if Qltb (Qabs (a - a0)) ACTIVATION_THRESHOLD then
    match fuel with
    | O => out_of_fuel
    | S fuel' =>
        a' <- stageposition_a ;;
        if Qltb ACTIVATION_THRESHOLD (Qabs (a' - a0)) then ret a'
        else wait_for_rotation fuel' a' a0
    end
  else ret a.

(** *** The recording loop *)

(** The locals of the auto block; reading one of them when the block did
    not run raises [UnboundLocalError]. *)
Definition local_tracking : M track :=
  s <- get ;;
  match tracking s with
  | Some tr => ret tr
  | None => raise UnboundLocalError
  end.

Definition incr_i : M unit := modify (fun s => with_i (i s + 1) s).

(** [while time.time() > next_interval: next_interval += acquisition_time;
    i += 1]; returns the final [next_interval]. *)
Fixpoint skip_frames (fuel : nat) (next_interval acquisition_time : Q) : M Q :=
  match fuel with
  | O => out_of_fuel
  | S fuel' =>
      now <- time ;;
      if Qltb next_interval now then
        incr_i ;;;
        skip_frames fuel' (next_interval + acquisition_time)%Q acquisition_time
      else ret next_interval
  end.

(** [while time.time() < next_interval: time.sleep(0.001)]. *)
Fixpoint wait_until (fuel : nat) (next_interval : Q) : M unit :=
  match fuel with
  | O => out_of_fuel
  | S fuel' =>
      now <- time ;;
      if Qltb now next_interval then emit Sleep ;;; wait_until fuel' next_interval
      else ret tt
  end.

(** The timing at the end of a tracking turn. *)
Definition pace (fuel : nat) (t_start acquisition_time : Q) : M unit :=
  let next_interval := (t_start + acquisition_time)%Q in
  t <- time ;;
  next_interval <- skip_frames fuel next_interval acquisition_time ;;
  wait_until fuel next_interval.

(** A tracking image: defocus, expose for [exposure], refocus, and append
    to [image_buffer]. *)
Definition capture_tracking (exposure : Q) : M image :=
  tr <- local_tracking ;;
  set_difffocus (diff_focus_defocused tr) ;;;
  imgh <- getImage exposure ;;
  tr <- local_tracking ;;
  set_difffocus (diff_focus_proper tr) ;;;
  modify (fun s => with_image_buffer
                     (image_buffer s ++ [(i s, fst imgh, snd imgh)]) s) ;;;
  ret (fst imgh).

(** A diffraction image at the configured exposure, appended to [buffer]. *)
Definition capture_diffraction : M unit :=
  imgh <- getImage (expt self) ;;
  modify (fun s => with_buffer (buffer s ++ [(i s, fst imgh, snd imgh)]) s).

(** One turn of [while not self.stopEvent.is_set()]. *)
Definition loop_body (fuel : nat) (t0 : Q) : M ctl :=
  s <- get ;;
  if String.eqb (mode self) "auto" then
    r <- imod (i s) (image_interval self) ;;
    if r =? 0 then
      t_start <- time ;;
      acquisition_time <- fdiv (t_start - t0) (inject_Z (i s - 1)) ;;
      img <- capture_tracking (expt self / 10) ;;
      emit (Print (MsgSavedToImageBuffer (i s))) ;;;
      let aperture_position := find_holes w img in
      match aperture_position with
      | [prop] =>
          tr <- local_tracking ;;
          let crystal_pos := weighted_centroid prop in
          let img_cropped := crop_around crystal_pos (window_size tr) img in
          modify (with_tracking
                    (Some (mkTrack (diff_focus_proper tr)
                                   (diff_focus_defocused tr) (bs_x0 tr)
                                   (bs_y0 tr) crystal_pos (window_size tr)
                                   (img0_cropped tr)))) ;;;
          emit (Log (MsgCrystalPos (fst crystal_pos) (snd crystal_pos))) ;;;
          let '(cc, err, diffphase) :=
            register_translation w (img0_cropped tr) img_cropped in
          emit (Log (MsgCrossCorrelation cc)) ;;;
          s1 <- get ;;
          match calib_beamshift s1 with
          | None => raise AttributeError
          | Some transform =>
              let delta_beamshiftcoord := matmul transform cc in
              emit (Log (MsgBeamShiftCoord delta_beamshiftcoord)) ;;;
              let x := (bs_x0 tr + fst delta_beamshiftcoord)%Q in
              let y := (bs_y0 tr + snd delta_beamshiftcoord)%Q in
              beamshift_set x y ;;;
              modify (with_tracking
                        (Some (mkTrack (diff_focus_proper tr)
                                       (diff_focus_defocused tr) x y
                                       crystal_pos (window_size tr)
                                       (img0_cropped tr)))) ;;;
              pace fuel t_start acquisition_time ;;;
              incr_i ;;;
              ret Next
          end
      | _ =>
          emit (Print MsgTwoApertures) ;;;
          ret Break
      end
    else
      capture_diffraction ;;;
      emit (Print (MsgSavedToBuffer (i s))) ;;;
      incr_i ;;;
      ret Next
  else
    r <- imod (i s) (image_interval self) ;;
    if r =? 0 then
      t_start <- time ;;
      acquisition_time <- fdiv (t_start - t0) (inject_Z (i s - 1)) ;;
      img <- capture_tracking (expt self / 5) ;;
      pace fuel t_start acquisition_time ;;;
      incr_i ;;;
      ret Next
    else
      capture_diffraction ;;;
      incr_i ;;;
      ret Next.

Fixpoint recording (fuel turns : nat) (t0 : Q) : M unit :=
  match turns with
  | O => out_of_fuel
  | S turns' =>
      stop <- is_set ;;
      if stop then ret tt
      else
        c <- loop_body fuel t0 ;;
        match c with
        | Break => ret tt
        | Next => recording fuel turns' t0
        end
  end.

(** *** After the loop *)

(** [while len(image_buffer) != 0: i, img, h = image_buffer.pop(0); ..]. *)
Fixpoint write_tracking (frames : list frame) : M unit :=
  match frames with
  | [] => ret tt
  | (idx, img, h) :: rest =>
      modify (fun s => with_i idx (with_image_buffer rest s)) ;;;
      emit (WriteTrackingTiff idx) ;;;
      write_tracking rest
  end.

Definition finish (t0 : Q) : M unit :=
  t1 <- time ;;
  emit CamUnblock ;;;
  s <- get ;;
  start <- match startangle s with
           | Some a => ret a
           | None => raise AttributeError
           end ;;
  ec <- (if String.eqb (camtype self) "simulate" then
           ret ((start + random_random w * 50)%Q, 300)
         else
           a <- stageposition_a ;;
           ret (a, int (magnification_get w))) ;;
  let '(stop, camera_length) := ec in
  modify (with_endangle (Some stop)) ;;;
  (if unblank_beam self then
     emit (Print MsgBlanking) ;;; emit (SetBeamBlank true)
   else ret tt) ;;;
  emit (Print (MsgRotated (Qabs (stop - start)) start stop)) ;;;
  s <- get ;;
  let nframes := i s + 1 in
  osangle <- fdiv (Qabs (stop - start)) (inject_Z nframes) ;;
  acquisition_time <- fdiv (t1 - t0) (inject_Z nframes) ;;
  emit (Log (MsgCameraLength camera_length)) ;;;
  emit (Log (MsgCollectedFromTo start stop)) ;;;
  emit (Log (MsgOscillation osangle)) ;;;
  emit (Log MsgPixelSizeUpdated) ;;;
  emit (WriteRunLog start stop (expt self) camera_length osangle
                    (length (buffer s))) ;;;
  let rotation_angle := camera_rotation_vs_stage_xy w in
  emit (Convert (mkConversion (buffer s) camera_length osangle start stop
                              rotation_angle acquisition_time)) ;;;
  emit (Log MsgXDSCreated) ;;;
  match image_buffer s with
  | [] => ret tt
  | frames => emit MakeDirs ;;; write_tracking frames
  end ;;;
  emit (Print MsgDone).

(** *** [Experiment.start_collection]

    [fuel] bounds every inner [while] loop, [turns] the recording loop. *)
Definition start_collection (fuel turns : nat) : M unit :=
  a0 <- stageposition_a ;;
  emit MakeDirs ;;;
  emit (Log MsgStarted) ;;;
  emit (Log MsgSavingPath) ;;;
  emit (Log (MsgExposure (expt self))) ;;;
  emit (Log MsgSpotSize) ;;;
  modify (fun s => with_buffer [] (with_image_buffer [] s)) ;;;
  go <- (if String.eqb (mode self) "auto" then auto_setup fuel else ret true) ;;
  if negb go then ret tt   (* return None *)
  else
    (if String.eqb (camtype self) "simulate" then
       modify (with_startangle (Some a0))
     else
       a <- wait_for_rotation fuel a0 a0 ;;
       emit (Print MsgRecordingStarted) ;;;
       modify (with_startangle (Some a))) ;;;
    (if unblank_beam self then
       emit (Print MsgUnblanking) ;;; emit (SetBeamBlank false)
     else ret tt) ;;;
    modify (with_i 1) ;;;
    emit (Print (MsgMode (mode self))) ;;;
    emit CamBlock ;;;
    t0 <- time ;;
    recording fuel turns t0 ;;;
    finish t0.

End Session.

(** The composite steps are unfolded on request only. *)
Arguments Calibrate_Imageshift : simpl never.
Arguments imageshift_grid : simpl never.
Arguments recalibrate : simpl never.
Arguments prepare_auto : simpl never.
Arguments reference_image : simpl never.
Arguments auto_setup : simpl never.
Arguments wait_for_rotation : simpl never.
Arguments skip_frames : simpl never.
Arguments wait_until : simpl never.
Arguments pace : simpl never.
Arguments capture_tracking : simpl never.
Arguments capture_diffraction : simpl never.
Arguments loop_body : simpl never.
Arguments recording : simpl never.
Arguments write_tracking : simpl never.
Arguments finish : simpl never.
Arguments start_collection : simpl never.
Arguments crop_around : simpl never.
Arguments window_of : simpl never.

(** The microscope before the session. *)
Definition initial_state (difffocus : Q) (beamshift imageshift : Q * Q)
  : state :=
  mkState difffocus beamshift imageshift 0 0 0 0 0 [] 0 [] [] None None
          None None.

(** ** A simulated session

    A 40x40 detector showing one aperture, a clock that stands still (no
    processing delay), an operator who stops after 22 turns, and a
    beam-shift calibration on file. *)

Definition blank_image : image := repeat (repeat 0 40%nat) 40%nat.

(** The same detector showing a second aperture; the first pixel tells
    the two images apart. *)
Definition double_image : image :=
  (1 :: repeat 0 39%nat) :: repeat (repeat 0 40%nat) 39%nat.

Definition aperture : region := mkRegion (20, 20)%Q (10, 10, 30, 30).

Definition second_aperture : region := mkRegion (5, 5)%Q (2, 2, 8, 8).

Definition detect (img : image) : list region :=
  match img with
  | (1 :: _) :: _ => [aperture; second_aperture]
  | _ => [aperture]
  end.

Definition identity : qmat := QMat 1 0 0 1.

Definition still_world : world :=
  mkWorld (fun _ => 0%Q) (fun n => Nat.leb 22 n) (fun n => (blank_image, n))
          (fun _ => 0%Q) (fun _ => EmptyString) detect
          (fun _ _ => ((0, 0)%Q, 0%Q, 0%Q)) (fun _ _ => (0, 0)%Q)
          (fun _ _ => (identity, (0, 0)%Q)) (Some identity)
          (1 # 2) 250 0.

(** The same session, except that the image of frame 5 (the 32nd image
    taken) shows two apertures. *)
Definition ambiguous_world : world :=
  mkWorld (fun _ => 0%Q) (fun n => Nat.leb 22 n)
          (fun n => if Nat.eqb n 31 then (double_image, n) else (blank_image, n))
          (fun _ => 0%Q) (fun _ => EmptyString) detect
          (fun _ _ => ((0, 0)%Q, 0%Q, 0%Q)) (fun _ _ => (0, 0)%Q)
          (fun _ _ => (identity, (0, 0)%Q)) (Some identity)
          (1 # 2) 250 0.

Definition simulated : experiment := init (1 # 2) false "simulate".

Definition auto5 : experiment := enable_autotrack simulated 5 1500.
Definition auto1 : experiment := enable_autotrack simulated 1 1500.
Definition manual5 : experiment := enable_image_interval simulated 5 1500.

Definition at_rest : state := initial_state 0 (0, 0)%Q (0, 0)%Q.

(** ** Truncation, slices and the crop window *)

Lemma int_nonneg (q : Q) :
  0 <= Qnum q -> int q = Qnum q / Z.pos (Qden q).
Proof. intros H. unfold int. apply Z.quot_div_nonneg; lia. Qed.

Lemma int_plus (q : Q) (k : Z) :
  0 <= Qnum q -> 0 <= k -> int (q + inject_Z k) = int q + k.
Proof.
  intros Hq Hk. destruct q as [n d]. simpl in Hq.
  rewrite !int_nonneg; simpl; try nia.
  rewrite Pos.mul_1_r, Z.mul_1_r. apply Z.div_add. lia.
Qed.

Lemma int_minus (q : Q) (k : Z) :
  (inject_Z k <= q)%Q -> 0 <= k -> int (q - inject_Z k) = int q - k.
Proof.
  intros Hle Hk. destruct q as [n d].
  unfold Qle in Hle. simpl in Hle.
  rewrite !int_nonneg; simpl; try nia.
  rewrite Pos.mul_1_r, Z.mul_1_r.
  replace (n + - k * Z.pos d) with (n + (- k) * Z.pos d) by ring.
  rewrite Z.div_add by lia. ring.
Qed.

Lemma int_lower (q : Q) (k : Z) :
  (inject_Z k <= q)%Q -> 0 <= k -> k <= int q.
Proof.
  intros Hle Hk. destruct q as [n d].
  unfold Qle in Hle. simpl in Hle.
  rewrite int_nonneg; simpl; try nia.
  apply Z.div_le_lower_bound; lia.
Qed.

Lemma int_upper (q : Q) (k : Z) :
  0 <= Qnum q -> (q <= inject_Z k)%Q -> int q <= k.
Proof.
  intros Hq Hle. destruct q as [n d].
  unfold Qle in Hle. simpl in Hle, Hq.
  rewrite int_nonneg; simpl; try nia.
  apply Z.div_le_upper_bound; lia.
Qed.

(** With the window on the non-negative side, its two bounds are exactly
    [2 * half] apart. *)
Lemma window_span (c : Q) (half limit : Z) :
  0 <= half ->
  (inject_Z half <= c)%Q ->
  (c + inject_Z half <= inject_Z limit)%Q ->
  0 <= int (c - inject_Z half) /\
  int (c + inject_Z half) - int (c - inject_Z half) = 2 * half /\
  int (c + inject_Z half) <= limit.
Proof.
  intros Hh Hlo Hhi.
  assert (Hn : 0 <= Qnum c).
  { destruct c as [n d]. unfold Qle in Hlo. simpl in *. nia. }
  rewrite int_minus, int_plus by assumption.
  pose proof (int_lower c half Hlo Hh).
  assert (int (c + inject_Z half) <= limit).
  { apply int_upper; [| exact Hhi].
    destruct c as [n d]. simpl in *. nia. }
  rewrite int_plus in H0 by assumption. lia.
Qed.

Lemma clamp_index_inside (n k : Z) : 0 <= k <= n -> clamp_index n k = k.
Proof.
  intros H. unfold clamp_index.
  destruct (k <? 0) eqn:E; [apply Z.ltb_lt in E; lia | lia].
Qed.

Lemma py_slice_length {A : Type} (a b : Z) (l : list A) :
  0 <= a -> a <= b -> b <= Z.of_nat (length l) ->
  Z.of_nat (length (py_slice a b l)) = b - a.
Proof.
  intros Ha Hab Hb. unfold py_slice.
  rewrite !clamp_index_inside by lia.
  rewrite length_firstn, length_skipn. lia.
Qed.

Lemma In_firstn {A : Type} (x : A) (n : nat) (l : list A) :
  In x (firstn n l) -> In x l.
Proof.
  revert l. induction n as [| n IH]; intros [| y l]; simpl; try tauto.
  intros [H | H]; [left; exact H | right; apply IH; exact H].
Qed.

Lemma In_skipn {A : Type} (x : A) (n : nat) (l : list A) :
  In x (skipn n l) -> In x l.
Proof.
  revert l. induction n as [| n IH]; intros [| y l]; simpl; try tauto.
  intros H. right. apply IH. exact H.
Qed.

Lemma py_slice_incl {A : Type} (a b : Z) (l : list A) (x : A) :
  In x (py_slice a b l) -> In x l.
Proof.
  unfold py_slice. intros H.
  eapply In_skipn. eapply In_firstn. exact H.
Qed.

Lemma crop_shape (a1 b1 a2 b2 : Z) (img : image) (cols : Z) :
  0 <= a1 -> a1 <= b1 -> b1 <= Z.of_nat (length img) ->
  0 <= a2 -> a2 <= b2 -> b2 <= cols ->
  Forall (fun row => Z.of_nat (length row) = cols) img ->
  Z.of_nat (length (crop a1 b1 a2 b2 img)) = b1 - a1 /\
  Forall (fun row => Z.of_nat (length row) = b2 - a2) (crop a1 b1 a2 b2 img).
Proof.
  intros Ha1 Hab1 Hb1 Ha2 Hab2 Hb2 Hrect. unfold crop. split.
  - rewrite length_map. apply py_slice_length; assumption.
  - apply Forall_forall. intros row Hin.
    apply in_map_iff in Hin. destruct Hin as (row0 & <- & Hin0).
    apply py_slice_incl in Hin0.
    rewrite Forall_forall in Hrect. specialize (Hrect row0 Hin0).
    apply py_slice_length; lia.
Qed.

(** The side of the window: the height of the bounding box over 1.414,
    truncated, and moved up by one when that is odd. *)
Lemma window_of_spec (y1 x1 y2 x2 : Z) :
  0 <= y2 - y1 ->
  Z.even (window_of (y1, x1, y2, x2)) = true /\
  1000 * (y2 - y1) - 1414 < 1414 * window_of (y1, x1, y2, x2)
    <= 1000 * (y2 - y1) + 1414.
Proof.
  intros Hh. unfold window_of.
  replace (int (inject_Z (y2 - y1) / (1414 # 1000)))
    with ((y2 - y1) * 1000 / 1414)
    by (unfold int; simpl; symmetry; apply Z.quot_div_nonneg; lia).
  set (t := (y2 - y1) * 1000 / 1414).
  pose proof (Z.div_mod ((y2 - y1) * 1000) 1414 ltac:(lia)) as Hdm.
  pose proof (Z.mod_pos_bound ((y2 - y1) * 1000) 1414 ltac:(lia)) as Hmb.
  fold t in Hdm.
  pose proof (Zmod_even t) as Hev.
  destruct (t mod 2 =? 1) eqn:E.
  - apply Z.eqb_eq in E. split.
    + rewrite Z.even_add. destruct (Z.even t); [lia | reflexivity].
    + lia.
  - apply Z.eqb_neq in E. split.
    + destruct (Z.even t); [reflexivity | lia].
    + lia.
Qed.

(** ** The reference image of the auto block *)

Ltac run_steps :=
  unfold set_difffocus, getImage, beamshift_set, incr_i, time, is_set,
    local_tracking, emit, modify, bind, get, ret, raise; cbn.

Lemma reference_image_single (w : world) (self : experiment) (s : state)
    (prop : region) :
  find_holes w (fst (shot_at w (n_shot s))) = [prop] ->
  exists s',
    reference_image w self s = Done true s' /\
    tracking s' =
      Some (mkTrack (difffocus s) (diff_defocus self)
                    (fst (beamshift s)) (snd (beamshift s))
                    (weighted_centroid prop) (window_of (bbox prop))
                    (crop_around (weighted_centroid prop)
                                 (window_of (bbox prop))
                                 (fst (shot_at w (n_shot s))))) /\
    difffocus s' = difffocus s /\
    beamshift s' = beamshift s /\
    n_shot s' = S (n_shot s) /\
    n_stop s' = n_stop s /\
    buffer s' = buffer s /\
    image_buffer s' = image_buffer s /\
    exists sh,
      trace s' = trace s ++ [SetDiffFocus (diff_defocus self);
                             GetImage (expt self / 5);
                             SetDiffFocus (difffocus s);
                             Print (MsgBeamShift (fst (beamshift s))
                                                 (snd (beamshift s)));
                             Log (MsgCroppedSize sh)].
Proof.
  intros Hone. unfold reference_image. run_steps.
  rewrite Hone. run_steps.
  eexists. split; [reflexivity |]. simpl.
  repeat (split; [reflexivity |]).
  eexists. rewrite <- !app_assoc. reflexivity.
Qed.

Lemma reference_image_other (w : world) (self : experiment) (s : state) :
  (forall prop, find_holes w (fst (shot_at w (n_shot s))) <> [prop]) ->
  exists s',
    reference_image w self s = Done false s' /\
    tracking s' = tracking s /\
    beamshift s' = beamshift s /\
    n_stop s' = n_stop s /\
    n_time s' = n_time s /\
    startangle s' = startangle s /\
    buffer s' = buffer s /\
    image_buffer s' = image_buffer s /\
    trace s' = trace s ++ [SetDiffFocus (diff_defocus self);
                           GetImage (expt self / 5);
                           SetDiffFocus (difffocus s);
                           Print (MsgBeamShift (fst (beamshift s))
                                               (snd (beamshift s)));
                           Print MsgSeparatedCrystal].
Proof.
  intros Hnot. unfold reference_image. run_steps.
  destruct (find_holes w (fst (shot_at w (n_shot s)))) as [| p [| p' l]] eqn:Hf.
  - run_steps. eexists. split; [reflexivity |]. simpl.
    repeat (split; [reflexivity |]).
    rewrite <- !app_assoc. reflexivity.
  - exfalso. apply (Hnot p). reflexivity.
  - run_steps. eexists. split; [reflexivity |]. simpl.
    repeat (split; [reflexivity |]).
    rewrite <- !app_assoc. reflexivity.
Qed.

(** The window as the specification words it: the diagonal of the
    bounding box over the square root of two, rounded up to an even
    integer, that is the least even [w >= 0] with [2 w^2 >= diagonal^2]. *)
Definition diagonal_window (box : Z * Z * Z * Z) : Z :=
  let '(y1, x1, y2, x2) := box in
  let d2 := (y2 - y1) * (y2 - y1) + (x2 - x1) * (x2 - x1) in
  let c := Z.sqrt_up ((d2 + 1) / 2) in
  if Z.even c then c else c + 1.

(** C7 (amended). On the first auto-track invocation with exactly one
    detected feature, the side of the square window is the height
    [y2 - y1] of the bounding box divided by 1.414, truncated to an
    integer and increased by one when that is odd (so it is the even
    integer within one of the quotient); the crop
    [img0[int(cy - side/2) : int(cy + side/2), int(cx - side/2) : int(cx + side/2)]]
    around the centroid is stored as the reference crop, with the centroid
    and the side, and it has [side] rows and [side] columns whenever the
    window lies on the detector. *)
Theorem reference_crop_window (w : world) (self : experiment) (s : state)
    (prop : region) :
  find_holes w (fst (shot_at w (n_shot s))) = [prop] ->
  exists s' tr,
    reference_image w self s = Done true s' /\
    tracking s' = Some tr /\
    crystal_pos tr = weighted_centroid prop /\
    window_size tr = window_of (bbox prop) /\
    img0_cropped tr =
      crop_around (weighted_centroid prop) (window_of (bbox prop))
                  (fst (shot_at w (n_shot s))) /\
    (forall y1 x1 y2 x2,
        bbox prop = (y1, x1, y2, x2) -> 0 <= y2 - y1 ->
        Z.even (window_size tr) = true /\
        1000 * (y2 - y1) - 1414 < 1414 * window_size tr
          <= 1000 * (y2 - y1) + 1414) /\
    (forall cols,
        Forall (fun row => Z.of_nat (length row) = cols)
               (fst (shot_at w (n_shot s))) ->
        0 <= window_size tr ->
        Z.even (window_size tr) = true ->
        (inject_Z (window_size tr / 2) <= fst (weighted_centroid prop))%Q ->
        (fst (weighted_centroid prop) + inject_Z (window_size tr / 2)
           <= inject_Z (Z.of_nat (length (fst (shot_at w (n_shot s))))))%Q ->
        (inject_Z (window_size tr / 2) <= snd (weighted_centroid prop))%Q ->
        (snd (weighted_centroid prop) + inject_Z (window_size tr / 2)
           <= inject_Z cols)%Q ->
        Z.of_nat (length (img0_cropped tr)) = window_size tr /\
        Forall (fun row => Z.of_nat (length row) = window_size tr)
               (img0_cropped tr)).
Proof.
  intros Hone.
  destruct (reference_image_single w self s prop Hone)
    as (s' & Hrun & Htr & _).
  eexists s', _. split; [exact Hrun |]. split; [exact Htr |]. simpl.
  repeat (split; [reflexivity |]). split.
  - intros y1 x1 y2 x2 Hbox Hh. rewrite Hbox. apply window_of_spec. exact Hh.
  - intros cols Hrect Hws Heven Hy1 Hy2 Hx1 Hx2.
    set (ws := window_of (bbox prop)) in *.
    assert (Hhalf : 0 <= ws / 2) by (apply Z.div_pos; lia).
    assert (Hdouble : 2 * (ws / 2) = ws).
    { pose proof (Zmod_even ws) as Hm. rewrite Heven in Hm.
      pose proof (Z.div_mod ws 2 ltac:(lia)). lia. }
    destruct (window_span _ _ _ Hhalf Hy1 Hy2) as (Ha1 & Hd1 & Hb1).
    destruct (window_span _ _ _ Hhalf Hx1 Hx2) as (Ha2 & Hd2 & Hb2).
    unfold crop_around, window_bounds.
    match goal with
    | |- context [crop ?a1 ?b1 ?a2 ?b2 ?img] =>
        destruct (crop_shape a1 b1 a2 b2 img cols) as [HL HF];
          try assumption; try lia
    end.
    split.
    + rewrite HL. lia.
    + eapply Forall_impl; [| exact HF]. intros row Hrow. simpl in Hrow. lia.
Qed.

Lemma blank_image_rectangular :
  Forall (fun row => Z.of_nat (length row) = 40) blank_image.
Proof.
  apply Forall_forall. intros row Hin. unfold blank_image in Hin.
  apply repeat_spec in Hin. subst row. reflexivity.
Qed.

Lemma reference_crop_window_witness :
  find_holes still_world (fst (shot_at still_world (n_shot at_rest)))
    = [aperture] /\
  exists s' tr,
    reference_image still_world auto5 at_rest = Done true s' /\
    tracking s' = Some tr /\
    window_size tr = 14 /\
    Z.of_nat (length (img0_cropped tr)) = 14 /\
    Forall (fun row => Z.of_nat (length row) = 14) (img0_cropped tr).
Proof.
  split; [reflexivity |].
  destruct (reference_crop_window still_world auto5 at_rest aperture eq_refl)
    as (s' & tr & Hrun & Htr & _ & Hw & _ & _ & Hsize).
  assert (Hws : window_size tr = 14) by (rewrite Hw; reflexivity).
  exists s', tr. split; [exact Hrun |]. split; [exact Htr |].
  split; [exact Hws |].
  destruct (Hsize 40) as [HL HF]; rewrite ?Hws.
  - exact blank_image_rectangular.
  - discriminate.
  - reflexivity.
  - discriminate.
  - discriminate.
  - discriminate.
  - discriminate.
  - split.
    + rewrite HL. exact Hws.
    + eapply Forall_impl; [| exact HF].
      intros row Hrow. simpl in Hrow. rewrite Hrow. exact Hws.
Defined.

(** C7 as stated fails: the aperture of the simulated session has the
    bounding box (10, 10, 30, 30), whose diagonal over the square root of
    two is 20; the stored window has side 14. *)
Lemma reference_window_differs_from_diagonal :
  ~ (forall (w : world) (self : experiment) (s s' : state) (prop : region)
            (tr : track),
       find_holes w (fst (shot_at w (n_shot s))) = [prop] ->
       reference_image w self s = Done true s' ->
       tracking s' = Some tr ->
       window_size tr = diagonal_window (bbox prop)).
Proof.
  intros H.
  destruct (reference_image_single still_world auto5 at_rest aperture eq_refl)
    as (s' & Hrun & Htr & _).
  specialize (H still_world auto5 at_rest s' aperture _ eq_refl Hrun Htr).
  simpl in H. vm_compute in H. discriminate H.
Qed.

(** ** What the first half of the auto block leaves alone *)

Definition session_view (s : state) :=
  (difffocus s, beamshift s, n_time s, n_stop s, n_angle s, i s,
   buffer s, image_buffer s, tracking s, startangle s, endangle s).

Lemma imageshift_grid_nil (w : world) (x0 y0 : Q) (img_cent : image)
    (shifts imgpos : list (Q * Q)) :
  imageshift_grid w x0 y0 img_cent [] shifts imgpos = ret (shifts, imgpos).
Proof. reflexivity. Qed.

Lemma imageshift_grid_cons (w : world) (x0 y0 : Q) (img_cent : image)
    (i j : Z) (ij : list (Z * Z)) (shifts imgpos : list (Q * Q)) :
  imageshift_grid w x0 y0 img_cent ((i, j) :: ij) shifts imgpos =
  (let x := (x0 + inject_Z ((i - 2) * 2500))%Q in
   let y := (y0 + inject_Z ((j - 2) * 2500))%Q in
   imageshift_set x y ;;;
   imgh <- getImage w (1 # 10) ;;
   imageshift_grid w x0 y0 img_cent ij
     (shifts ++ [cross_correlate w img_cent (fst imgh)])
     (imgpos ++ [(x, y)])).
Proof. reflexivity. Qed.

Lemma recording_turn (w : world) (self : experiment) (fuel turns : nat)
    (t0 : Q) :
  recording w self fuel (S turns) t0 =
  (stop <- is_set w ;;
   if stop then ret tt
   else
     c <- loop_body w self fuel t0 ;;
     match c with
     | Break => ret tt
     | Next => recording w self fuel turns t0
     end).
Proof. reflexivity. Qed.

Lemma imageshift_grid_frame (w : world) (x0 y0 : Q) (img_cent : image)
    (ij : list (Z * Z)) :
  forall (shifts imgpos : list (Q * Q)) (s : state),
  exists acc s',
    imageshift_grid w x0 y0 img_cent ij shifts imgpos s = Done acc s' /\
    n_shot s' = (length ij + n_shot s)%nat /\
    calib_beamshift s' = calib_beamshift s /\
    session_view s' = session_view s /\
    exists evs, trace s' = trace s ++ evs.
Proof.
  induction ij as [| [i0 j0] ij IH]; intros shifts imgpos s.
  - exists (shifts, imgpos), s. rewrite imageshift_grid_nil. unfold ret.
    repeat (split; [reflexivity |]). exists []. rewrite app_nil_r.
    reflexivity.
  - rewrite imageshift_grid_cons. unfold imageshift_set. run_steps.
    match goal with
    | |- context [imageshift_grid w x0 y0 img_cent ij ?sh ?ip ?st] =>
        destruct (IH sh ip st) as (acc & s' & Hrun & Hn & Hc & Hv & evs & Ht)
    end.
    exists acc, s'. split; [exact Hrun |].
    split; [rewrite Hn; simpl; lia |].
    split; [rewrite Hc; reflexivity |].
    split; [rewrite Hv; reflexivity |].
    eexists. rewrite Ht. simpl. rewrite <- !app_assoc. reflexivity.
Qed.

Lemma Calibrate_Imageshift_frame (w : world) (s : state) :
  exists r s',
    Calibrate_Imageshift w s = Done r s' /\
    n_shot s' = (26 + n_shot s)%nat /\
    calib_beamshift s' = calib_beamshift s /\
    session_view s' = session_view s /\
    exists evs, trace s' = trace s ++ evs.
Proof.
  unfold Calibrate_Imageshift.
  assert (Hlen : length grid_5x5 = 25%nat) by reflexivity.
  revert Hlen. generalize grid_5x5 as ij. intros ij Hlen.
  unfold raw_input. run_steps.
  match goal with
  | |- context [imageshift_grid w ?x0 ?y0 ?img ij ?sh ?ip ?st] =>
      destruct (imageshift_grid_frame w x0 y0 img ij sh ip st)
        as (acc & s1 & Hrun & Hn & Hc & Hv & evs & Ht)
  end.
  rewrite Hrun. unfold imageshift_set. run_steps.
  eexists _, _. split; [reflexivity |]. simpl.
  split; [rewrite Hn, Hlen; reflexivity |].
  split; [rewrite Hc; reflexivity |].
  split; [unfold session_view in *; simpl in *; exact Hv |].
  eexists. rewrite Ht. simpl. rewrite <- !app_assoc. reflexivity.
Qed.

Lemma prepare_auto_frame (w : world) (fuel : nat) (c : qmat) (s : state) :
  calib_from_file w = Some c ->
  exists s',
    prepare_auto w fuel s = Done tt s' /\
    n_shot s' = (26 + n_shot s)%nat /\
    calib_beamshift s' = Some c /\
    session_view s' = session_view s /\
    exists evs, trace s' = trace s ++ evs.
Proof.
  intros Hc. unfold prepare_auto. rewrite Hc. run_steps.
  match goal with
  | |- context [Calibrate_Imageshift w ?st] =>
      destruct (Calibrate_Imageshift_frame w st)
        as (r & s1 & Hrun & Hn & _ & Hv & evs & Ht)
  end.
  rewrite Hrun. eexists. split; [reflexivity |]. simpl.
  split; [exact Hn |]. split; [reflexivity |].
  split; [unfold session_view in *; simpl in *; exact Hv |].
  eexists. rewrite Ht. simpl. rewrite <- !app_assoc. reflexivity.
Qed.

(** ** A tracking frame without a single feature *)

Lemma Qeq_bool_inject_Z (z : Z) : Qeq_bool (inject_Z z) 0 = (z =? 0).
Proof. unfold Qeq_bool. simpl. rewrite Z.mul_1_r. reflexivity. Qed.

Lemma fdiv_counter (q : Q) (z : Z) :
  z <> 1 -> fdiv q (inject_Z (z - 1)) = ret (q / inject_Z (z - 1))%Q.
Proof.
  intros Hz. unfold fdiv. rewrite Qeq_bool_inject_Z.
  destruct (z - 1 =? 0) eqn:E; [apply Z.eqb_eq in E; lia | reflexivity].
Qed.

Lemma imod_regular (a b : Z) : b <> 0 -> imod a b = ret (a mod b).
Proof.
  intros Hb. unfold imod.
  destruct (b =? 0) eqn:E; [apply Z.eqb_eq in E; lia | reflexivity].
Qed.

Lemma loop_body_not_single (w : world) (self : experiment) (fuel : nat)
    (t0 : Q) (s : state) (tr : track) :
  mode self = "auto"%string ->
  image_interval self <> 0 ->
  i s mod image_interval self = 0 ->
  i s <> 1 ->
  tracking s = Some tr ->
  (forall prop, find_holes w (fst (shot_at w (n_shot s))) <> [prop]) ->
  exists s',
    loop_body w self fuel t0 s = Done Break s' /\
    beamshift s' = beamshift s /\
    tracking s' = tracking s /\
    buffer s' = buffer s /\
    image_buffer s' =
      image_buffer s ++ [(i s, fst (shot_at w (n_shot s)),
                          snd (shot_at w (n_shot s)))] /\
    i s' = i s /\
    n_shot s' = S (n_shot s) /\
    n_stop s' = n_stop s /\
    trace s' = trace s ++ [SetDiffFocus (diff_focus_defocused tr);
                           GetImage (expt self / 10);
                           SetDiffFocus (diff_focus_proper tr);
                           Print (MsgSavedToImageBuffer (i s));
                           Print MsgTwoApertures].
Proof.
  intros Hmode Hint Hmod Hi Htr Hnot.
  unfold loop_body. run_steps. rewrite Hmode. simpl.
  rewrite (imod_regular _ _ Hint). run_steps. rewrite Hmod. simpl.
  rewrite (fdiv_counter _ _ Hi). run_steps.
  unfold capture_tracking. run_steps.
  repeat (rewrite Htr; run_steps).
  destruct (find_holes w (fst (shot_at w (n_shot s)))) as [| p [| p' l]] eqn:Hf.
  - run_steps. eexists. split; [reflexivity |]. simpl.
    repeat (split; [first [reflexivity | assumption] |]).
    rewrite <- !app_assoc. reflexivity.
  - exfalso. apply (Hnot p). reflexivity.
  - run_steps. eexists. split; [reflexivity |]. simpl.
    repeat (split; [first [reflexivity | assumption] |]).
    rewrite <- !app_assoc. reflexivity.
Qed.

Lemma start_collection_no_single_feature (w : world) (self : experiment)
    (fuel turns : nat) (s : state) (c : qmat) :
  mode self = "auto"%string ->
  calib_from_file w = Some c ->
  (forall prop,
      find_holes w (fst (shot_at w (26 + n_shot s))) <> [prop]) ->
  exists s',
    start_collection w self fuel turns s = Done tt s' /\
    n_stop s' = n_stop s /\
    n_time s' = n_time s /\
    buffer s' = [] /\
    image_buffer s' = [] /\
    startangle s' = startangle s /\
    exists evs, trace s' = trace s ++ evs ++ [Print MsgSeparatedCrystal].
Proof.
  intros Hmode Hc Hnot.
  unfold start_collection, stageposition_a. run_steps. rewrite Hmode. cbn.
  unfold auto_setup, bind. cbn.
  match goal with
  | |- context [prepare_auto w fuel ?st] =>
      destruct (prepare_auto_frame w fuel c st Hc)
        as (s1 & Hrun & Hn & _ & Hv & evs & Ht)
  end.
  rewrite Hrun. change (n_shot s1 = (26 + n_shot s)%nat) in Hn.
  rewrite <- Hn in Hnot.
  destruct (reference_image_other w self s1 Hnot)
    as (s2 & Hrun2 & _ & _ & Hstop & Htime & Hstart & Hbuf & Himg & Ht2).
  rewrite Hrun2. cbn. eexists. split; [reflexivity |].
  unfold session_view in Hv. cbn in Hv.
  injection Hv as _ _ Hv3 Hv4 _ _ Hv7 Hv8 _ Hv10 _.
  split; [congruence |]. split; [congruence |].
  split; [congruence |]. split; [congruence |]. split; [congruence |].
  cbn in Ht.
  exists ([MakeDirs; Log MsgStarted; Log MsgSavingPath;
           Log (MsgExposure (expt self)); Log MsgSpotSize] ++ evs ++
          [SetDiffFocus (diff_defocus self); GetImage (expt self / 5);
           SetDiffFocus (difffocus s1);
           Print (MsgBeamShift (fst (beamshift s1)) (snd (beamshift s1)))]).
  rewrite Ht2, Ht. rewrite <- !app_assoc. cbn [app]. reflexivity.
Qed.

Lemma recording_not_single (w : world) (self : experiment) (fuel more : nat)
    (t0 : Q) (s : state) (tr : track) :
  mode self = "auto"%string ->
  image_interval self <> 0 ->
  i s mod image_interval self = 0 ->
  i s <> 1 ->
  tracking s = Some tr ->
  (forall prop, find_holes w (fst (shot_at w (n_shot s))) <> [prop]) ->
  stop_at w (n_stop s) = false ->
  exists s',
    recording w self fuel (S more) t0 s = Done tt s' /\
    beamshift s' = beamshift s /\
    tracking s' = Some tr /\
    buffer s' = buffer s /\
    image_buffer s' =
      image_buffer s ++ [(i s, fst (shot_at w (n_shot s)),
                          snd (shot_at w (n_shot s)))] /\
    n_shot s' = S (n_shot s) /\
    n_stop s' = S (n_stop s) /\
    trace s' = trace s ++ [SetDiffFocus (diff_focus_defocused tr);
                           GetImage (expt self / 10);
                           SetDiffFocus (diff_focus_proper tr);
                           Print (MsgSavedToImageBuffer (i s));
                           Print MsgTwoApertures].
Proof.
  intros Hmode Hint Hmod Hi Htr Hnot Hstop.
  rewrite recording_turn. unfold is_set, bind at 1. cbn beta. rewrite Hstop.
  destruct (loop_body_not_single w self fuel t0
              (with_n_stop (S (n_stop s)) s) tr Hmode Hint Hmod Hi Htr Hnot)
    as (s' & Hrun & Hbs & Htr' & Hbuf & Himg & _ & Hshot & Hn & Ht).
  unfold bind. rewrite Hrun. exists s'. split; [reflexivity |].
  simpl in *. repeat (split; [congruence |]). exact Ht.
Qed.

(** C9. In auto mode every detection count other than one takes the
    abort path.  On the reference image (the 27th image of the session,
    after the 26 of the image-shift calibration) the function prints its
    request for a separated crystal and returns: the stop flag is never
    polled, the clock never read, no frame is buffered.  On a tracking
    frame the turn prints its message and breaks out of the loop, having
    taken the tracking image only. *)
Theorem autotrack_aborts_unless_single_feature (w : world)
    (self : experiment) (fuel turns : nat) :
  mode self = "auto"%string ->
  (forall (s : state) (c : qmat),
      calib_from_file w = Some c ->
      (forall prop,
          find_holes w (fst (shot_at w (26 + n_shot s))) <> [prop]) ->
      exists s',
        start_collection w self fuel turns s = Done tt s' /\
        n_stop s' = n_stop s /\
        n_time s' = n_time s /\
        buffer s' = [] /\
        image_buffer s' = [] /\
        startangle s' = startangle s /\
        exists evs,
          trace s' = trace s ++ evs ++ [Print MsgSeparatedCrystal]) /\
  (forall (t0 : Q) (s : state) (tr : track),
      image_interval self <> 0 ->
      i s mod image_interval self = 0 ->
      i s <> 1 ->
      tracking s = Some tr ->
      (forall prop, find_holes w (fst (shot_at w (n_shot s))) <> [prop]) ->
      exists s',
        loop_body w self fuel t0 s = Done Break s' /\
        beamshift s' = beamshift s /\
        tracking s' = tracking s /\
        buffer s' = buffer s /\
        image_buffer s' =
          image_buffer s ++ [(i s, fst (shot_at w (n_shot s)),
                              snd (shot_at w (n_shot s)))] /\
        i s' = i s /\
        n_shot s' = S (n_shot s) /\
        n_stop s' = n_stop s /\
        trace s' = trace s ++ [SetDiffFocus (diff_focus_defocused tr);
                               GetImage (expt self / 10);
                               SetDiffFocus (diff_focus_proper tr);
                               Print (MsgSavedToImageBuffer (i s));
                               Print MsgTwoApertures]).
Proof.
  intros Hmode. split.
  - intros s c Hc Hnot.
    apply (start_collection_no_single_feature w self fuel turns s c);
      assumption.
  - intros t0 s tr Hint Hmod Hi Htr Hnot.
    apply loop_body_not_single; assumption.
Qed.

(** A session whose detector never finds anything. *)
Definition empty_world : world :=
  mkWorld (fun _ => 0%Q) (fun n => Nat.leb 22 n) (fun n => (blank_image, n))
          (fun _ => 0%Q) (fun _ => EmptyString) (fun _ => [])
          (fun _ _ => ((0, 0)%Q, 0%Q, 0%Q)) (fun _ _ => (0, 0)%Q)
          (fun _ _ => (identity, (0, 0)%Q)) (Some identity)
          (1 # 2) 250 0.

(** The state of a session at frame 5, with the reference crop taken. *)
Definition at_frame_5 : state :=
  with_i 5 (with_tracking
              (Some (mkTrack 0 1500 0 0 (20, 20)%Q 14 [])) at_rest).

Lemma autotrack_aborts_unless_single_feature_witness :
  (exists s',
     start_collection empty_world auto5 10 100 at_rest = Done tt s' /\
     n_stop s' = 0%nat /\ buffer s' = [] /\ image_buffer s' = []) /\
  (exists s',
     loop_body empty_world auto5 10 0 at_frame_5 = Done Break s' /\
     beamshift s' = (0, 0)%Q).
Proof.
  destruct (autotrack_aborts_unless_single_feature empty_world auto5 10 100
              eq_refl) as [Hfirst Hlater].
  split.
  - destruct (Hfirst at_rest identity eq_refl ltac:(discriminate))
      as (s' & Hrun & Hstop & _ & Hbuf & Himg & _).
    exists s'. auto.
  - destruct (Hlater 0%Q at_frame_5 (mkTrack 0 1500 0 0 (20, 20)%Q 14 [])
                ltac:(discriminate) eq_refl ltac:(discriminate) eq_refl
                ltac:(discriminate))
      as (s' & Hrun & Hbs & _).
    exists s'. auto.
Defined.

(** C3 (amended). When the detector returns more than one feature on a
    tracking frame in auto mode, the turn prints "At least two apertures
    found!! Exitting auto mode...", sends no beam-shift command and
    leaves the beam shift and the running target as they were, and the
    recording loop ends there although the stop flag is clear: only the
    tracking image has been taken, the diffraction buffer is as before,
    and the function goes on to its finalisation. *)
Theorem ambiguous_tracking_frame_ends_recording (w : world)
    (self : experiment) (fuel more : nat) (t0 : Q) (s : state) (tr : track) :
  mode self = "auto"%string ->
  image_interval self <> 0 ->
  i s mod image_interval self = 0 ->
  i s <> 1 ->
  tracking s = Some tr ->
  (2 <= length (find_holes w (fst (shot_at w (n_shot s)))))%nat ->
  stop_at w (n_stop s) = false ->
  exists s',
    recording w self fuel (S more) t0 s = Done tt s' /\
    beamshift s' = beamshift s /\
    tracking s' = Some tr /\
    buffer s' = buffer s /\
    image_buffer s' =
      image_buffer s ++ [(i s, fst (shot_at w (n_shot s)),
                          snd (shot_at w (n_shot s)))] /\
    n_shot s' = S (n_shot s) /\
    n_stop s' = S (n_stop s) /\
    trace s' = trace s ++ [SetDiffFocus (diff_focus_defocused tr);
                           GetImage (expt self / 10);
                           SetDiffFocus (diff_focus_proper tr);
                           Print (MsgSavedToImageBuffer (i s));
                           Print MsgTwoApertures].
Proof.
  intros Hmode Hint Hmod Hi Htr Hmany Hstop.
  apply recording_not_single; try assumption.
  intros prop Hone. rewrite Hone in Hmany. simpl in Hmany. lia.
Qed.

(** A session at frame 5 whose next image shows two apertures. *)
Definition double_world : world :=
  mkWorld (fun _ => 0%Q) (fun n => Nat.leb 22 n) (fun n => (double_image, n))
          (fun _ => 0%Q) (fun _ => EmptyString) detect
          (fun _ _ => ((0, 0)%Q, 0%Q, 0%Q)) (fun _ _ => (0, 0)%Q)
          (fun _ _ => (identity, (0, 0)%Q)) (Some identity)
          (1 # 2) 250 0.

Lemma ambiguous_tracking_frame_ends_recording_witness :
  exists s',
    recording double_world auto5 10 18 0 at_frame_5 = Done tt s' /\
    beamshift s' = (0, 0)%Q /\
    buffer s' = [] /\
    n_shot s' = 1%nat.
Proof.
  destruct (ambiguous_tracking_frame_ends_recording double_world auto5 10 17
              0%Q at_frame_5 (mkTrack 0 1500 0 0 (20, 20)%Q 14 [])
              eq_refl ltac:(discriminate) eq_refl ltac:(discriminate)
              eq_refl ltac:(simpl; lia) eq_refl)
    as (s' & Hrun & Hbs & _ & Hbuf & _ & Hshot & _).
  exists s'. auto.
Defined.

(** The lines printed during a session. *)
Definition printed (tr : list event) : list message :=
  flat_map (fun e => match e with Print m => [m] | _ => [] end) tr.

(** The conversions handed over during a session. *)
Definition conversions (tr : list event) : list conversion :=
  flat_map (fun e => match e with Convert c => [c] | _ => [] end) tr.

(** The indices of the tracking images written at the end. *)
Definition written (tr : list event) : list Z :=
  flat_map (fun e => match e with WriteTrackingTiff k => [k] | _ => [] end) tr.

(** The exception a run ended with, if any. *)
Definition raised {A : Type} (r : result A) : option exc :=
  match r with
  | Raised e _ => Some e
  | _ => None
  end.

Definition completed {A : Type} (r : result A) : bool :=
  match r with
  | Done _ _ => true
  | _ => false
  end.

(** C3 as stated fails.  In [ambiguous_world] the tracking image of frame 5
    shows two apertures while the stop flag stays clear for 22 polls.  The
    session completes, but the diffraction frames it hands over are those
    of frames 1 to 4: nothing is recorded after the ambiguous frame. *)
Lemma ambiguity_ends_the_acquisition :
  let r := start_collection ambiguous_world auto5 10 100 at_rest in
  completed r = true /\
  stop_at ambiguous_world (n_stop (final r)) = false /\
  printed (trace (final r)) =
    [MsgAutoActivated; MsgImageShiftDone; MsgBeamShift 0 0; MsgMode "auto";
     MsgSavedToBuffer 1; MsgSavedToBuffer 2; MsgSavedToBuffer 3;
     MsgSavedToBuffer 4; MsgSavedToImageBuffer 5; MsgTwoApertures;
     MsgRotated (50 # 2) 0 (50 # 2); MsgDone] /\
  map (fun c => map frame_index (conv_buffer c))
      (conversions (trace (final r))) = [[1; 2; 3; 4]] /\
  ~ (exists f, In f (buffer (final r)) /\ 5 < frame_index f).
Proof.
  assert (Hbuf : map frame_index
                   (buffer (final (start_collection ambiguous_world auto5
                                     10 100 at_rest))) = [1; 2; 3; 4])
    by (vm_compute; reflexivity).
  cbv zeta. split; [vm_compute; reflexivity |].
  split; [vm_compute; reflexivity |].
  split; [vm_compute; reflexivity |].
  split; [vm_compute; reflexivity |].
  intros (f & Hin & Hlt).
  apply (in_map frame_index) in Hin. rewrite Hbuf in Hin.
  simpl in Hin. lia.
Qed.

(** The part of a trace after [ctrl.cam.block()]. *)
Fixpoint after_block (tr : list event) : list event :=
  match tr with
  | [] => []
  | CamBlock :: rest => rest
  | _ :: rest => after_block rest
  end.

(** The focus changes and exposures of a trace. *)
Definition optics (tr : list event) : list event :=
  filter (fun e => match e with
                   | SetDiffFocus _ | GetImage _ => true
                   | _ => false
                   end) tr.

(** ** One turn of the recording loop, in general *)

(** What the timing loops leave alone. *)
Definition frames_view (s : state) :=
  (difffocus s, beamshift s, buffer s, image_buffer s, tracking s,
   n_shot s, n_stop s).

Lemma skip_frames_turn (w : world) (fuel : nat) (next acq : Q) :
  skip_frames w (S fuel) next acq =
  (now <- time w ;;
   if Qltb next now then
     incr_i ;;; skip_frames w fuel (next + acq)%Q acq
   else ret next).
Proof. reflexivity. Qed.

Lemma wait_until_turn (w : world) (fuel : nat) (next : Q) :
  wait_until w (S fuel) next =
  (now <- time w ;;
   if Qltb now next then emit Sleep ;;; wait_until w fuel next
   else ret tt).
Proof. reflexivity. Qed.

Lemma skip_frames_frame (w : world) (fuel : nat) :
  forall (next acq : Q) (s : state),
    frames_view (final (skip_frames w fuel next acq s)) = frames_view s /\
    exists evs, trace (final (skip_frames w fuel next acq s)) = trace s ++ evs.
Proof.
  induction fuel as [| fuel IH]; intros next acq s.
  - split; [reflexivity |]. exists []. rewrite app_nil_r. reflexivity.
  - rewrite skip_frames_turn. run_steps.
    destruct (Qltb next (time_at w (n_time s))).
    + run_steps.
      match goal with
      | |- context [skip_frames w fuel ?n ?a ?st] =>
          destruct (IH n a st) as (Hv & evs & Ht)
      end.
      destruct (skip_frames w fuel _ _ _); cbn in *;
        (split; [exact Hv | exists evs; exact Ht]).
    + cbn. split; [reflexivity |]. exists []. rewrite app_nil_r. reflexivity.
Qed.

Lemma wait_until_frame (w : world) (fuel : nat) :
  forall (next : Q) (s : state),
    frames_view (final (wait_until w fuel next s)) = frames_view s /\
    exists evs, trace (final (wait_until w fuel next s)) = trace s ++ evs.
Proof.
  induction fuel as [| fuel IH]; intros next s.
  - split; [reflexivity |]. exists []. rewrite app_nil_r. reflexivity.
  - rewrite wait_until_turn. run_steps.
    destruct (Qltb (time_at w (n_time s)) next).
    + run_steps.
      match goal with
      | |- context [wait_until w fuel ?n ?st] =>
          destruct (IH n st) as (Hv & evs & Ht)
      end.
      destruct (wait_until w fuel _ _); cbn in *;
        (split; [exact Hv |]); eexists; rewrite Ht, <- app_assoc;
        reflexivity.
    + cbn. split; [reflexivity |]. exists []. rewrite app_nil_r. reflexivity.
Qed.

Lemma pace_frame (w : world) (fuel : nat) (t_start acq : Q) (s : state) :
  frames_view (final (pace w fuel t_start acq s)) = frames_view s /\
  exists evs, trace (final (pace w fuel t_start acq s)) = trace s ++ evs.
Proof.
  unfold pace. run_steps.
  match goal with
  | |- context [skip_frames w fuel ?n ?a ?st] =>
      destruct (skip_frames_frame w fuel n a st) as (Hv & evs & Ht);
        destruct (skip_frames w fuel n a st) as [next s1 | e s1 | s1]
  end; cbn in *; try (split; [exact Hv | exists evs; exact Ht]).
  destruct (wait_until_frame w fuel next s1) as (Hv2 & evs2 & Ht2).
  split; [rewrite Hv2; exact Hv |].
  exists (evs ++ evs2). rewrite Ht2, Ht, <- app_assoc. reflexivity.
Qed.

(** A turn whose counter is not a multiple of the interval records one
    diffraction frame at the configured exposure, in either mode. *)
Lemma loop_body_diffraction (w : world) (self : experiment) (fuel : nat)
    (t0 : Q) (s : state) :
  image_interval self <> 0 ->
  i s mod image_interval self <> 0 ->
  exists s',
    loop_body w self fuel t0 s = Done Next s' /\
    buffer s' = buffer s ++ [(i s, fst (shot_at w (n_shot s)),
                              snd (shot_at w (n_shot s)))] /\
    image_buffer s' = image_buffer s /\
    difffocus s' = difffocus s /\
    beamshift s' = beamshift s /\
    i s' = i s + 1 /\
    optics (trace s') = optics (trace s) ++ [GetImage (expt self)].
Proof.
  intros Hint Hmod. unfold loop_body. run_steps.
  rewrite (imod_regular _ _ Hint). run_steps.
  destruct (i s mod image_interval self =? 0) eqn:E;
    [apply Z.eqb_eq in E; contradiction |].
  unfold optics.
  destruct (String.eqb (mode self) "auto"); unfold capture_diffraction;
    run_steps; eexists; (split; [reflexivity |]); cbn;
    repeat (split; [reflexivity |]);
    rewrite ?filter_app; cbn; rewrite ?app_nil_r; reflexivity.
Qed.

(** In auto mode a turn whose counter is a multiple of the interval takes
    a tracking frame at a tenth of the exposure, between a defocus and a
    refocus, whatever happens in the rest of the turn. *)
Lemma loop_body_tracking (w : world) (self : experiment) (fuel : nat)
    (t0 : Q) (s : state) (tr : track) :
  mode self = "auto"%string ->
  image_interval self <> 0 ->
  i s mod image_interval self = 0 ->
  i s <> 1 ->
  tracking s = Some tr ->
  buffer (final (loop_body w self fuel t0 s)) = buffer s /\
  image_buffer (final (loop_body w self fuel t0 s)) =
    image_buffer s ++ [(i s, fst (shot_at w (n_shot s)),
                        snd (shot_at w (n_shot s)))] /\
  n_shot (final (loop_body w self fuel t0 s)) = S (n_shot s) /\
  exists rest,
    trace (final (loop_body w self fuel t0 s)) =
    trace s ++ [SetDiffFocus (diff_focus_defocused tr);
                GetImage (expt self / 10);
                SetDiffFocus (diff_focus_proper tr)] ++ rest.
Proof.
  intros Hmode Hint Hmod Hi Htr.
  unfold loop_body. run_steps. rewrite Hmode. cbn.
  rewrite (imod_regular _ _ Hint). run_steps. rewrite Hmod. cbn.
  rewrite (fdiv_counter _ _ Hi). run_steps.
  unfold capture_tracking. run_steps.
  repeat (rewrite Htr; run_steps).
  destruct (find_holes w (fst (shot_at w (n_shot s)))) as [| p [| p' l]].
  - run_steps. repeat (split; [reflexivity |]).
    eexists. rewrite <- !app_assoc. cbn [app]. reflexivity.
  - run_steps. repeat (rewrite Htr; run_steps).
    destruct (register_translation w (img0_cropped tr) _) as [[cc err] ph].
    run_steps.
    destruct (calib_beamshift s) as [transform |]; run_steps.
    + match goal with
      | |- context [pace w fuel ?a ?b ?st] =>
          destruct (pace_frame w fuel a b st) as (Hv & evs & Ht);
            destruct (pace w fuel a b st) as [[] s1 | e s1 | s1]
      end; cbn in *; unfold frames_view in Hv; cbn in Hv;
        injection Hv as _ _ Hb Hi' _ Hs _;
        (split; [exact Hb |]); (split; [exact Hi' |]);
        (split; [exact Hs |]);
        eexists; rewrite Ht, <- !app_assoc; cbn [app]; reflexivity.
    + repeat (split; [reflexivity |]).
      eexists. rewrite <- !app_assoc. cbn [app]. reflexivity.
  - run_steps. repeat (split; [reflexivity |]).
    eexists. rewrite <- !app_assoc. cbn [app]. reflexivity.
Qed.

(** Outside auto mode the locals of the auto block are unbound, and such a
    turn raises before it has touched the microscope. *)
Lemma loop_body_manual_tracking (w : world) (self : experiment)
    (fuel : nat) (t0 : Q) (s : state) :
  mode self <> "auto"%string ->
  image_interval self <> 0 ->
  i s mod image_interval self = 0 ->
  i s <> 1 ->
  tracking s = None ->
  loop_body w self fuel t0 s =
    Raised UnboundLocalError (with_n_time (S (n_time s)) s).
Proof.
  intros Hmode Hint Hmod Hi Htr.
  unfold loop_body. run_steps.
  apply String.eqb_neq in Hmode. rewrite Hmode. cbn.
  rewrite (imod_regular _ _ Hint). run_steps. rewrite Hmod. cbn.
  rewrite (fdiv_counter _ _ Hi). run_steps.
  unfold capture_tracking. run_steps. rewrite Htr. reflexivity.
Qed.

(** ** The schedule of a simulated session *)

(** The schedule as the specification words it: at a counter that is a
    multiple of the interval, a tracking frame (defocus, a shorter
    exposure, refocus); otherwise a diffraction frame at the configured
    exposure. *)
Definition scheduled_turn (self : experiment) (proper shorter : Q) (i : Z)
  : list event :=
  if i mod image_interval self =? 0 then
    [SetDiffFocus (diff_defocus self); GetImage shorter; SetDiffFocus proper]
  else [GetImage (expt self)].

Definition counters (n : nat) : list Z := map Z.of_nat (seq 1 n).

(** C2, on a 22-frame session.  With [image_interval = 5], an operator who
    stops after 22 turns and no processing delay, the auto branch follows
    the specified schedule: frames 5, 10, 15 and 20 are tracking frames
    taken at a tenth of the exposure between a defocus and a refocus, the
    other 18 are diffraction frames at the configured exposure.  The same session with
    the interval enabled in manual mode records frames 1 to 4 and then, at
    counter 5, raises [UnboundLocalError] before any tracking frame is
    taken: [diff_focus_defocused] is bound in the auto block only.  And
    the auto session with [image_interval = 1] raises [ZeroDivisionError]
    on its first turn, where the average frame time divides by [i - 1]. *)
Theorem manual_tracking_frame_raises_unbound_local :
  let auto := start_collection still_world auto5 10 100 at_rest in
  let manual := start_collection still_world manual5 10 100 at_rest in
  let every := start_collection still_world auto1 10 100 at_rest in
  (completed auto = true /\
   written (trace (final auto)) = [5; 10; 15; 20] /\
   map (fun c => map frame_index (conv_buffer c))
       (conversions (trace (final auto))) =
     [[1; 2; 3; 4; 6; 7; 8; 9; 11; 12; 13; 14; 16; 17; 18; 19; 21; 22]] /\
   optics (after_block (trace (final auto))) =
     flat_map (scheduled_turn auto5 0 (expt auto5 / 10)) (counters 22)) /\
  (raised manual = Some UnboundLocalError /\
   i (final manual) = 5 /\
   i (final manual) mod image_interval manual5 = 0 /\
   map frame_index (buffer (final manual)) = [1; 2; 3; 4] /\
   image_buffer (final manual) = [] /\
   optics (after_block (trace (final manual))) =
     flat_map (scheduled_turn manual5 0 (expt manual5 / 5)) (counters 4)) /\
  (raised every = Some ZeroDivisionError /\
   i (final every) = 1 /\
   i (final every) mod image_interval auto1 = 0 /\
   image_buffer (final every) = [] /\
   optics (after_block (trace (final every))) = []).
Proof.
  cbv zeta. split; [| split].
  - split; [vm_compute; reflexivity |].
    split; [vm_compute; reflexivity |].
    split; vm_compute; reflexivity.
  - split; [vm_compute; reflexivity |].
    split; [vm_compute; reflexivity |].
    split; [vm_compute; reflexivity |].
    split; [vm_compute; reflexivity |].
    split; vm_compute; reflexivity.
  - split; [vm_compute; reflexivity |].
    split; [vm_compute; reflexivity |].
    split; [vm_compute; reflexivity |].
    split; vm_compute; reflexivity.
Qed.

(** ** The hand-over after the loop *)

Lemma write_tracking_frame (frames : list frame) :
  forall s : state,
  exists s',
    write_tracking frames s = Done tt s' /\
    endangle s' = endangle s /\
    exists evs, trace s' = trace s ++ evs /\ conversions evs = [].
Proof.
  induction frames as [| [[idx img] h] frames IH]; intros s.
  - exists s. split; [reflexivity |]. split; [reflexivity |].
    exists []. rewrite app_nil_r. split; reflexivity.
  - change (write_tracking ((idx, img, h) :: frames))
      with (modify (fun s => with_i idx (with_image_buffer frames s)) ;;;
            emit (WriteTrackingTiff idx) ;;;
            write_tracking frames).
    run_steps.
    match goal with
    | |- context [write_tracking frames ?st] =>
        destruct (IH st) as (s' & Hrun & He & evs & Ht & Hc)
    end.
    exists s'. split; [exact Hrun |]. split; [exact He |].
    exists (WriteTrackingTiff idx :: evs). cbn in Ht.
    rewrite Ht, <- app_assoc. split; [reflexivity | exact Hc].
Qed.

Lemma conversions_app (a b : list event) :
  conversions (a ++ b) = conversions a ++ conversions b.
Proof. unfold conversions. apply flat_map_app. Qed.

(** Whatever the session was, the oscillation angle handed to the
    conversion is the rotation span over the frame counter plus one, next
    to the diffraction buffer, the camera length, the two angles, the
    configured rotation-axis offset and the time per frame. *)
Lemma finish_hands_over (w : world) (self : experiment) (t0 a : Q)
    (s : state) :
  startangle s = Some a ->
  i s + 1 <> 0 ->
  let simulate := String.eqb (camtype self) "simulate" in
  let stop :=
    if simulate then (a + random_random w * 50)%Q
    else angle_at w (n_angle s) in
  let camera_length :=
    if simulate then 300 else int (magnification_get w) in
  exists s',
    finish w self t0 s = Done tt s' /\
    endangle s' = Some stop /\
    conversions (trace s') =
      conversions (trace s) ++
      [mkConversion (buffer s) camera_length
         (Qabs (stop - a) / inject_Z (i s + 1))%Q a stop
         (camera_rotation_vs_stage_xy w)
         ((time_at w (n_time s) - t0) / inject_Z (i s + 1))%Q].
Proof.
  intros Hstart Hi. cbv zeta.
  assert (Hdiv : forall q, fdiv q (inject_Z (i s + 1)) =
                           ret (q / inject_Z (i s + 1))%Q).
  { intros q. unfold fdiv. rewrite Qeq_bool_inject_Z.
    destruct (i s + 1 =? 0) eqn:E; [apply Z.eqb_eq in E; lia | reflexivity]. }
  unfold finish. run_steps. rewrite Hstart. run_steps.
  destruct (String.eqb (camtype self) "simulate");
    unfold stageposition_a; run_steps;
    destruct (unblank_beam self); run_steps;
    rewrite !Hdiv; run_steps;
    (destruct (image_buffer s) as [| f frames] eqn:Hib; run_steps;
     [ eexists; split; [reflexivity |]; cbn; split; [reflexivity |];
       rewrite !conversions_app; cbn; rewrite ?app_nil_r; reflexivity
     | match goal with
       | |- context [write_tracking (f :: frames) ?st] =>
           destruct (write_tracking_frame (f :: frames) st)
             as (s1 & Hrun & He & evs & Ht & Hc)
       end;
       rewrite Hrun; run_steps; cbn in Ht, He;
       eexists; split; [reflexivity |]; cbn; split;
       [ exact He
       | rewrite Ht, !conversions_app, Hc; cbn; rewrite ?app_nil_r;
         reflexivity ] ]).
Qed.

(** C8, on a 22-frame session.  The simulated auto session takes 22 frames
    (18 diffraction frames and 4 tracking frames, none skipped: 49 images
    with the 27 of the set-up), and rotates by 25 degrees.  The oscillation
    angle handed to the conversion is 25/24: the divisor is the frame
    counter plus one, two more than the number of frames. *)
Theorem oscillation_angle_divides_by_counter_plus_one :
  let r := start_collection still_world auto5 10 100 at_rest in
  completed r = true /\
  n_shot (final r) = (27 + 22)%nat /\
  written (trace (final r)) = [5; 10; 15; 20] /\
  exists c,
    conversions (trace (final r)) = [c] /\
    length (conv_buffer c) = 18%nat /\
    (Qabs (conv_endangle c - conv_startangle c) == 25)%Q /\
    (conv_osangle c == Qabs (conv_endangle c - conv_startangle c) / 24)%Q /\
    ~ (conv_osangle c == Qabs (conv_endangle c - conv_startangle c) / 22)%Q.
Proof.
  cbv zeta. split; [vm_compute; reflexivity |].
  split; [vm_compute; reflexivity |].
  split; [vm_compute; reflexivity |].
  eexists. split; [vm_compute; reflexivity |].
  split; [vm_compute; reflexivity |].
  split; [vm_compute; reflexivity |].
  split; [vm_compute; reflexivity |].
  vm_compute. intros H. discriminate H.
Qed.

(** ** Waiting for the rotation *)

Lemma Qltb_true (a b : Q) : Qltb a b = true <-> (a < b)%Q.
Proof.
  unfold Qltb. rewrite negb_true_iff. split.
  - intros H. apply Qnot_le_lt. intros Hle.
    apply Qle_bool_iff in Hle. congruence.
  - intros H. destruct (Qle_bool b a) eqn:E; [| reflexivity].
    apply Qle_bool_iff in E. exfalso. exact (Qlt_not_le _ _ H E).
Qed.

Lemma Qltb_false (a b : Q) : Qltb a b = false <-> (b <= a)%Q.
Proof.
  unfold Qltb. rewrite negb_false_iff. apply Qle_bool_iff.
Qed.

Lemma wait_for_rotation_turn (w : world) (fuel : nat) (a a0 : Q) :
  wait_for_rotation w (S fuel) a a0 =
  (if Qltb (Qabs (a - a0)) ACTIVATION_THRESHOLD then
     a' <- stageposition_a w ;;
     if Qltb ACTIVATION_THRESHOLD (Qabs (a' - a0)) then ret a'
     else wait_for_rotation w fuel a' a0
   else ret a).
Proof. reflexivity. Qed.

Lemma wait_for_rotation_departed (w : world) (fuel : nat) (a a0 : Q) :
  Qltb (Qabs (a - a0)) ACTIVATION_THRESHOLD = false ->
  wait_for_rotation w fuel a a0 = ret a.
Proof.
  intros H. destruct fuel; unfold wait_for_rotation; rewrite H; reflexivity.
Qed.

Lemma wait_for_rotation_run (w : world) (a0 : Q) :
  forall (k fuel : nat) (a : Q) (s : state),
    (Qabs (a - a0) < ACTIVATION_THRESHOLD)%Q ->
    (forall j, (j < k)%nat ->
       (Qabs (angle_at w (n_angle s + j) - a0) < ACTIVATION_THRESHOLD)%Q) ->
    (ACTIVATION_THRESHOLD <= Qabs (angle_at w (n_angle s + k) - a0))%Q ->
    (k < fuel)%nat ->
    wait_for_rotation w fuel a a0 s =
    Done (angle_at w (n_angle s + k)) (with_n_angle (S (n_angle s + k)) s).
Proof.
  induction k as [| k IH]; intros fuel a s Ha Hbefore Hk Hfuel.
  - destruct fuel as [| fuel]; [lia |].
    rewrite wait_for_rotation_turn.
    apply Qltb_true in Ha. rewrite Ha.
    unfold bind at 1, stageposition_a at 1. rewrite Nat.add_0_r in *.
    destruct (Qltb ACTIVATION_THRESHOLD
                   (Qabs (angle_at w (n_angle s) - a0))); [reflexivity |].
    rewrite wait_for_rotation_departed by (apply Qltb_false; exact Hk).
    reflexivity.
  - destruct fuel as [| fuel]; [lia |].
    rewrite wait_for_rotation_turn.
    pose proof Ha as Ha'. apply Qltb_true in Ha'. rewrite Ha'.
    unfold bind at 1, stageposition_a at 1.
    pose proof (Hbefore 0%nat ltac:(lia)) as H0. rewrite Nat.add_0_r in H0.
    assert (Hnot : Qltb ACTIVATION_THRESHOLD
                        (Qabs (angle_at w (n_angle s) - a0)) = false).
    { apply Qltb_false. apply Qlt_le_weak. exact H0. }
    rewrite Hnot.
    rewrite (IH fuel (angle_at w (n_angle s))
                (with_n_angle (S (n_angle s)) s) H0).
    + cbn [n_angle with_n_angle]. rewrite Nat.add_succ_r. reflexivity.
    + intros j Hj. cbn [n_angle with_n_angle].
      replace (S (n_angle s) + j)%nat with (n_angle s + S j)%nat by lia.
      apply Hbefore. lia.
    + cbn [n_angle with_n_angle].
      replace (S (n_angle s) + k)%nat with (n_angle s + S k)%nat by lia.
      exact Hk.
    + lia.
Qed.

(** X12. The wait before the recording ends at the first reading of the
    tilt angle that is at least [ACTIVATION_THRESHOLD] (0.2 degrees) away
    from the initial angle, whether above or exactly at the threshold:
    when the first [k] readings are closer than the threshold and the next
    one is not, the wait takes [k + 1] readings, returns the last one as
    the start angle, and changes nothing else.  At least one reading is
    always taken. *)
Theorem rotation_starts_at_first_departure (w : world) (a0 : Q)
    (k fuel : nat) (s : state) :
  (forall j, (j < k)%nat ->
     (Qabs (angle_at w (n_angle s + j) - a0) < ACTIVATION_THRESHOLD)%Q) ->
  (ACTIVATION_THRESHOLD <= Qabs (angle_at w (n_angle s + k) - a0))%Q ->
  (k < fuel)%nat ->
  wait_for_rotation w fuel a0 a0 s =
    Done (angle_at w (n_angle s + k)) (with_n_angle (S (n_angle s + k)) s) /\
  (ACTIVATION_THRESHOLD <= Qabs (angle_at w (n_angle s + k) - a0))%Q.
Proof.
  intros Hbefore Hk Hfuel. split; [| exact Hk].
  apply wait_for_rotation_run; try assumption.
  setoid_replace (a0 - a0)%Q with 0%Q by ring. reflexivity.
Qed.

(** ** The image-shift calibration *)

(** The image shifts commanded in a trace. *)
Definition imageshifts (tr : list event) : list (Q * Q) :=
  flat_map (fun e => match e with SetImageShift x y => [(x, y)] | _ => [] end)
           tr.

Lemma imageshifts_app (a b : list event) :
  imageshifts (a ++ b) = imageshifts a ++ imageshifts b.
Proof. unfold imageshifts. apply flat_map_app. Qed.

(** The image shift of a grid point. *)
Definition grid_position (x0 y0 : Q) (ij : Z * Z) : Q * Q :=
  ((x0 + inject_Z ((fst ij - 2) * 2500))%Q,
   (y0 + inject_Z ((snd ij - 2) * 2500))%Q).

(** The commands of the grid: a shift and an image per point. *)
Definition grid_events (x0 y0 : Q) (ij : list (Z * Z)) : list event :=
  flat_map (fun p => [SetImageShift (fst (grid_position x0 y0 p))
                                    (snd (grid_position x0 y0 p));
                      GetImage (1 # 10)]) ij.

Lemma imageshifts_grid_events (x0 y0 : Q) (ij : list (Z * Z)) :
  imageshifts (grid_events x0 y0 ij) = map (grid_position x0 y0) ij.
Proof.
  induction ij as [| p ij IH]; [reflexivity |].
  cbn [grid_events flat_map map app]. fold (grid_events x0 y0 ij).
  change (imageshifts (?a :: ?b :: ?l)) with (imageshifts [a; b] ++ imageshifts l).
  rewrite IH. reflexivity.
Qed.

Lemma imageshift_grid_run (w : world) (x0 y0 : Q) (img_cent : image)
    (ij : list (Z * Z)) :
  forall (shifts imgpos : list (Q * Q)) (s : state),
  exists s',
    imageshift_grid w x0 y0 img_cent ij shifts imgpos s
    = Done (shifts ++
            map (fun n => cross_correlate w img_cent
                            (fst (shot_at w (n_shot s + n))))
                (seq 0 (length ij)),
            imgpos ++ map (grid_position x0 y0) ij) s' /\
    n_shot s' = (n_shot s + length ij)%nat /\
    n_input s' = n_input s /\
    calib_beamshift s' = calib_beamshift s /\
    session_view s' = session_view s /\
    trace s' = trace s ++ grid_events x0 y0 ij.
Proof.
  induction ij as [| [i0 j0] ij IH]; intros shifts imgpos s.
  - exists s. rewrite imageshift_grid_nil. unfold ret. cbn [length seq map].
    cbn [grid_events flat_map].
    rewrite !app_nil_r, Nat.add_0_r. repeat split.
  - rewrite imageshift_grid_cons. unfold imageshift_set. run_steps.
    match goal with
    | |- context [imageshift_grid w x0 y0 img_cent ij ?sh ?ip ?st] =>
        destruct (IH sh ip st) as (s' & Hrun & Hn & Hin & Hc & Hv & Ht)
    end.
    exists s'.
    cbn [n_shot n_input trace with_n_shot with_trace with_imageshift]
      in Hrun, Hn, Hin, Ht.
    split.
    { rewrite Hrun. f_equal. f_equal.
      - rewrite <- app_assoc. f_equal. cbn [length seq map app].
        rewrite Nat.add_0_r. f_equal.
        rewrite <- seq_shift, map_map. apply map_ext. intros n.
        rewrite Nat.add_succ_r. reflexivity.
      - rewrite <- app_assoc. reflexivity. }
    split; [rewrite Hn; cbn [length]; lia |].
    split; [exact Hin |].
    split; [rewrite Hc; reflexivity |].
    split; [rewrite Hv; reflexivity |].
    rewrite Ht. cbn [grid_events flat_map]. rewrite <- !app_assoc.
    reflexivity.
Qed.

(** X13. The image-shift calibration always completes and puts the image
    shift back to where it was.  It takes 26 images (the centre, then one
    per grid point), asks the operator once, and visits the 25 points
    [(x0 + (i-2)*2500, y0 + (j-2)*2500)], [i] and [j] from 0 to 4 with [j]
    running fastest, before the restoring command; the matrix it returns
    is the one fitted to the shifts of the 25 grid images against the
    centre image and these positions. *)
Theorem imageshift_calibration_restores_shift (w : world) (s : state) :
  exists s',
    Calibrate_Imageshift w s
    = Done (fst (fit_affine_transformation w
                   (map (fun n => cross_correlate w
                                    (fst (shot_at w (n_shot s)))
                                    (fst (shot_at w (S (n_shot s) + n))))
                        (seq 0 25))
                   (map (grid_position (fst (imageshift s))
                                       (snd (imageshift s))) grid_5x5)))
           s' /\
    imageshift s' = imageshift s /\
    n_shot s' = (26 + n_shot s)%nat /\
    n_input s' = S (n_input s) /\
    imageshifts (trace s') =
      imageshifts (trace s) ++
      map (grid_position (fst (imageshift s)) (snd (imageshift s))) grid_5x5
      ++ [imageshift s].
Proof.
  unfold Calibrate_Imageshift.
  assert (Hlen : length grid_5x5 = 25%nat) by reflexivity.
  revert Hlen. generalize grid_5x5 as ij. intros ij Hlen.
  unfold raw_input. run_steps.
  match goal with
  | |- context [imageshift_grid w ?x0 ?y0 ?img ij ?sh ?ip ?st] =>
      destruct (imageshift_grid_run w x0 y0 img ij sh ip st)
        as (s1 & Hrun & Hn & Hin & _ & _ & Ht)
  end.
  rewrite Hrun. unfold imageshift_set. run_steps.
  cbn [n_shot n_input trace with_n_shot with_trace with_imageshift
       with_n_input] in Hrun, Hn, Hin, Ht.
  eexists. split.
  { rewrite Hlen. reflexivity. }
  cbn. split; [destruct (imageshift s); reflexivity |].
  split; [rewrite Hn, Hlen; lia |].
  split; [rewrite Hin; reflexivity |].
  rewrite Ht, !imageshifts_app, imageshifts_grid_events. cbn.
  rewrite !app_nil_r, <- !app_assoc.
  destruct (imageshift s); reflexivity.
Qed.

(** A stage whose tilt starts at the third reading. *)
Definition turning_world : world :=
  mkWorld (fun _ => 0%Q) (fun n => Nat.leb 22 n) (fun n => (blank_image, n))
          (fun n => if Nat.leb 2 n then 1%Q else 0%Q)
          (fun _ => EmptyString) detect
          (fun _ _ => ((0, 0)%Q, 0%Q, 0%Q)) (fun _ _ => (0, 0)%Q)
          (fun _ _ => (identity, (0, 0)%Q)) (Some identity)
          (1 # 2) 250 0.

Lemma rotation_starts_at_first_departure_witness :
  wait_for_rotation turning_world 5 0 0 at_rest =
    Done 1%Q (with_n_angle 3 at_rest).
Proof.
  refine (proj1 (rotation_starts_at_first_departure turning_world 0 2 5
                   at_rest _ _ _)).
  - intros j Hj. destruct j as [| [| j]]; [reflexivity | reflexivity | lia].
  - discriminate.
  - lia.
Defined.

(** ** A tracking interval of zero or one *)

(** X14. The recording starts with the frame counter at 1.  With a
    tracking interval of 1 the first turn is a tracking turn and its
    average frame time divides by [i - 1 = 0]; with an interval of 0 the
    test [i % interval] itself divides by zero.  In both cases, and in
    either mode, the first turn raises [ZeroDivisionError] before any
    image is taken or any command is sent: nothing is buffered, and the
    code after the loop ([cam.unblock()] included) is not reached. *)
Theorem tracking_interval_below_two_divides_by_zero (w : world)
    (self : experiment) (fuel more : nat) (t0 : Q) (s : state) :
  image_interval self = 0 \/ image_interval self = 1 ->
  i s = 1 ->
  stop_at w (n_stop s) = false ->
  exists s',
    recording w self fuel (S more) t0 s = Raised ZeroDivisionError s' /\
    n_shot s' = n_shot s /\
    buffer s' = buffer s /\
    image_buffer s' = image_buffer s /\
    difffocus s' = difffocus s /\
    trace s' = trace s.
Proof.
  intros Hint Hi Hstop.
  rewrite recording_turn. unfold is_set, bind at 1. cbn beta. rewrite Hstop.
  unfold bind at 1, loop_body. run_steps.
  destruct Hint as [H0 | H1].
  - rewrite H0. unfold imod. cbn.
    destruct (String.eqb (mode self) "auto"); run_steps;
      eexists; (split; [reflexivity |]); cbn; repeat split.
  - rewrite H1, Hi. unfold imod, fdiv. cbn.
    destruct (String.eqb (mode self) "auto"); run_steps;
      eexists; (split; [reflexivity |]); cbn; repeat split.
Qed.

Lemma tracking_interval_below_two_divides_by_zero_witness :
  exists s',
    recording still_world auto1 10 100 0 (with_i 1 at_rest)
      = Raised ZeroDivisionError s' /\
    n_shot s' = 0%nat.
Proof.
  destruct (tracking_interval_below_two_divides_by_zero still_world auto1 10
              99 0%Q (with_i 1 at_rest) (or_intror eq_refl) eq_refl eq_refl)
    as (s' & Hrun & Hshot & _).
  exists s'. split; [exact Hrun | exact Hshot].
Defined.

(** ** The diffraction focus during the recording *)

(** The microscope is at the focus [p], and so is the proper focus that
    the auto block remembers. *)
Definition focus_at (p : Q) (s : state) : Prop :=
  difffocus s = p /\
  forall tr, tracking s = Some tr -> diff_focus_proper tr = p.

(** A step that keeps this, however it ends. *)
Definition keeps {A : Type} (p : Q) (m : M A) : Prop :=
  forall s, focus_at p s -> focus_at p (final (m s)).

Lemma keeps_ret {A : Type} (p : Q) (a : A) : keeps p (ret a).
Proof. intros s H. exact H. Qed.

Lemma keeps_raise {A : Type} (p : Q) (e : exc) : keeps p (@raise A e).
Proof. intros s H. exact H. Qed.

Lemma keeps_out_of_fuel {A : Type} (p : Q) : keeps p (@out_of_fuel A).
Proof. intros s H. exact H. Qed.

Lemma keeps_bind {A B : Type} (p : Q) (m : M A) (k : A -> M B) :
  keeps p m -> (forall a, keeps p (k a)) -> keeps p (bind m k).
Proof.
  intros Hm Hk s HI. unfold bind. specialize (Hm s HI).
  destruct (m s) as [a s' | e s' | s']; cbn in *;
    [apply Hk; exact Hm | exact Hm | exact Hm].
Qed.

Lemma keeps_get (p : Q) : keeps p get.
Proof. intros s H. exact H. Qed.

Lemma keeps_modify (p : Q) (f : state -> state) :
  (forall s, difffocus (f s) = difffocus s) ->
  (forall s, tracking (f s) = tracking s) ->
  keeps p (modify f).
Proof.
  intros Hf Ht s [H1 H2]. unfold modify. cbn. split.
  - rewrite Hf. exact H1.
  - intros tr Htr. rewrite Ht in Htr. apply H2. exact Htr.
Qed.

Lemma keeps_emit (p : Q) (e : event) : keeps p (emit e).
Proof. apply keeps_modify; reflexivity. Qed.

Lemma keeps_incr_i (p : Q) : keeps p incr_i.
Proof. apply keeps_modify; reflexivity. Qed.

Lemma keeps_time (p : Q) (w : world) : keeps p (time w).
Proof. intros s H. exact H. Qed.

Lemma keeps_is_set (p : Q) (w : world) : keeps p (is_set w).
Proof. intros s H. exact H. Qed.

Lemma keeps_getImage (p : Q) (w : world) (e : Q) : keeps p (getImage w e).
Proof. intros s H. exact H. Qed.

Lemma keeps_beamshift_set (p : Q) (x y : Q) : keeps p (beamshift_set x y).
Proof. apply keeps_modify; reflexivity. Qed.

Lemma keeps_fdiv (p : Q) (a b : Q) : keeps p (fdiv a b).
Proof.
  unfold fdiv. destruct (Qeq_bool b 0); [apply keeps_raise | apply keeps_ret].
Qed.

Lemma keeps_imod (p : Q) (a b : Z) : keeps p (imod a b).
Proof.
  unfold imod. destruct (b =? 0); [apply keeps_raise | apply keeps_ret].
Qed.

(** The locals of the auto block are read with the invariant at hand. *)
Lemma keeps_local_tracking {B : Type} (p : Q) (k : track -> M B) :
  (forall tr, diff_focus_proper tr = p -> keeps p (k tr)) ->
  keeps p (bind local_tracking k).
Proof.
  intros Hk s HI. unfold local_tracking, bind, get.
  destruct (tracking s) as [tr |] eqn:Htr; unfold ret, raise.
  - apply Hk; [apply (proj2 HI); exact Htr | exact HI].
  - exact HI.
Qed.

Lemma keeps_set_tracking (p : Q) (tr : track) :
  diff_focus_proper tr = p -> keeps p (modify (with_tracking (Some tr))).
Proof.
  intros Htr s [H1 H2]. unfold modify. cbn. split; [exact H1 |].
  intros tr' E. injection E as <-. exact Htr.
Qed.

Lemma keeps_capture_tracking (p : Q) (w : world) (e : Q) :
  keeps p (capture_tracking w e).
Proof.
  intros s [H1 H2]. unfold capture_tracking. run_steps.
  destruct (tracking s) as [tr |] eqn:Htr; cbn.
  - rewrite Htr. unfold focus_at. cbn.
    split; [apply H2; reflexivity |].
    intros tr' E. rewrite Htr in E. exact (H2 tr' E).
  - split; [exact H1 |]. intros tr' E. rewrite Htr in E. discriminate.
Qed.

Lemma keeps_capture_diffraction (p : Q) (w : world) (self : experiment) :
  keeps p (capture_diffraction w self).
Proof. intros s H. exact H. Qed.

Lemma keeps_pace (p : Q) (w : world) (fuel : nat) (t_start acq : Q) :
  keeps p (pace w fuel t_start acq).
Proof.
  intros s [H1 H2]. destruct (pace_frame w fuel t_start acq s) as [Hv _].
  unfold frames_view in Hv. injection Hv as Hd _ _ _ Ht _ _.
  split; [rewrite Hd; exact H1 |]. rewrite Ht. exact H2.
Qed.

Lemma keeps_loop_body (p : Q) (w : world) (self : experiment) (fuel : nat)
    (t0 : Q) :
  keeps p (loop_body w self fuel t0).
Proof.
  unfold loop_body. apply keeps_bind; [apply keeps_get |]. intros s0.
  destruct (String.eqb (mode self) "auto").
  - apply keeps_bind; [apply keeps_imod |]. intros r.
    destruct (r =? 0).
    + apply keeps_bind; [apply keeps_time |]. intros t_start.
      apply keeps_bind; [apply keeps_fdiv |]. intros acq.
      apply keeps_bind; [apply keeps_capture_tracking |]. intros img.
      apply keeps_bind; [apply keeps_emit |]. intros _.
      destruct (find_holes w img) as [| prop [| prop' rest]].
      * apply keeps_bind; [apply keeps_emit |]. intros _. apply keeps_ret.
      * apply keeps_local_tracking. intros tr Htr.
        apply keeps_bind; [apply keeps_set_tracking; exact Htr |]. intros _.
        apply keeps_bind; [apply keeps_emit |]. intros _.
        destruct (register_translation w (img0_cropped tr) _)
          as [[cc err] diffphase].
        apply keeps_bind; [apply keeps_emit |]. intros _.
        apply keeps_bind; [apply keeps_get |]. intros s1.
        destruct (calib_beamshift s1) as [transform |];
          [| apply keeps_raise].
        apply keeps_bind; [apply keeps_emit |]. intros _.
        apply keeps_bind; [apply keeps_beamshift_set |]. intros _.
        apply keeps_bind; [apply keeps_set_tracking; exact Htr |]. intros _.
        apply keeps_bind; [apply keeps_pace |]. intros _.
        apply keeps_bind; [apply keeps_incr_i |]. intros _. apply keeps_ret.
      * apply keeps_bind; [apply keeps_emit |]. intros _. apply keeps_ret.
    + apply keeps_bind; [apply keeps_capture_diffraction |]. intros _.
      apply keeps_bind; [apply keeps_emit |]. intros _.
      apply keeps_bind; [apply keeps_incr_i |]. intros _. apply keeps_ret.
  - apply keeps_bind; [apply keeps_imod |]. intros r.
    destruct (r =? 0).
    + apply keeps_bind; [apply keeps_time |]. intros t_start.
      apply keeps_bind; [apply keeps_fdiv |]. intros acq.
      apply keeps_bind; [apply keeps_capture_tracking |]. intros img.
      apply keeps_bind; [apply keeps_pace |]. intros _.
      apply keeps_bind; [apply keeps_incr_i |]. intros _. apply keeps_ret.
    + apply keeps_bind; [apply keeps_capture_diffraction |]. intros _.
      apply keeps_bind; [apply keeps_incr_i |]. intros _. apply keeps_ret.
Qed.

Lemma keeps_recording (p : Q) (w : world) (self : experiment) (fuel : nat)
    (t0 : Q) :
  forall turns, keeps p (recording w self fuel turns t0).
Proof.
  induction turns as [| turns IH].
  - apply keeps_out_of_fuel.
  - rewrite recording_turn.
    apply keeps_bind; [apply keeps_is_set |]. intros stop.
    destruct stop; [apply keeps_ret |].
    apply keeps_bind; [apply keeps_loop_body |]. intros c.
    destruct c; [exact IH | apply keeps_ret].
Qed.

(** X15. The recording loop leaves the diffraction focus where it found
    it, however it ends (stop flag, abort on an ambiguous frame, an
    exception, or the loops running on): every tracking image is taken
    between a defocus and a refocus to the proper value, and nothing in
    between can fail.  The reference image of the auto block establishes
    the condition: the proper focus it remembers is the one the microscope
    is at. *)
Theorem recording_keeps_proper_focus (w : world) (self : experiment)
    (fuel turns : nat) (t0 : Q) (s : state) :
  (forall tr, tracking s = Some tr -> diff_focus_proper tr = difffocus s) ->
  difffocus (final (recording w self fuel turns t0 s)) = difffocus s /\
  (forall tr,
      tracking (final (recording w self fuel turns t0 s)) = Some tr ->
      diff_focus_proper tr = difffocus s) /\
  (forall s0 s1,
      reference_image w self s0 = Done true s1 ->
      difffocus s1 = difffocus s0 /\
      forall tr, tracking s1 = Some tr -> diff_focus_proper tr = difffocus s1).
Proof.
  intros Hinv.
  destruct (keeps_recording (difffocus s) w self fuel t0 turns s
              (conj eq_refl Hinv)) as [H1 H2].
  split; [exact H1 |]. split; [exact H2 |].
  intros s0 s1 Href.
  destruct (find_holes w (fst (shot_at w (n_shot s0))))
    as [| prop [| prop' rest]] eqn:Hf.
  - destruct (reference_image_other w self s0) as (s' & Hrun & _).
    { intros q E. rewrite Hf in E. discriminate. }
    rewrite Hrun in Href. discriminate.
  - destruct (reference_image_single w self s0 prop Hf)
      as (s' & Hrun & Htr & Hd & _).
    rewrite Hrun in Href. injection Href as <-.
    split; [exact Hd |]. intros tr E. rewrite Htr in E.
    injection E as <-. cbn. symmetry. exact Hd.
  - destruct (reference_image_other w self s0) as (s' & Hrun & _).
    { intros q E. rewrite Hf in E. discriminate. }
    rewrite Hrun in Href. discriminate.
Qed.

Lemma recording_keeps_proper_focus_witness :
  difffocus (final (recording still_world auto5 10 18 0 at_frame_5)) = 0%Q.
Proof.
  refine (proj1 (recording_keeps_proper_focus still_world auto5 10 18 0%Q
                   at_frame_5 _)).
  intros tr E. injection E as <-. reflexivity.
Defined.

(** ** A session without a beam-shift calibration on file *)

(** The number of beam-shift calibrations run in a trace. *)
Definition calibrations (tr : list event) : nat :=
  length (filter (fun e => match e with
                           | CalibrateBeamshift => true
                           | _ => false
                           end) tr).

Lemma calibrations_app (a b : list event) :
  calibrations (a ++ b) = (calibrations a + calibrations b)%nat.
Proof. unfold calibrations. rewrite filter_app, length_app. reflexivity. Qed.

Lemma calibrations_grid_events (x0 y0 : Q) (ij : list (Z * Z)) :
  calibrations (grid_events x0 y0 ij) = 0%nat.
Proof.
  induction ij as [| p ij IH]; [reflexivity |].
  cbn [grid_events flat_map app]. fold (grid_events x0 y0 ij).
  change (calibrations (?a :: ?b :: ?l))
    with (calibrations [a; b] + calibrations l)%nat.
  rewrite IH. reflexivity.
Qed.

Lemma recalibrate_turn (w : world) (fuel : nat) :
  recalibrate w (S fuel) "x" =
  (emit (Print MsgFindClearArea) ;;;
   emit CalibrateBeamshift ;;;
   emit (Print MsgBeamShiftDone) ;;;
   answer <- raw_input w ;;
   recalibrate w fuel answer).
Proof. reflexivity. Qed.

Lemma recalibrate_accepted (w : world) (fuel : nat) (answer : string) :
  answer <> "x"%string -> recalibrate w fuel answer = ret tt.
Proof.
  intros H. apply String.eqb_neq in H.
  destruct fuel; unfold recalibrate; rewrite H; reflexivity.
Qed.

Lemma recalibrate_run (w : world) :
  forall (k fuel : nat) (s : state),
    (forall j, (j < k)%nat -> input_at w (n_input s + j) = "x"%string) ->
    input_at w (n_input s + k) <> "x"%string ->
    (k < fuel)%nat ->
    exists s',
      recalibrate w fuel "x" s = Done tt s' /\
      calib_beamshift s' = calib_beamshift s /\
      n_shot s' = n_shot s /\
      n_input s' = (n_input s + k + 1)%nat /\
      calibrations (trace s') = (calibrations (trace s) + k + 1)%nat.
Proof.
  induction k as [| k IH]; intros fuel s Hx Hk Hfuel.
  - destruct fuel as [| fuel]; [lia |].
    rewrite recalibrate_turn. unfold raw_input. run_steps.
    rewrite Nat.add_0_r in Hk. rewrite (recalibrate_accepted _ _ _ Hk).
    eexists. split; [reflexivity |]. cbn.
    split; [reflexivity |]. split; [reflexivity |]. split; [lia |].
    unfold calibrations. rewrite !filter_app, !length_app. cbn. lia.
  - destruct fuel as [| fuel]; [lia |].
    rewrite recalibrate_turn. unfold raw_input. run_steps.
    pose proof (Hx 0%nat ltac:(lia)) as H0. rewrite Nat.add_0_r in H0.
    rewrite H0.
    match goal with
    | |- context [recalibrate w fuel "x" ?st] =>
        destruct (IH fuel st) as (s' & Hrun & Hc & Hs & Hi & Hn)
    end.
    + intros j Hj. cbn. rewrite <- Nat.add_succ_r. apply Hx. lia.
    + cbn. rewrite <- Nat.add_succ_r. exact Hk.
    + lia.
    + exists s'. split; [exact Hrun |]. cbn in Hc, Hs, Hi, Hn.
      split; [exact Hc |]. split; [exact Hs |]. split; [lia |].
      unfold calibrations in *. rewrite Hn, !filter_app, !length_app.
      cbn. lia.
Qed.

Lemma Calibrate_Imageshift_inputs (w : world) (s : state) :
  exists r s',
    Calibrate_Imageshift w s = Done r s' /\
    n_input s' = S (n_input s) /\
    calib_beamshift s' = calib_beamshift s /\
    calibrations (trace s') = calibrations (trace s).
Proof.
  unfold Calibrate_Imageshift. generalize grid_5x5 as ij. intros ij.
  unfold raw_input. run_steps.
  match goal with
  | |- context [imageshift_grid w ?x0 ?y0 ?img ij ?sh ?ip ?st] =>
      destruct (imageshift_grid_run w x0 y0 img ij sh ip st)
        as (s1 & Hrun & _ & Hin & Hc & _ & Ht)
  end.
  rewrite Hrun. unfold imageshift_set. run_steps.
  cbn [n_shot n_input trace calib_beamshift with_n_shot with_trace
       with_imageshift with_n_input] in Hin, Hc, Ht.
  eexists _, _. split; [reflexivity |]. cbn.
  split; [exact Hin |]. split; [exact Hc |].
  pose proof (calibrations_grid_events (fst (imageshift s))
                (snd (imageshift s)) ij) as Hg.
  unfold calibrations in *. rewrite Ht, !filter_app, !length_app, Hg.
  cbn. lia.
Qed.

(** X16. When no beam-shift calibration is on file, the auto block runs
    [calibrate_beamshift] once and once more for every "x" the operator
    answers, but keeps none of the results: [self.calib_beamshift] is as
    it was.  If it was unset, the first tracking frame with a single
    feature raises [AttributeError] where the transform is read: the
    tracking image has been taken and buffered and the focus restored,
    and the beam shift is not touched. *)
Theorem missing_calibration_file_raises_AttributeError (w : world)
    (self : experiment) (fuel : nat) (t0 : Q) :
  mode self = "auto"%string ->
  calib_from_file w = None ->
  (forall (k : nat) (s : state),
      (forall j, (j < k)%nat ->
         input_at w (S (n_input s) + j) = "x"%string) ->
      input_at w (S (n_input s) + k) <> "x"%string ->
      (k < fuel)%nat ->
      exists s',
        prepare_auto w fuel s = Done tt s' /\
        calib_beamshift s' = calib_beamshift s /\
        calibrations (trace s') = (calibrations (trace s) + k + 1)%nat) /\
  (forall (s : state) (tr : track) (prop : region),
      image_interval self <> 0 ->
      i s mod image_interval self = 0 ->
      i s <> 1 ->
      tracking s = Some tr ->
      find_holes w (fst (shot_at w (n_shot s))) = [prop] ->
      calib_beamshift s = None ->
      exists s',
        loop_body w self fuel t0 s = Raised AttributeError s' /\
        beamshift s' = beamshift s /\
        difffocus s' = diff_focus_proper tr /\
        buffer s' = buffer s /\
        image_buffer s' =
          image_buffer s ++ [(i s, fst (shot_at w (n_shot s)),
                              snd (shot_at w (n_shot s)))] /\
        n_shot s' = S (n_shot s)).
Proof.
  intros Hmode Hfile. split.
  - intros k s Hx Hk Hfuel. unfold prepare_auto. rewrite Hfile. run_steps.
    match goal with
    | |- context [Calibrate_Imageshift w ?st] =>
        destruct (Calibrate_Imageshift_inputs w st)
          as (r & s1 & Hrun & Hin & Hc & Hn)
    end.
    rewrite Hrun. cbn in Hin, Hc, Hn.
    match goal with
    | |- context [recalibrate w fuel "x" ?st] =>
        destruct (recalibrate_run w k fuel st)
          as (s2 & Hrun2 & Hc2 & _ & _ & Hn2)
    end.
    + intros j Hj. cbn. rewrite Hin. apply Hx. exact Hj.
    + cbn. rewrite Hin. exact Hk.
    + exact Hfuel.
    + exists s2. split; [exact Hrun2 |]. cbn in Hc2, Hn2.
      split; [rewrite Hc2; exact Hc |].
      unfold calibrations in *.
      rewrite Hn2, !filter_app, !length_app, Hn, !filter_app, !length_app.
      cbn. lia.
  - intros s tr prop Hint Hmod Hi Htr Hone Hnone.
    unfold loop_body. run_steps. rewrite Hmode. cbn.
    rewrite (imod_regular _ _ Hint). run_steps. rewrite Hmod. cbn.
    rewrite (fdiv_counter _ _ Hi). run_steps.
    unfold capture_tracking. run_steps.
    repeat (rewrite Htr; run_steps).
    rewrite Hone. run_steps. repeat (rewrite Htr; run_steps).
    destruct (register_translation w (img0_cropped tr) _) as [[cc err] ph].
    run_steps. rewrite Hnone. run_steps.
    eexists. split; [reflexivity |]. cbn. repeat split.
Qed.

(** A session with no calibration on file and an operator who accepts the
    first beam-shift calibration. *)
Definition uncalibrated_world : world :=
  mkWorld (fun _ => 0%Q) (fun n => Nat.leb 22 n) (fun n => (blank_image, n))
          (fun _ => 0%Q) (fun _ => EmptyString) detect
          (fun _ _ => ((0, 0)%Q, 0%Q, 0%Q)) (fun _ _ => (0, 0)%Q)
          (fun _ _ => (identity, (0, 0)%Q)) None
          (1 # 2) 250 0.

Lemma missing_calibration_file_raises_AttributeError_witness :
  (exists s',
     prepare_auto uncalibrated_world 10 at_rest = Done tt s' /\
     calib_beamshift s' = None /\
     calibrations (trace s') = 1%nat) /\
  (exists s',
     loop_body uncalibrated_world auto5 10 0 at_frame_5
       = Raised AttributeError s' /\
     beamshift s' = (0, 0)%Q).
Proof.
  destruct (missing_calibration_file_raises_AttributeError uncalibrated_world
              auto5 10 0%Q eq_refl eq_refl) as [Hprep Hturn].
  split.
  - destruct (Hprep 0%nat at_rest) as (s' & Hrun & Hc & Hn).
    + intros j Hj. lia.
    + discriminate.
    + lia.
    + exists s'. split; [exact Hrun |]. split; [exact Hc | exact Hn].
  - destruct (Hturn at_frame_5 (mkTrack 0 1500 0 0 (20, 20)%Q 14 []) aperture
                ltac:(discriminate) eq_refl ltac:(discriminate) eq_refl
                eq_refl eq_refl)
      as (s' & Hrun & Hbs & _).
    exists s'. split; [exact Hrun | exact Hbs].
Defined.

(** ** What is written after the loop *)












(** The state of a session after 22 turns. *)
Definition recorded : state :=
  final (recording still_world auto5 10 100 0
           (with_startangle (Some 0%Q) at_frame_5)).


(** ** [fast_finder]

    The image is an array of integers with at least one row and one
    column.  Means are taken in exact arithmetic, where numpy rounds every
    sum and quotient to a double: what is stated below is either relative
    to the profile and the threshold as computed, or about images on which
    every sum is exactly representable.  The differences of indices are
    integers, and [/ 2] on them is the integer division of Python 2. *)

Definition qsum (l : list Q) : Q := fold_right Qplus 0%Q l.

(** [np.mean] of a 1-d array. *)
Definition qmean (l : list Q) : Q :=
  (qsum l / inject_Z (Z.of_nat (length l)))%Q.

Definition width (img : image) : nat :=
  match img with
  | [] => 0%nat
  | row :: _ => length row
  end.

(** [np.mean(image, axis=0)]: the mean of every column. *)
Definition mean_axis0 (img : image) : list Q :=
  map (fun j => qmean (map (fun row => inject_Z (nth j row 0)) img))
      (seq 0 (width img)).

(** [np.mean(image, axis=1)]: the mean of every row. *)
Definition mean_axis1 (img : image) : list Q :=
  map (fun row => qmean (map inject_Z row)) img.

(** [np.where(XY > t)[0]]. *)
Definition where_over (XY : list Q) (t : Q) : list nat :=
  filter (fun k => Qltb t (nth k XY 0%Q)) (seq 0 (length XY)).

Inductive finder_error : Type :=
| IndexError.     (* index -1 is out of bounds for axis 0 with size 0 *)

(** One turn of [for n, XY in enumerate([X,Y])]: [(center[n], rads[n])]. *)
Definition extent (over : list nat) : finder_error + (Z * Z) :=
  match over with
  | [] => inl IndexError
  | first :: _ =>
      let rad := (Z.of_nat (last over first) - Z.of_nat first) / 2 in
      inr (Z.of_nat first + rad, rad)
  end.

(** Returns [(center, rads)]. *)
Definition fast_finder (img : image) (treshold : Q)
  : finder_error + ((Z * Z) * (Z * Z)) :=
  let X := mean_axis0 img in
  let Y := mean_axis1 img in
  let im_mean := qmean X in
  match extent (where_over X (im_mean * treshold)%Q) with
  | inl e => inl e
  | inr (c0, r0) =>
      match extent (where_over Y (im_mean * treshold)%Q) with
      | inl e => inl e
      | inr (c1, r1) => inr ((c0, c1), (r0, r1))
      end
  end.

(** A profile without an entry above the threshold. *)

Lemma filter_none {A : Type} (p : A -> bool) (l : list A) :
  (forall x, In x l -> p x = false) -> filter p l = [].
Proof.
  induction l as [| x l IH]; intros H; [reflexivity |].
  cbn [filter]. rewrite (H x (or_introl eq_refl)).
  apply IH. intros y Hy. apply H. right. exact Hy.
Qed.

Lemma qsum_flat (c : Q) (l : list Q) :
  Forall (fun x => x == c)%Q l ->
  (qsum l == inject_Z (Z.of_nat (length l)) * c)%Q.
Proof.
  induction 1 as [| x l Hx _ IH].
  - cbn. ring.
  - cbn [qsum fold_right length]. fold (qsum l).
    rewrite IH, Hx, Nat2Z.inj_succ. unfold Z.succ.
    rewrite inject_Z_plus. ring.
Qed.

Lemma qmean_flat (c : Q) (l : list Q) :
  l <> [] -> Forall (fun x => x == c)%Q l -> (qmean l == c)%Q.
Proof.
  intros Hne Hflat. unfold qmean. rewrite (qsum_flat c l Hflat).
  field. destruct l as [| x l]; [congruence |].
  intros H. unfold Qeq in H. cbn in H. lia.
Qed.

(** A uniform image: [rows] rows of [cols] pixels of value [c]. *)
Definition uniform (rows cols : nat) (c : Z) : image :=
  repeat (repeat c cols) rows.

Lemma mean_axis0_uniform (rows cols : nat) (c : Z) :
  (0 < rows)%nat ->
  length (mean_axis0 (uniform rows cols c)) = cols /\
  Forall (fun x => x == inject_Z c)%Q (mean_axis0 (uniform rows cols c)).
Proof.
  intros Hr. unfold mean_axis0, uniform.
  assert (Hw : width (repeat (repeat c cols) rows) = cols).
  { destruct rows as [| r]; [lia |]. cbn [repeat width].
    apply repeat_length. }
  rewrite Hw. split; [rewrite length_map, length_seq; reflexivity |].
  apply Forall_forall. intros x Hx. apply in_map_iff in Hx.
  destruct Hx as (j & <- & Hj). apply in_seq in Hj.
  apply qmean_flat.
  - destruct rows as [| r]; [lia | discriminate].
  - apply Forall_forall. intros y Hy. apply in_map_iff in Hy.
    destruct Hy as (row & <- & Hrow). apply repeat_spec in Hrow. subst row.
    assert (Hn : nth j (repeat c cols) 0 = c).
    { rewrite (nth_indep _ 0 c) by (rewrite repeat_length; lia).
      apply nth_repeat. }
    rewrite Hn. reflexivity.
Qed.

(** X24. A uniform image makes [fast_finder] raise.  When every pixel has
    the same value [c], no column mean is above the image mean; with a
    threshold that does not lower that mean (the default 1, or any
    threshold of at least 1 when [c] is not negative) [over] is empty and
    indexing it raises [IndexError] instead of a centre being returned.
    The two bounds keep every sum the code forms exactly representable in
    a double, so that the means numpy computes are the exact ones. *)
Theorem fast_finder_uniform_image_raises (rows cols : nat) (c : Z)
    (treshold : Q) :
  (0 < rows)%nat -> (0 < cols)%nat ->
  (Z.of_nat rows * Z.abs c <= 2 ^ 53)%Z ->
  (Z.of_nat cols * Z.abs c <= 2 ^ 53)%Z ->
  (inject_Z c <= inject_Z c * treshold)%Q ->
  fast_finder (uniform rows cols c) treshold = inl IndexError.
Proof.
  intros Hr Hc _ _ Hthr. unfold fast_finder. cbv zeta.
  destruct (mean_axis0_uniform rows cols c Hr) as [Hlen Hflat].
  assert (Hne : mean_axis0 (uniform rows cols c) <> []).
  { intros E. rewrite E in Hlen. cbn in Hlen. lia. }
  assert (Hnone : where_over (mean_axis0 (uniform rows cols c))
                    (qmean (mean_axis0 (uniform rows cols c)) * treshold)%Q
                  = []).
  { unfold where_over. apply filter_none. intros k Hk.
    apply in_seq in Hk. apply Qltb_false.
    assert (Hx : (nth k (mean_axis0 (uniform rows cols c)) 0 == inject_Z c)%Q).
    { rewrite Forall_forall in Hflat. apply Hflat. apply nth_In. lia. }
    rewrite Hx, (qmean_flat (inject_Z c) _ Hne Hflat). exact Hthr. }
  rewrite Hnone. reflexivity.
Qed.

Lemma fast_finder_uniform_image_raises_witness :
  fast_finder (uniform 2 3 7) 1 = inl IndexError.
Proof.
  apply (fast_finder_uniform_image_raises 2 3 7 1%Q).
  - lia.
  - lia.
  - vm_compute. discriminate.
  - vm_compute. discriminate.
  - discriminate.
Defined.

(** The first and the last index that pass a test. *)

Lemma filter_seq_first (p : nat -> bool) :
  forall (n a first : nat) (rest : list nat),
    filter p (seq a n) = first :: rest ->
    p first = true /\ (a <= first < a + n)%nat /\
    forall k, (a <= k < first)%nat -> p k = false.
Proof.
  induction n as [| n IH]; intros a first rest H; [discriminate |].
  cbn [seq filter] in H. destruct (p a) eqn:Hp.
  - injection H as <- _. split; [exact Hp |]. split; [lia |].
    intros k Hk. lia.
  - destruct (IH (S a) first rest H) as (H1 & H2 & H3).
    split; [exact H1 |]. split; [lia |].
    intros k Hk. destruct (Nat.eq_dec k a) as [-> | Hne]; [exact Hp |].
    apply H3. lia.
Qed.

Lemma filter_seq_last (p : nat -> bool) :
  forall (n a d : nat),
    filter p (seq a n) <> [] ->
    let lst := last (filter p (seq a n)) d in
    p lst = true /\ (a <= lst < a + n)%nat /\
    forall k, (lst < k < a + n)%nat -> p k = false.
Proof.
  induction n as [| n IH]; intros a d Hne; [cbn in Hne; congruence |].
  cbv zeta. rewrite seq_S, filter_app in *. cbn [filter] in *.
  destruct (p (a + n)%nat) eqn:Hp.
  - rewrite last_last. split; [exact Hp |]. split; [lia |].
    intros k Hk. lia.
  - rewrite app_nil_r in *.
    destruct (IH a d Hne) as (H1 & H2 & H3).
    split; [exact H1 |]. split; [lia |].
    intros k Hk. destruct (Nat.eq_dec k (a + n)) as [-> | Hneq]; [exact Hp |].
    apply H3. lia.
Qed.

(** What [center] and [rads] say about a profile: [center - rads] is the
    first index above the threshold, and the last one is [center + rads]
    or the index after it. *)
Definition brackets (XY : list Q) (thr : Q) (c r : Z) : Prop :=
  exists first lst : nat,
    c - r = Z.of_nat first /\
    (c + r = Z.of_nat lst \/ c + r + 1 = Z.of_nat lst) /\
    0 <= r /\
    (first <= lst < length XY)%nat /\
    (thr < nth first XY 0)%Q /\
    (thr < nth lst XY 0)%Q /\
    (forall k, (k < first)%nat -> (nth k XY 0 <= thr)%Q) /\
    (forall k, (lst < k < length XY)%nat -> (nth k XY 0 <= thr)%Q).

Lemma extent_spec (XY : list Q) (thr : Q) :
  match extent (where_over XY thr) with
  | inl _ => forall k, (k < length XY)%nat -> (nth k XY 0 <= thr)%Q
  | inr (c, r) => brackets XY thr c r
  end.
Proof.
  unfold extent, where_over.
  set (p := fun k => Qltb thr (nth k XY 0%Q)).
  destruct (filter p (seq 0 (length XY))) as [| first rest] eqn:Hf.
  - intros k Hk. apply Qltb_false.
    assert (Hin : ~ In k (filter p (seq 0 (length XY))))
      by (rewrite Hf; intros []).
    destruct (p k) eqn:Hp; [| exact Hp].
    exfalso. apply Hin. apply filter_In. split; [| exact Hp].
    apply in_seq. lia.
  - destruct (filter_seq_first p _ _ _ _ Hf) as (Hp1 & Hr1 & Hb1).
    assert (Hne : filter p (seq 0 (length XY)) <> [])
      by (rewrite Hf; discriminate).
    pose proof (filter_seq_last p (length XY) 0 first Hne) as Hl.
    cbv zeta in Hl. rewrite Hf in Hl.
    set (lst := last (first :: rest) first) in *.
    destruct Hl as (Hp2 & Hr2 & Hb2).
    assert (Hle : (first <= lst)%nat).
    { destruct (Nat.le_gt_cases first lst) as [H | H]; [exact H |].
      rewrite (Hb1 lst) in Hp2; [discriminate | lia]. }
    exists first, lst.
    pose proof (Z.div_mod (Z.of_nat lst - Z.of_nat first) 2 ltac:(lia)) as Hdm.
    pose proof (Z.mod_pos_bound (Z.of_nat lst - Z.of_nat first) 2
                  ltac:(lia)) as Hmb.
    assert (Hr0 : 0 <= (Z.of_nat lst - Z.of_nat first) / 2)
      by (apply Z.div_pos; lia).
    split; [lia |]. split; [lia |]. split; [exact Hr0 |].
    split; [lia |].
    split; [apply Qltb_true; exact Hp1 |].
    split; [apply Qltb_true; exact Hp2 |].
    split.
    + intros k Hk. apply Qltb_false. apply Hb1. lia.
    + intros k Hk. apply Qltb_false. apply Hb2. lia.
Qed.

(** X25. [fast_finder] returns exactly when some column mean and some
    row mean exceed [im_mean * treshold], and raises [IndexError]
    otherwise.  What it returns brackets the region above the threshold
    on each axis: [center - rads] is the first index above it,
    [center + rads] is the last such index or the one before it (the
    half-width is rounded down), and nothing outside is above the
    threshold. *)
Theorem fast_finder_brackets_bright_region (img : image) (treshold : Q) :
  let X := mean_axis0 img in
  let Y := mean_axis1 img in
  let thr := (qmean X * treshold)%Q in
  match fast_finder img treshold with
  | inr ((c0, c1), (r0, r1)) => brackets X thr c0 r0 /\ brackets Y thr c1 r1
  | inl IndexError =>
      (forall k, (k < length X)%nat -> (nth k X 0 <= thr)%Q) \/
      (forall k, (k < length Y)%nat -> (nth k Y 0 <= thr)%Q)
  end.
Proof.
  cbv zeta. unfold fast_finder. cbv zeta.
  pose proof (extent_spec (mean_axis0 img)
                (qmean (mean_axis0 img) * treshold)%Q) as HX.
  pose proof (extent_spec (mean_axis1 img)
                (qmean (mean_axis0 img) * treshold)%Q) as HY.
  destruct (extent (where_over (mean_axis0 img) _)) as [[] | [c0 r0]].
  - left. exact HX.
  - destruct (extent (where_over (mean_axis1 img) _)) as [[] | [c1 r1]].
    + right. exact HY.
    + split; [exact HX | exact HY].
Qed.

(** ** The numbering of the frames *)

Definition indices (l : list frame) : list Z := map frame_index l.

(** Every frame has a number below [bound], the numbers of each buffer
    increase, and no number is in both buffers. *)
Definition numbered (bound : Z) (s : state) : Prop :=
  StronglySorted Z.lt (indices (buffer s)) /\
  StronglySorted Z.lt (indices (image_buffer s)) /\
  Forall (fun k => k < bound) (indices (buffer s)) /\
  Forall (fun k => k < bound) (indices (image_buffer s)) /\
  forall k, In k (indices (buffer s)) -> In k (indices (image_buffer s)) ->
            False.

Lemma numbered_mono (b b' : Z) (s : state) :
  b <= b' -> numbered b s -> numbered b' s.
Proof.
  intros Hb (H1 & H2 & H3 & H4 & H5).
  split; [exact H1 |]. split; [exact H2 |].
  split; [eapply Forall_impl; [| exact H3]; cbn; intros; lia |].
  split; [eapply Forall_impl; [| exact H4]; cbn; intros; lia |].
  exact H5.
Qed.

Lemma sorted_snoc (l : list Z) (x : Z) :
  StronglySorted Z.lt l -> Forall (fun k => k < x) l ->
  StronglySorted Z.lt (l ++ [x]).
Proof.
  induction 1 as [| y l Hs IH Hy]; intros Hall.
  - cbn. constructor; constructor.
  - inversion Hall as [| ? ? Hyx Hrest]; subst. cbn. constructor.
    + apply IH. exact Hrest.
    + apply Forall_app. split; [exact Hy |]. constructor; [exact Hyx |].
      constructor.
Qed.

Lemma below_not_in (l : list Z) (x : Z) :
  Forall (fun k => k < x) l -> ~ In x l.
Proof.
  intros H Hin. rewrite Forall_forall in H. specialize (H x Hin). lia.
Qed.

(** The state of the two buffers and the counter. *)
Definition frames (s : state) := (buffer s, image_buffer s, i s).

(** At the head of a turn with counter [i0]; after its frame is taken. *)
Definition at_head (i0 : Z) (s : state) : Prop := i s = i0 /\ numbered i0 s.
Definition taken (i0 : Z) (s : state) : Prop :=
  i0 <= i s /\ numbered (i0 + 1) s.
Definition closed (s : state) : Prop := numbered (i s + 1) s.

Lemma at_head_taken (i0 : Z) (s : state) : at_head i0 s -> taken i0 s.
Proof.
  intros [Hi Hn]. split; [lia |]. apply (numbered_mono i0); [lia | exact Hn].
Qed.

Lemma taken_closed (i0 : Z) (s : state) : taken i0 s -> closed s.
Proof.
  intros [Hi Hn]. apply (numbered_mono (i0 + 1)); [lia | exact Hn].
Qed.

Lemma numbered_frames (b : Z) (s s' : state) :
  buffer s' = buffer s -> image_buffer s' = image_buffer s ->
  numbered b s -> numbered b s'.
Proof. unfold numbered. intros -> ->. tauto. Qed.

(** A triple: from [P], the step ends in [Qd] when it returns and in
    [closed] when it does not. *)
Definition triple {A : Type} (P : state -> Prop) (m : M A)
    (Qd : A -> state -> Prop) : Prop :=
  forall s, P s ->
    match m s with
    | Done a s' => Qd a s'
    | Raised _ s' | OutOfFuel s' => closed s'
    end.

Lemma triple_bind {A B : Type} (P : state -> Prop) (m : M A)
    (R : A -> state -> Prop) (k : A -> M B) (Qd : B -> state -> Prop) :
  triple P m R -> (forall a, triple (R a) (k a) Qd) ->
  triple P (bind m k) Qd.
Proof.
  intros Hm Hk s HP. unfold bind. specialize (Hm s HP).
  destruct (m s) as [a s' | e s' | s']; [apply Hk; exact Hm | exact Hm ..].
Qed.

Lemma triple_ret {A : Type} (P : state -> Prop) (a : A)
    (Qd : A -> state -> Prop) :
  (forall s, P s -> Qd a s) -> triple P (ret a) Qd.
Proof. intros H s HP. apply H. exact HP. Qed.

Lemma triple_raise {A : Type} (P : state -> Prop) (e : exc)
    (Qd : A -> state -> Prop) :
  (forall s, P s -> closed s) -> triple P (raise e) Qd.
Proof. intros H s HP. apply H. exact HP. Qed.

(** A step that leaves the buffers and the counter alone. *)
Definition neutral {A : Type} (m : M A) : Prop :=
  forall s, frames (final (m s)) = frames s.

Lemma triple_neutral {A : Type} (i0 : Z) (m : M A) :
  neutral m ->
  triple (at_head i0) m (fun _ => at_head i0) /\
  triple (taken i0) m (fun _ => taken i0).
Proof.
  intros Hm. split; intros s HP; specialize (Hm s); unfold frames in Hm;
    destruct (m s) as [a s' | e s' | s']; cbn in Hm;
    injection Hm as Hb Hib Hi.
  - destruct HP as [H1 H2]. split; [congruence |].
    apply (numbered_frames _ s); assumption.
  - apply (taken_closed i0). apply at_head_taken. destruct HP as [H1 H2].
    split; [congruence |]. apply (numbered_frames _ s); assumption.
  - apply (taken_closed i0). apply at_head_taken. destruct HP as [H1 H2].
    split; [congruence |]. apply (numbered_frames _ s); assumption.
  - destruct HP as [H1 H2]. split; [lia |].
    apply (numbered_frames _ s); assumption.
  - apply (taken_closed i0). destruct HP as [H1 H2]. split; [lia |].
    apply (numbered_frames _ s); assumption.
  - apply (taken_closed i0). destruct HP as [H1 H2]. split; [lia |].
    apply (numbered_frames _ s); assumption.
Qed.

Lemma neutral_get : neutral get.
Proof. intros s. reflexivity. Qed.

Lemma neutral_time (w : world) : neutral (time w).
Proof. intros s. reflexivity. Qed.

Lemma neutral_is_set (w : world) : neutral (is_set w).
Proof. intros s. reflexivity. Qed.

Lemma neutral_emit (e : event) : neutral (emit e).
Proof. intros s. reflexivity. Qed.

Lemma neutral_fdiv (a b : Q) : neutral (fdiv a b).
Proof. intros s. unfold fdiv. destruct (Qeq_bool b 0); reflexivity. Qed.

Lemma neutral_imod (a b : Z) : neutral (imod a b).
Proof. intros s. unfold imod. destruct (b =? 0); reflexivity. Qed.

Lemma neutral_local_tracking : neutral local_tracking.
Proof.
  intros s. unfold local_tracking, bind, get. destruct (tracking s);
    reflexivity.
Qed.

Lemma neutral_with_tracking (t : option track) :
  neutral (modify (with_tracking t)).
Proof. intros s. reflexivity. Qed.

Lemma neutral_beamshift_set (x y : Q) : neutral (beamshift_set x y).
Proof. intros s. reflexivity. Qed.

Lemma neutral_raise {A : Type} (e : exc) : neutral (@raise A e).
Proof. intros s. reflexivity. Qed.

(** The two kinds of frame. *)

Lemma numbered_diffraction (i0 : Z) (s : state) (img : image) (h : header) :
  at_head i0 s ->
  taken i0 (with_buffer (buffer s ++ [(i0, img, h)]) s).
Proof.
  intros [Hi (H1 & H2 & H3 & H4 & H5)]. split; [cbn; lia |].
  unfold numbered, indices. cbn [buffer image_buffer with_buffer].
  rewrite map_app. cbn [map frame_index fst].
  split; [apply sorted_snoc; assumption |]. split; [exact H2 |].
  split.
  { apply Forall_app. split.
    - eapply Forall_impl; [| exact H3]. cbn. intros. lia.
    - constructor; [lia | constructor]. }
  split; [eapply Forall_impl; [| exact H4]; cbn; intros; lia |].
  intros k Hk Hk'. apply in_app_or in Hk. destruct Hk as [Hk | [<- | []]].
  - exact (H5 k Hk Hk').
  - exact (below_not_in _ _ H4 Hk').
Qed.

Lemma numbered_tracking (i0 : Z) (s : state) (img : image) (h : header) :
  at_head i0 s ->
  taken i0 (with_image_buffer (image_buffer s ++ [(i0, img, h)]) s).
Proof.
  intros [Hi (H1 & H2 & H3 & H4 & H5)]. split; [cbn; lia |].
  unfold numbered, indices. cbn [buffer image_buffer with_image_buffer].
  rewrite map_app. cbn [map frame_index fst].
  split; [exact H1 |]. split; [apply sorted_snoc; assumption |].
  split; [eapply Forall_impl; [| exact H3]; cbn; intros; lia |].
  split.
  { apply Forall_app. split.
    - eapply Forall_impl; [| exact H4]. cbn. intros. lia.
    - constructor; [lia | constructor]. }
  intros k Hk Hk'. apply in_app_or in Hk'. destruct Hk' as [Hk' | [<- | []]].
  - exact (H5 k Hk Hk').
  - exact (below_not_in _ _ H3 Hk).
Qed.

Lemma triple_capture_diffraction (w : world) (self : experiment) (i0 : Z) :
  triple (at_head i0) (capture_diffraction w self) (fun _ => taken i0).
Proof.
  intros s HP. unfold capture_diffraction. run_steps.
  destruct HP as [Hi Hn].
  pose proof (numbered_diffraction i0 s (fst (shot_at w (n_shot s)))
                (snd (shot_at w (n_shot s))) (conj Hi Hn)) as [H1 H2].
  rewrite Hi. split; [cbn; lia |]. exact H2.
Qed.

Lemma triple_capture_tracking (w : world) (e : Q) (i0 : Z) :
  triple (at_head i0) (capture_tracking w e) (fun _ => taken i0).
Proof.
  intros s HP. unfold capture_tracking. run_steps.
  destruct (tracking s) as [tr |] eqn:Htr; cbn.
  - rewrite Htr. cbn. destruct HP as [Hi Hn].
    pose proof (numbered_tracking i0 s (fst (shot_at w (n_shot s)))
                  (snd (shot_at w (n_shot s))) (conj Hi Hn)) as [H1 H2].
    rewrite Hi. split; [cbn; lia |]. exact H2.
  - apply (taken_closed i0). apply at_head_taken. exact HP.
Qed.

(** The timing loops only move the counter forward. *)

Lemma skip_frames_counter (w : world) (fuel : nat) :
  forall (next acq : Q) (s : state),
    i s <= i (final (skip_frames w fuel next acq s)).
Proof.
  induction fuel as [| fuel IH]; intros next acq s.
  - unfold skip_frames, out_of_fuel. cbn. lia.
  - rewrite skip_frames_turn. run_steps.
    destruct (Qltb next (time_at w (n_time s))).
    + run_steps.
      match goal with
      | |- context [skip_frames w fuel ?n ?a ?st] =>
          pose proof (IH n a st) as H
      end.
      cbn in H. destruct (skip_frames w fuel _ _ _); cbn in *; lia.
    + cbn. lia.
Qed.

Lemma wait_until_counter (w : world) (fuel : nat) :
  forall (next : Q) (s : state),
    i (final (wait_until w fuel next s)) = i s.
Proof.
  induction fuel as [| fuel IH]; intros next s.
  - reflexivity.
  - rewrite wait_until_turn. run_steps.
    destruct (Qltb (time_at w (n_time s)) next).
    + run_steps.
      match goal with
      | |- context [wait_until w fuel ?n ?st] =>
          pose proof (IH n st) as H
      end.
      cbn in H. destruct (wait_until w fuel _ _); cbn in *; exact H.
    + reflexivity.
Qed.

Lemma pace_counter (w : world) (fuel : nat) (t_start acq : Q) (s : state) :
  i s <= i (final (pace w fuel t_start acq s)).
Proof.
  unfold pace. run_steps.
  match goal with
  | |- context [skip_frames w fuel ?n ?a ?st] =>
      pose proof (skip_frames_counter w fuel n a st) as Hs;
        destruct (skip_frames w fuel n a st) as [next s1 | e s1 | s1]
  end; cbn in *; try exact Hs.
  pose proof (wait_until_counter w fuel next s1) as Hw.
  destruct (wait_until w fuel next s1); cbn in *; lia.
Qed.

Lemma triple_pace (w : world) (fuel : nat) (t_start acq : Q) (i0 : Z) :
  triple (taken i0) (pace w fuel t_start acq) (fun _ => taken i0).
Proof.
  intros s [Hi Hn].
  destruct (pace_frame w fuel t_start acq s) as [Hv _].
  pose proof (pace_counter w fuel t_start acq s) as Hc.
  unfold frames_view in Hv. injection Hv as _ _ Hb Hib _ _ _.
  assert (Ht : taken i0 (final (pace w fuel t_start acq s))).
  { split; [lia |]. apply (numbered_frames _ s); assumption. }
  destruct (pace w fuel t_start acq s); cbn in *;
    [exact Ht | apply (taken_closed i0); exact Ht ..].
Qed.

Lemma triple_incr_i (i0 : Z) :
  triple (taken i0) incr_i (fun _ s => numbered (i s) s).
Proof.
  intros s [Hi Hn]. unfold incr_i, modify. cbn.
  apply (numbered_mono (i0 + 1)); [lia |].
  apply (numbered_frames _ s); [reflexivity | reflexivity | exact Hn].
Qed.

Ltac neutral_step :=
  first [ apply neutral_get | apply neutral_time | apply neutral_emit
        | apply neutral_fdiv | apply neutral_imod
        | apply neutral_local_tracking | apply neutral_with_tracking
        | apply neutral_beamshift_set ].

Lemma triple_neutral_head {A : Type} (i0 : Z) (m : M A) :
  neutral m -> triple (at_head i0) m (fun _ => at_head i0).
Proof. intros H. exact (proj1 (triple_neutral i0 m H)). Qed.

Lemma triple_neutral_taken {A : Type} (i0 : Z) (m : M A) :
  neutral m -> triple (taken i0) m (fun _ => taken i0).
Proof. intros H. exact (proj2 (triple_neutral i0 m H)). Qed.

Ltac head_step i0 :=
  eapply triple_bind;
  [ apply (triple_neutral_head i0); neutral_step | intros ? ].

Ltac taken_step i0 :=
  eapply triple_bind;
  [ apply (triple_neutral_taken i0); neutral_step | intros ? ].

Ltac close_turn i0 :=
  eapply triple_bind; [apply (triple_incr_i i0) | intros ?];
  apply triple_ret; intros s0 Hs0;
  split; [intros _; exact Hs0 | apply (numbered_mono (i s0)); [lia | exact Hs0]].

Ltac break_turn i0 :=
  apply triple_ret; intros s0 Hs0;
  split; [intros Hc; discriminate Hc | apply (taken_closed i0); exact Hs0].

Lemma triple_loop_body (w : world) (self : experiment) (fuel : nat)
    (t0 : Q) (i0 : Z) :
  triple (at_head i0) (loop_body w self fuel t0)
         (fun c s => (c = Next -> numbered (i s) s) /\ closed s).
Proof.
  unfold loop_body. head_step i0.
  destruct (String.eqb (mode self) "auto").
  - head_step i0. destruct (_ =? 0).
    + head_step i0. head_step i0.
      eapply triple_bind; [apply triple_capture_tracking | intros img].
      taken_step i0.
      destruct (find_holes w img) as [| prop [| prop' rest]].
      * taken_step i0. break_turn i0.
      * taken_step i0. taken_step i0. taken_step i0.
        destruct (register_translation w _ _) as [[cc err] diffphase].
        taken_step i0. taken_step i0.
        destruct (calib_beamshift _) as [transform |].
        -- taken_step i0. taken_step i0. taken_step i0.
           eapply triple_bind; [apply triple_pace | intros ?].
           close_turn i0.
        -- apply triple_raise. intros s0 Hs0. apply (taken_closed i0).
           exact Hs0.
      * taken_step i0. break_turn i0.
    + eapply triple_bind; [apply triple_capture_diffraction | intros ?].
      taken_step i0. close_turn i0.
  - head_step i0. destruct (_ =? 0).
    + head_step i0. head_step i0.
      eapply triple_bind; [apply triple_capture_tracking | intros img].
      eapply triple_bind; [apply triple_pace | intros ?].
      close_turn i0.
    + eapply triple_bind; [apply triple_capture_diffraction | intros ?].
      close_turn i0.
Qed.

Lemma recording_numbered (w : world) (self : experiment) (fuel : nat)
    (t0 : Q) :
  forall (turns : nat) (s : state),
    numbered (i s) s ->
    closed (final (recording w self fuel turns t0 s)).
Proof.
  induction turns as [| turns IH]; intros s Hs.
  - change (closed s). unfold closed.
    apply (numbered_mono (i s)); [lia | exact Hs].
  - rewrite recording_turn. unfold bind at 1, is_set at 1.
    destruct (stop_at w (n_stop s)).
    + unfold ret, closed. cbn.
      apply (numbered_mono (i s)); [lia | exact Hs].
    + unfold bind.
      pose proof (triple_loop_body w self fuel t0 (i s)
                    (with_n_stop (S (n_stop s)) s)
                    (conj eq_refl Hs)) as Hb.
      destruct (loop_body w self fuel t0 (with_n_stop (S (n_stop s)) s))
        as [c s1 | e s1 | s1]; cbn; try exact Hb.
      destruct Hb as [Hnext Hclosed].
      destruct c; [| exact Hclosed].
      apply IH. apply Hnext. reflexivity.
Qed.

(** X26. Frame numbers are never used twice.  If at the head of the loop
    every buffered frame has a number below the counter, the numbers of
    each buffer increase and no number is in both buffers (as when the
    recording starts, with both buffers empty), then however the
    recording ends this still holds with [nframes = i + 1] as the bound:
    diffraction and tracking frames have distinct, increasing numbers,
    all below the number of frames used for the oscillation angle. *)
Theorem recording_numbers_frames_once (w : world) (self : experiment)
    (fuel turns : nat) (t0 : Q) (s : state) :
  numbered (i s) s ->
  let s' := final (recording w self fuel turns t0 s) in
  numbered (i s' + 1) s' /\
  NoDup (indices (buffer s') ++ indices (image_buffer s')).
Proof.
  intros Hs s'.
  pose proof (recording_numbered w self fuel t0 turns s Hs) as Hc.
  fold s' in Hc. unfold closed in Hc. split; [exact Hc |].
  destruct Hc as (H1 & H2 & _ & _ & H5).
  assert (Hnd : forall l, StronglySorted Z.lt l -> NoDup l).
  { induction 1 as [| x l _ IH Hx]; constructor; [| exact IH].
    intros Hin. rewrite Forall_forall in Hx. specialize (Hx x Hin). lia. }
  apply NoDup_app; [apply Hnd; exact H1 | apply Hnd; exact H2 |].
  intros k Hk Hk'. exact (H5 k Hk Hk').
Qed.

Lemma recording_numbers_frames_once_witness :
  NoDup (indices (buffer recorded) ++ indices (image_buffer recorded)).
Proof.
  refine (proj2 (recording_numbers_frames_once still_world auto5 10 100 0%Q
                   (with_startangle (Some 0%Q) at_frame_5) _)).
  unfold numbered. cbn.
  repeat split; try constructor. intros k [].
Defined.

End Cred.

(* ================================================================== *)
(** * calibrate_stage_lowmag.py : the live calibration over a grid     *)
(* ================================================================== *)

Module LowmagLive.

Import Np.
Import StageLowmag.
Local Open Scope R_scope.

(** ** The grid of stage offsets *)

(** [np.arange(a, b)] on integers. *)
Definition arange (a b : Z) : list Z :=
  map (fun k => (a + Z.of_nat k)%Z) (seq 0 (Z.to_nat (b - a))).

(** [np.arange(-n, n+1) * stepsize]. *)
Definition axis (n : Z) (stepsize : R) : list R :=
  map (fun k => IZR k * stepsize) (arange (- n) (n + 1)).

(** The rows of [np.stack([x_grid, y_grid]).reshape(2,-1).T] for
    [x_grid, y_grid = np.meshgrid(xs, ys)]: the pairs [(x, y)], [y] in the
    outer and [x] in the inner position. *)
Definition meshgrid_rows (xs ys : list R) : list vec :=
  flat_map (fun y => map (fun x => (x, y)) xs) ys.

(** The offsets the calibration visits; [(gridsize - 1) / 2] is the integer
    division of Python 2. *)
Definition grid (gridsize : Z) (stepsize : R) : list vec :=
  let n := ((gridsize - 1) / 2)%Z in
  meshgrid_rows (axis n stepsize) (axis n stepsize).

(** ** The microscope and what the routine says and does *)

Inductive outfile : Type :=
| calib_start
| calib_index (i : Z)       (* calib_{i:04d} *)
| calib_end.

Inductive message : Type :=
| MsgPosition (i tot : Z) (x y : R)   (* Position {i+1}/{tot}: x: .., y: .. *)
| MsgStage (xy : vec)                 (* print ctrl.stageposition *)
| MsgResetToCenter                    (* >> Reset to center *)
| MsgLargeDifference (m : Z) (d : vec).
    (* >> Warning: Large difference between image {m}, and center image. *)

Inductive event : Type :=
| ResetXY                             (* ctrl.stageposition.reset_xy() *)
| StageSet (x y : R)                  (* ctrl.stageposition.set(x=.., y=..) *)
| GetImage (out : option outfile)     (* ctrl.getImage(.., out=.., ..) *)
| Print (m : message)
| Plot.                               (* plt.show() *)

Inductive exc : Type :=
| ValueError      (* operands could not be broadcast together *)
| IndexError
| LinAlgError.

(** The stage is taken to reach the commanded position, and the image
    header to report the position of the stage. *)
Record microscope : Type := mkMicroscope {
  stage : vec;
  trace : list event
}.

Definition M (A : Type) : Type := microscope -> (exc + A) * microscope.

Definition ret {A : Type} (a : A) : M A := fun s => (inr a, s).

Definition raise {A : Type} (e : exc) : M A := fun s => (inl e, s).

Definition bind {A B : Type} (m : M A) (k : A -> M B) : M B :=
  fun s =>
    match m s with
    | (inl e, s') => (inl e, s')
    | (inr a, s') => k a s'
    end.

Declare Scope live_scope.
Delimit Scope live_scope with live.
Notation "x <- m ;; k" := (bind m (fun x => k))
  (at level 61, m at next level, right associativity) : live_scope.
Notation "m ;;; k" := (bind m (fun _ => k))
  (at level 61, right associativity) : live_scope.
Local Open Scope live_scope.

Definition emit (e : event) : M unit :=
  fun s => (inr tt, mkMicroscope (stage s) (trace s ++ [e])).


(** The result of [CalibStage.from_data]: the calibration and the raw
    samples it keeps for plotting. *)
Record CalibData : Type := mkCalibData {
  calib : CalibStage;
  data_shifts : list vec;
  data_stagepos : list vec
}.

Section Live.

Variable image : Type.
Variable camera : vec -> image.                  (* the image at a stage position *)
Variable autoscale : image -> image * R.         (* instamatic.tools.autoscale *)
Variable imgscale : image -> R -> image.         (* instamatic.tools.imgscale *)
Variable cross_correlate : image -> image -> vec.
Variable fit_affine_transformation : list vec -> list vec -> mat * vec.

(** [ctrl.getImage(..)]: the image and the [StagePosition] of its header. *)
Definition getImage (out : option outfile) : M (image * vec) :=
  fun s => (inr (camera (stage s), stage s),
            mkMicroscope (stage s) (trace s ++ [GetImage out])).



(** [CalibStage.plot]. *)
Definition plot (c : CalibData) : M unit :=
  if negb (has_data (calib c)) then ret tt
  else
    match inv (rotation (calib c)) with
    | None => raise LinAlgError
    | Some r_i => emit Plot
    end.


End Live.

(** ** The shape of the grid *)

Lemma length_arange (a b : Z) : length (arange a b) = Z.to_nat (b - a).
Proof. unfold arange. rewrite length_map, length_seq. reflexivity. Qed.

Lemma length_axis (n : Z) (stepsize : R) :
  length (axis n stepsize) = Z.to_nat (2 * n + 1).
Proof.
  unfold axis. rewrite length_map, length_arange. f_equal. lia.
Qed.

Lemma length_meshgrid_rows (xs ys : list R) :
  length (meshgrid_rows xs ys) = (length ys * length xs)%nat.
Proof.
  unfold meshgrid_rows. induction ys as [| y ys IH].
  - reflexivity.
  - cbn [flat_map]. rewrite length_app, length_map.
    change (length (y :: ys)) with (S (length ys)).
    rewrite Nat.mul_succ_l, Nat.add_comm. f_equal. exact IH.
Qed.

Lemma nth_error_meshgrid_rows (xs ys : list R) (i j : nat) (x y : R) :
  nth_error ys i = Some y ->
  nth_error xs j = Some x ->
  nth_error (meshgrid_rows xs ys) (i * length xs + j) = Some (x, y).
Proof.
  unfold meshgrid_rows. revert i. induction ys as [| y0 ys IH]; intros i Hy Hx.
  - destruct i; discriminate.
  - destruct i as [| i]; simpl in *.
    + injection Hy as ->.
      rewrite nth_error_app1.
      * rewrite nth_error_map, Hx. reflexivity.
      * rewrite length_map. apply nth_error_Some. congruence.
    + rewrite nth_error_app2 by (rewrite length_map; lia).
      rewrite length_map.
      replace (length xs + i * length xs + j - length xs)%nat
        with (i * length xs + j)%nat by lia.
      apply IH; assumption.
Qed.

Lemma nth_error_axis_middle (n : Z) (stepsize : R) :
  (0 <= n)%Z ->
  nth_error (axis n stepsize) (Z.to_nat n) = Some 0.
Proof.
  intros Hn. unfold axis, arange. rewrite !nth_error_map.
  rewrite nth_error_seq.
  destruct (Nat.ltb_spec (Z.to_nat n) (Z.to_nat (n + 1 - - n))) as [_ | H];
    [| lia].
  simpl. f_equal. rewrite Z2Nat.id by lia.
  replace (- n + n)%Z with 0%Z by lia. simpl. ring.
Qed.

Lemma length_grid (gridsize : Z) (stepsize : R) :
  length (grid gridsize stepsize) =
  (Z.to_nat (2 * ((gridsize - 1) / 2) + 1) *
   Z.to_nat (2 * ((gridsize - 1) / 2) + 1))%nat.
Proof.
  unfold grid. rewrite length_meshgrid_rows, !length_axis. reflexivity.
Qed.

Lemma half_of_odd (gridsize : Z) :
  (1 <= gridsize)%Z -> Z.odd gridsize = true ->
  gridsize = (2 * ((gridsize - 1) / 2) + 1)%Z.
Proof.
  intros Hg Hodd.
  pose proof (Z.div_mod (gridsize - 1) 2 ltac:(lia)) as Hdm.
  pose proof (Z.mod_pos_bound (gridsize - 1) 2 ltac:(lia)) as Hmb.
  pose proof (Zmod_odd gridsize) as Hm. rewrite Hodd in Hm. cbv iota in Hm.
  pose proof (Z.div_mod gridsize 2 ltac:(lia)) as Hd. lia.
Qed.

Lemma half_of_even (gridsize : Z) :
  (1 <= gridsize)%Z -> Z.even gridsize = true ->
  (gridsize - 1 = 2 * ((gridsize - 1) / 2) + 1)%Z.
Proof.
  intros Hg Heven.
  pose proof (Z.div_mod (gridsize - 1) 2 ltac:(lia)) as Hdm.
  pose proof (Z.mod_pos_bound (gridsize - 1) 2 ltac:(lia)) as Hmb.
  pose proof (Zmod_even gridsize) as Hm. rewrite Heven in Hm. cbv iota in Hm.
  pose proof (Z.div_mod gridsize 2 ltac:(lia)) as Hd. lia.
Qed.

Lemma grid_centre (gridsize : Z) (stepsize : R) :
  (1 <= gridsize)%Z -> Z.odd gridsize = true ->
  nth_error (grid gridsize stepsize) (Z.to_nat (gridsize * gridsize / 2))
    = Some (0, 0).
Proof.
  intros Hg Hodd. pose proof (half_of_odd gridsize Hg Hodd) as Hg2.
  set (n := ((gridsize - 1) / 2)%Z) in *.
  assert (Hn : (0 <= n)%Z) by (apply Z.div_pos; lia).
  assert (Hm : Z.to_nat (gridsize * gridsize / 2)
               = (Z.to_nat n * length (axis n stepsize) + Z.to_nat n)%nat).
  { rewrite length_axis.
    assert ((gridsize * gridsize / 2 = n * (2 * n + 1) + n)%Z) as ->.
    { assert (Hsq : (gridsize * gridsize
                     = 1 + (n * (2 * n + 1) + n) * 2)%Z)
        by (rewrite Hg2; ring).
      rewrite Hsq, Z.div_add by lia. reflexivity. }
    rewrite Z2Nat.inj_add, Z2Nat.inj_mul by nia. reflexivity. }
  rewrite Hm. unfold grid. fold n.
  apply nth_error_meshgrid_rows; apply nth_error_axis_middle; exact Hn.
Qed.

(** X4. For a grid size of at least one the routine visits
    [(2n+1)^2] offsets, [n = (gridsize - 1) / 2] rounded down: all
    [gridsize^2] announced positions when the grid size is odd, and then
    the offset of index [gridsize^2 // 2], the one the routine compares
    with the centre image, is the zero offset; only [(gridsize - 1)^2]
    positions when the grid size is even. *)
Theorem grid_shape (gridsize : Z) (stepsize : R) :
  (1 <= gridsize)%Z ->
  (Z.odd gridsize = true ->
     length (grid gridsize stepsize) = Z.to_nat (gridsize * gridsize) /\
     nth_error (grid gridsize stepsize) (Z.to_nat (gridsize * gridsize / 2))
       = Some (0, 0)) /\
  (Z.even gridsize = true ->
     length (grid gridsize stepsize)
       = Z.to_nat ((gridsize - 1) * (gridsize - 1))).
Proof.
  intros Hg.
  assert (Hn : (0 <= (gridsize - 1) / 2)%Z) by (apply Z.div_pos; lia).
  split.
  - intros Hodd. split.
    + rewrite length_grid, <- (half_of_odd gridsize Hg Hodd).
      rewrite <- Z2Nat.inj_mul by lia. reflexivity.
    + apply grid_centre; assumption.
  - intros Heven.
    rewrite length_grid, <- (half_of_even gridsize Hg Heven).
    rewrite <- Z2Nat.inj_mul by lia. reflexivity.
Qed.

Lemma grid_shape_witness :
  (1 <= 5)%Z /\
  length (grid 5 50000) = 25%nat /\
  nth_error (grid 5 50000) 12 = Some (0, 0) /\
  length (grid 4 50000) = 9%nat.
Proof.
  split; [lia |].
  destruct (grid_shape 5 50000 ltac:(lia)) as [Hodd _].
  destruct (Hodd eq_refl) as [Hlen Hmid].
  destruct (grid_shape 4 50000 ltac:(lia)) as [_ Heven].
  split; [exact Hlen |]. split; [exact Hmid |]. exact (Heven eq_refl).
Defined.

(** ** A run of the live calibration *)



Section LiveRun.

Variable image : Type.
Variable camera : vec -> image.
Variable autoscale : image -> image * R.
Variable imgscale : image -> R -> image.
Variable cross_correlate : image -> image -> vec.
Variable fit_affine_transformation : list vec -> list vec -> mat * vec.










End LiveRun.



(** ** The offset at a given index *)

Lemma nth_error_axis (n : Z) (stepsize : R) (k : nat) :
  (0 <= n)%Z -> (Z.of_nat k < 2 * n + 1)%Z ->
  nth_error (axis n stepsize) k = Some (IZR (Z.of_nat k - n) * stepsize).
Proof.
  intros Hn Hk. unfold axis, arange. rewrite !nth_error_map.
  rewrite nth_error_seq.
  destruct (Nat.ltb_spec k (Z.to_nat (n + 1 - - n))) as [_ | H]; [| lia].
  cbn [option_map]. rewrite Nat.add_0_l. do 3 f_equal. lia.
Qed.

(** X23. The offsets are visited row by row with [x] running fastest:
    with [n = (gridsize - 1) / 2] and [m = 2n + 1] points per row, the
    offset of index [i * m + j] is [((j - n) * stepsize, (i - n) *
    stepsize)].  For the default grid of 5 the indices 0, 4, 20 and 24
    (the images [main_entry] hands on) are the four corners. *)
Theorem grid_point (gridsize : Z) (stepsize : R) (i j : nat) :
  (1 <= gridsize)%Z ->
  (Z.of_nat i < 2 * ((gridsize - 1) / 2) + 1)%Z ->
  (Z.of_nat j < 2 * ((gridsize - 1) / 2) + 1)%Z ->
  nth_error (grid gridsize stepsize)
            (i * Z.to_nat (2 * ((gridsize - 1) / 2) + 1) + j)
  = Some (IZR (Z.of_nat j - (gridsize - 1) / 2) * stepsize,
          IZR (Z.of_nat i - (gridsize - 1) / 2) * stepsize).
Proof.
  intros Hg Hi Hj.
  assert (Hn : (0 <= (gridsize - 1) / 2)%Z) by (apply Z.div_pos; lia).
  unfold grid. cbv zeta.
  rewrite <- (length_axis ((gridsize - 1) / 2) stepsize).
  apply nth_error_meshgrid_rows; apply nth_error_axis; assumption.
Qed.

Lemma grid_point_witness :
  nth_error (grid 5 50000) 0 = Some (IZR (-2) * 50000, IZR (-2) * 50000) /\
  nth_error (grid 5 50000) 4 = Some (IZR 2 * 50000, IZR (-2) * 50000) /\
  nth_error (grid 5 50000) 20 = Some (IZR (-2) * 50000, IZR 2 * 50000) /\
  nth_error (grid 5 50000) 24 = Some (IZR 2 * 50000, IZR 2 * 50000).
Proof.
  split; [| split; [| split]].
  - exact (grid_point 5 50000 0 0 ltac:(lia) ltac:(vm_compute; reflexivity)
             ltac:(vm_compute; reflexivity)).
  - exact (grid_point 5 50000 0 4 ltac:(lia) ltac:(vm_compute; reflexivity)
             ltac:(vm_compute; reflexivity)).
  - exact (grid_point 5 50000 4 0 ltac:(lia) ltac:(vm_compute; reflexivity)
             ltac:(vm_compute; reflexivity)).
  - exact (grid_point 5 50000 4 4 ltac:(lia) ltac:(vm_compute; reflexivity)
             ltac:(vm_compute; reflexivity)).
Defined.

End LowmagLive.

(* ================================================================== *)
(** * camera_emmenu.py : the wrapper around the EMMENU window          *)
(* ================================================================== *)

Module Emmenu.

Local Open Scope Z_scope.

(** ** The desktop

    Windows are known by their position in the list of open windows; the
    screen is what [pyautogui] can find on it, which depends on the window
    in front. *)

Definition window : Type := nat.
Definition point : Type := (Z * Z)%type.
Definition box : Type := (Z * Z * Z * Z)%type.   (* left, top, width, height *)

(** The screenshots the wrapper looks for. *)
Inductive button : Type :=
| start_liveview_png
| start_record_png
| stop_liveview1_png
| stop_liveview2_png
| acquire_png.

(** [pyautogui.center]. *)
Definition center (b : box) : point :=
  let '(x, y, width, height) := b in
  (x + Z.quot width 2, y + Z.quot height 2).

Inductive message : Type :=
| MsgTitle (title : string)
| MsgRecordPos (p : point)      (* Record button position: .. *)
| MsgLiveviewPos (p : point)    (* Liveview button position: .. *)
| MsgAcquirePos (p : point).    (* Acquire button position: .. *)

Inductive error_text : Type :=
| CouldNotFindEMMENU            (* Could not find EMMENU, is it running? *)
| MoreThanOneInstance           (* Found more than one instance of EMMENU -> ??? *)
| CouldNotLocateRecord          (* Could not locate record view button *)
| CouldNotLocateLiveview.       (* Could not locate live view button *)

Inductive exc : Type :=
| EMMenuError (m : error_text)
| IOError
| AttributeError.

Inductive event : Type :=
| Activate (w : window)                       (* w.activate() *)
| Maximize (w : window)                       (* w.maximize() *)
| MoveTo (p : point)                          (* pg.moveTo(p) *)
| Click (p : point) (front : option window)   (* pg.click(), where and on what *)
| Print (m : message).

(** The wrapper object and the desktop it acts on. *)
Record state : Type := mkState {
  win_emmenu : option window;          (* self.win_emmenu, once set *)
  win_previous : option window;        (* self.win_previous *)
  switch_back : bool;                  (* self._switch_back *)
  record_button_pos : option point;
  liveview_button_pos : option point;
  acquire_button_pos : option point;
  titles : list string;                (* the open windows *)
  active : option window;              (* pw.getActiveWindow() *)
  mouse : point;                       (* pg.position() *)
  trace : list event
}.

Definition M (A : Type) : Type := state -> (exc + A) * state.

Definition ret {A : Type} (a : A) : M A := fun s => (inr a, s).

Definition raise {A : Type} (e : exc) : M A := fun s => (inl e, s).

Definition bind {A B : Type} (m : M A) (k : A -> M B) : M B :=
  fun s =>
    match m s with
    | (inl e, s') => (inl e, s')
    | (inr a, s') => k a s'
    end.

Declare Scope emmenu_scope.
Delimit Scope emmenu_scope with emmenu.
Notation "x <- m ;; k" := (bind m (fun x => k))
  (at level 61, m at next level, right associativity) : emmenu_scope.
Notation "m ;;; k" := (bind m (fun _ => k))
  (at level 61, right associativity) : emmenu_scope.
Local Open Scope emmenu_scope.

Definition get : M state := fun s => (inr s, s).

Definition emit (e : event) : M unit :=
  fun s => (inr tt,
            mkState (win_emmenu s) (win_previous s) (switch_back s)
                    (record_button_pos s) (liveview_button_pos s)
                    (acquire_button_pos s) (titles s) (active s) (mouse s)
                    (trace s ++ [e])).

Definition set_win_emmenu (w : window) : M unit :=
  fun s => (inr tt,
            mkState (Some w) (win_previous s) (switch_back s)
                    (record_button_pos s) (liveview_button_pos s)
                    (acquire_button_pos s) (titles s) (active s) (mouse s)
                    (trace s)).

Definition set_win_previous (w : option window) : M unit :=
  fun s => (inr tt,
            mkState (win_emmenu s) w (switch_back s)
                    (record_button_pos s) (liveview_button_pos s)
                    (acquire_button_pos s) (titles s) (active s) (mouse s)
                    (trace s)).

Definition set_switch_back (b : bool) : M unit :=
  fun s => (inr tt,
            mkState (win_emmenu s) (win_previous s) b
                    (record_button_pos s) (liveview_button_pos s)
                    (acquire_button_pos s) (titles s) (active s) (mouse s)
                    (trace s)).

Definition set_record_button_pos (p : point) : M unit :=
  fun s => (inr tt,
            mkState (win_emmenu s) (win_previous s) (switch_back s)
                    (Some p) (liveview_button_pos s)
                    (acquire_button_pos s) (titles s) (active s) (mouse s)
                    (trace s)).

Definition set_liveview_button_pos (p : point) : M unit :=
  fun s => (inr tt,
            mkState (win_emmenu s) (win_previous s) (switch_back s)
                    (record_button_pos s) (Some p)
                    (acquire_button_pos s) (titles s) (active s) (mouse s)
                    (trace s)).

Definition set_acquire_button_pos (p : point) : M unit :=
  fun s => (inr tt,
            mkState (win_emmenu s) (win_previous s) (switch_back s)
                    (record_button_pos s) (liveview_button_pos s)
                    (Some p) (titles s) (active s) (mouse s)
                    (trace s)).

(** [w.activate()]: the window comes to the front. *)
Definition window_activate (w : window) : M unit :=
  fun s => (inr tt,
            mkState (win_emmenu s) (win_previous s) (switch_back s)
                    (record_button_pos s) (liveview_button_pos s)
                    (acquire_button_pos s) (titles s) (Some w) (mouse s)
                    (trace s ++ [Activate w])).

(** [pg.moveTo(p)]. *)
Definition moveTo (p : point) : M unit :=
  fun s => (inr tt,
            mkState (win_emmenu s) (win_previous s) (switch_back s)
                    (record_button_pos s) (liveview_button_pos s)
                    (acquire_button_pos s) (titles s) (active s) p
                    (trace s ++ [MoveTo p])).

(** [pg.click()]. *)
Definition click : M unit :=
  fun s => (inr tt,
            mkState (win_emmenu s) (win_previous s) (switch_back s)
                    (record_button_pos s) (liveview_button_pos s)
                    (acquire_button_pos s) (titles s) (active s) (mouse s)
                    (trace s ++ [Click (mouse s) (active s)])).

(** An attribute that [__init__] may not have set yet. *)
Definition attribute {A : Type} (field : state -> option A) : M A :=
  fun s => match field s with
           | Some a => (inr a, s)
           | None => (inl AttributeError, s)
           end.

(** Substring match, as [pw.getWindowsWithTitle] does. *)
Fixpoint contains (needle hay : string) : bool :=
  String.prefix needle hay ||
  match hay with
  | EmptyString => false
  | String _ rest => contains needle rest
  end.

Definition getWindowsWithTitle (title : string) (ts : list string)
  : list window :=
  filter (fun w => contains title (nth w ts EmptyString)) (seq 0 (length ts)).

Definition option_eqb (a b : option window) : bool :=
  match a, b with
  | Some x, Some y => Nat.eqb x y
  | None, None => true
  | _, _ => false
  end.

Section Screen.

(** [pg.locateOnScreen(path, grayscale=True)], given the window in
    front; [None] when the image is not on the screen. *)
Variable locateOnScreen : option window -> button -> option box.

Definition locate (b : button) : M (option box) :=
  fun s => (inr (locateOnScreen (active s) b), s).

(** [pg.locateCenterOnScreen]. *)
Definition locateCenter (b : button) : M (option point) :=
  r <- locate b ;;
  ret (option_map center r).

(** ** The methods *)

(** [is_active]. *)
Definition is_active : M bool :=
  w <- attribute win_emmenu ;;
  s <- get ;;
  ret (option_eqb (active s) (Some w)).

Definition activate : M unit :=
  a <- is_active ;;
  (if negb a then s <- get ;; set_win_previous (active s) else ret tt) ;;;
  w <- attribute win_emmenu ;;
  window_activate w ;;;
  emit (Maximize w).

Definition activate_previous : M unit :=
  s <- get ;;
  match win_previous s with
  | Some w => window_activate w
  | None => ret tt
  end.

Definition locate_buttons : M unit :=
  activate ;;;
  record <- locateCenter start_record_png ;;
  p <- match record with
       | Some p => ret p
       | None => raise (EMMenuError CouldNotLocateRecord)
       end ;;
  set_record_button_pos p ;;;
  (* attempt 1, liveview is running *)
  l1 <- locate stop_liveview1_png ;;
  l <- match l1 with
       | Some b => ret b
       | None =>
           (* attempt 2, liveview is not running *)
           l2 <- locate start_liveview_png ;;
           match l2 with
           | Some b => ret b
           | None =>
               (* attempt 3, liveview is running, but deselected *)
               l3 <- locate stop_liveview2_png ;;
               match l3 with
               | Some b => ret b
               | None => raise (EMMenuError CouldNotLocateLiveview)
               end
           end
       end ;;
  set_liveview_button_pos (center l) ;;;
  acq <- locateCenter acquire_png ;;
  q <- match acq with
       | Some q => ret q
       | None => raise (EMMenuError CouldNotLocateRecord)
       end ;;
  set_acquire_button_pos q ;;;
  emit (Print (MsgRecordPos p)) ;;;
  emit (Print (MsgLiveviewPos (center l))) ;;;
  emit (Print (MsgAcquirePos q)) ;;;
  activate_previous.

(** [for title in pw.getAllTitles(): if title: print(title)]. *)
Fixpoint print_titles (ts : list string) : M unit :=
  match ts with
  | [] => ret tt
  | t :: ts' =>
      (if String.eqb t EmptyString then ret tt else emit (Print (MsgTitle t))) ;;;
      print_titles ts'
  end.

(** [__init__], after the defaults and the paths are set. *)
Definition init : M unit :=
  set_switch_back true ;;;
  set_win_previous None ;;;
  s <- get ;;
  let windows := getWindowsWithTitle "EMMENU4" (titles s) in
  match windows with
  | [] => raise (EMMenuError CouldNotFindEMMENU)
  | [w] => set_win_emmenu w ;;; locate_buttons
  | _ => print_titles (titles s) ;;; raise (EMMenuError MoreThanOneInstance)
  end.

(** [getImage]. *)
Definition getImage : M unit := raise IOError.

Definition _press (button_loc : point) : M unit :=
  s <- get ;;
  let current_loc := mouse s in
  a <- is_active ;;
  switch_back <- (if negb a then activate ;;; ret true else ret false) ;;
  moveTo button_loc ;;;
  click ;;;
  moveTo current_loc ;;;
  if switch_back : bool then activate_previous else ret tt.

Definition acquire : M unit :=
  p <- attribute acquire_button_pos ;; _press p.

Definition toggle_record : M unit :=
  p <- attribute record_button_pos ;; _press p.

Definition toggle_liveview : M unit :=
  p <- attribute liveview_button_pos ;; _press p.

Definition start_record : M unit := toggle_record.

Definition stop_record : M unit := toggle_liveview.

Definition live_view_is_running : M bool :=
  activate ;;;
  l1 <- locate stop_liveview1_png ;;
  r <- match l1 with
       | Some _ => ret true
       | None =>
           l2 <- locate stop_liveview2_png ;;
           match l2 with
           | Some _ => ret true
           | None => ret false
           end
       end ;;
  activate_previous ;;;
  ret r.

(** [with self.keep_in_focus(): body]: the statements after the [yield]
    run only when the body has not raised. *)
Definition keep_in_focus {A : Type} (body : M A) : M A :=
  was_active <- is_active ;;
  set_switch_back false ;;;
  r <- body ;;
  set_switch_back true ;;;
  (if negb was_active then activate_previous else ret tt) ;;;
  ret r.

(** A row of clicks. *)
Fixpoint presses (locs : list point) : M unit :=
  match locs with
  | [] => ret tt
  | p :: locs' => _press p ;;; presses locs'
  end.

End Screen.

(** ** What a click does *)

(** The clicks of a trace: where, and on which window. *)
Definition clicks (tr : list event) : list (point * option window) :=
  flat_map (fun e => match e with Click p f => [(p, f)] | _ => [] end) tr.

(** The windows brought to the front in a trace. *)
Definition activations (tr : list event) : list window :=
  flat_map (fun e => match e with Activate w => [w] | _ => [] end) tr.

Lemma clicks_app (a b : list event) : clicks (a ++ b) = clicks a ++ clicks b.
Proof. unfold clicks. apply flat_map_app. Qed.

Lemma activations_app (a b : list event) :
  activations (a ++ b) = activations a ++ activations b.
Proof. unfold activations. apply flat_map_app. Qed.

(** What the wrapper remembers about the buttons and its window. *)
Definition settings (s : state) :=
  (win_emmenu s, record_button_pos s, liveview_button_pos s,
   acquire_button_pos s, titles s).

Ltac run_gui :=
  unfold _press, live_view_is_running, activate, activate_previous, is_active,
    attribute, locate, locateCenter, moveTo, click, window_activate,
    set_win_previous, set_switch_back, set_record_button_pos,
    set_liveview_button_pos, set_acquire_button_pos, set_win_emmenu,
    emit, bind, get, ret, raise;
  cbn.

Ltac finish_gui :=
  unfold clicks, activations; cbn;
  repeat match goal with
         | H : active _ = _ |- _ => rewrite !H
         | H : win_emmenu _ = _ |- _ => rewrite !H
         end;
  rewrite ?flat_map_app; cbn;
  rewrite ?app_nil_r, <- ?app_assoc; cbn;
  repeat split; try reflexivity; try assumption.

Lemma option_eqb_refl (w : window) : option_eqb (Some w) (Some w) = true.
Proof. cbn. apply Nat.eqb_refl. Qed.

Section Clicks.

Variable locateOnScreen : option window -> button -> option box.

(** The window that has the focus after a click: the one that had it, or
    EMMENU when none had. *)
Definition focus_after (em : window) (before : option window)
  : option window :=
  match before with
  | Some w => Some w
  | None => Some em
  end.

Lemma press_run (button_loc : point) (em : window) (s : state) :
  win_emmenu s = Some em ->
  exists s',
    _press button_loc s = (inr tt, s') /\
    mouse s' = mouse s /\
    active s' = focus_after em (active s) /\
    win_previous s' =
      (if option_eqb (active s) (Some em) then win_previous s else active s) /\
    switch_back s' = switch_back s /\
    settings s' = settings s /\
    clicks (trace s') = clicks (trace s) ++ [(button_loc, Some em)] /\
    activations (trace s') =
      activations (trace s) ++
      (if option_eqb (active s) (Some em) then []
       else em :: match active s with Some w => [w] | None => [] end).
Proof.
  intros Hem. unfold settings.
  destruct (active s) as [w |] eqn:Ha.
  - destruct (Nat.eqb w em) eqn:E.
    + apply Nat.eqb_eq in E. subst w. run_gui.
      repeat (rewrite ?Hem, ?Ha, ?Nat.eqb_refl; cbn).
      eexists. split; [reflexivity |]. finish_gui.
    + run_gui. repeat (rewrite ?Hem, ?Ha, ?E; cbn).
      eexists. split; [reflexivity |]. finish_gui.
  - run_gui. repeat (rewrite ?Hem, ?Ha; cbn).
    eexists. split; [reflexivity |]. finish_gui.
Qed.

(** X18. A press always ends with the mouse where it was and the focus
    on the window that had it (on EMMENU when no window had): it clicks
    once, at the button and with EMMENU in front, and touches none of the
    remembered button positions.  Before [__init__] has found the EMMENU
    window a press raises [AttributeError] without moving the mouse. *)
Theorem press_restores_mouse_and_focus (button_loc : point) (s : state) :
  (forall em, win_emmenu s = Some em ->
     exists s',
       _press button_loc s = (inr tt, s') /\
       mouse s' = mouse s /\
       active s' = focus_after em (active s) /\
       settings s' = settings s /\
       clicks (trace s') = clicks (trace s) ++ [(button_loc, Some em)]) /\
  (win_emmenu s = None -> _press button_loc s = (inl AttributeError, s)).
Proof.
  split.
  - intros em Hem.
    destruct (press_run button_loc em s Hem)
      as (s' & Hrun & Hm & Ha & _ & _ & Hs & Hc & _).
    exists s'. split; [exact Hrun |]. split; [exact Hm |].
    split; [exact Ha |]. split; [exact Hs | exact Hc].
  - intros Hnone. run_gui. rewrite Hnone. reflexivity.
Qed.

(** X19. Asking whether the live view runs answers whether one of the two
    stop buttons is on the screen with EMMENU maximised in front, without
    a click or a mouse move.  Afterwards the focus is on the window that
    had it before; but when EMMENU itself had the focus, it goes to the
    window remembered from an earlier call, if there is one: reading the
    property can take the focus away from EMMENU. *)
Theorem live_view_probe_moves_focus (em : window) (s : state) :
  win_emmenu s = Some em ->
  exists s',
    live_view_is_running locateOnScreen s
    = (inr (match locateOnScreen (Some em) stop_liveview1_png,
                  locateOnScreen (Some em) stop_liveview2_png with
            | None, None => false
            | _, _ => true
            end), s') /\
    active s' =
      focus_after em (if option_eqb (active s) (Some em) then win_previous s
                      else active s) /\
    mouse s' = mouse s /\
    clicks (trace s') = clicks (trace s) /\
    settings s' = settings s.
Proof.
  intros Hem. unfold settings.
  destruct (active s) as [w |] eqn:Ha.
  - destruct (Nat.eqb w em) eqn:E.
    + apply Nat.eqb_eq in E. subst w. run_gui.
      repeat (rewrite ?Hem, ?Ha, ?Nat.eqb_refl; cbn).
      destruct (locateOnScreen (Some em) stop_liveview1_png); cbn;
        [| destruct (locateOnScreen (Some em) stop_liveview2_png); cbn];
        (destruct (win_previous s) as [p |] eqn:Hp; cbn;
         eexists; (split; [reflexivity |]); finish_gui).
    + run_gui. repeat (rewrite ?Hem, ?Ha, ?E; cbn).
      destruct (locateOnScreen (Some em) stop_liveview1_png); cbn;
        [| destruct (locateOnScreen (Some em) stop_liveview2_png); cbn];
        eexists; (split; [reflexivity |]); finish_gui.
  - run_gui. repeat (rewrite ?Hem, ?Ha; cbn).
    destruct (locateOnScreen (Some em) stop_liveview1_png); cbn;
      [| destruct (locateOnScreen (Some em) stop_liveview2_png); cbn];
      eexists; (split; [reflexivity |]); finish_gui.
Qed.

(** ** A row of clicks under [keep_in_focus] *)

Lemma presses_run (em w : window) :
  forall (locs : list point) (s : state),
    win_emmenu s = Some em ->
    active s = Some w ->
    w <> em ->
    exists s',
      presses locs s = (inr tt, s') /\
      win_emmenu s' = Some em /\
      active s' = Some w /\
      mouse s' = mouse s /\
      switch_back s' = switch_back s /\
      win_previous s' =
        match locs with [] => win_previous s | _ => Some w end /\
      clicks (trace s') =
        clicks (trace s) ++ map (fun p => (p, Some em)) locs /\
      activations (trace s') =
        activations (trace s) ++ flat_map (fun _ => [em; w]) locs.
Proof.
  induction locs as [| p locs IH]; intros s Hem Ha Hw.
  - exists s. cbn. rewrite !app_nil_r. repeat split; assumption.
  - cbn [presses]. unfold bind at 1.
    destruct (press_run p em s Hem)
      as (s1 & Hrun & Hm & Hact & Hprev & Hsb & Hset & Hc & Hacts).
    rewrite Hrun.
    assert (Hne : option_eqb (active s) (Some em) = false).
    { rewrite Ha. cbn. apply Nat.eqb_neq. exact Hw. }
    rewrite Hne, Ha in *. cbn [focus_after] in Hact.
    assert (Hem1 : win_emmenu s1 = Some em).
    { unfold settings in Hset. injection Hset as H1 _ _ _ _.
      rewrite H1. exact Hem. }
    destruct (IH s1 Hem1 Hact Hw)
      as (s2 & Hrun2 & Hem2 & Ha2 & Hm2 & Hsb2 & Hprev2 & Hc2 & Hacts2).
    exists s2. split; [exact Hrun2 |]. split; [exact Hem2 |].
    split; [exact Ha2 |]. split; [congruence |]. split; [congruence |].
    split.
    { rewrite Hprev2. destruct locs; [exact Hprev | reflexivity]. }
    split.
    + rewrite Hc2, Hc, <- app_assoc. reflexivity.
    + rewrite Hacts2, Hacts, <- app_assoc. reflexivity.
Qed.

(** X20. [keep_in_focus] does not keep EMMENU in front.  [_press] never
    reads the flag the context manager sets, so with another window in
    front every click inside the block still brings EMMENU to the front
    and hands the focus back; leaving the block hands it back once more.
    All clicks land on EMMENU, the mouse ends where it was, and the flag
    is set again. *)
Theorem keep_in_focus_does_not_hold_focus (em w : window) (p : point)
    (locs : list point) (s : state) :
  win_emmenu s = Some em ->
  active s = Some w ->
  w <> em ->
  exists s',
    keep_in_focus (presses (p :: locs)) s = (inr tt, s') /\
    activations (trace s') =
      activations (trace s) ++
      flat_map (fun _ => [em; w]) (p :: locs) ++ [w] /\
    clicks (trace s') =
      clicks (trace s) ++ map (fun q => (q, Some em)) (p :: locs) /\
    active s' = Some w /\
    mouse s' = mouse s /\
    switch_back s' = true.
Proof.
  intros Hem Ha Hw.
  assert (Hne : Nat.eqb w em = false) by (apply Nat.eqb_neq; exact Hw).
  unfold keep_in_focus.
  unfold bind at 1, is_active at 1, attribute, bind, get, ret.
  rewrite Hem, Ha. cbn [option_eqb]. rewrite Hne. cbn [negb].
  unfold set_switch_back at 1.
  match goal with
  | |- context [presses (p :: locs) ?st] =>
      destruct (presses_run em w (p :: locs) st)
        as (s1 & Hrun & Hem1 & Ha1 & Hm1 & Hsb1 & Hprev1 & Hc1 & Hacts1);
        [exact Hem | exact Ha | exact Hw |]
  end.
  rewrite Hrun. cbn [mouse trace] in Hm1, Hc1, Hacts1.
  unfold set_switch_back, activate_previous, bind, get, window_activate, ret.
  cbn. rewrite Hprev1. cbn.
  eexists. split; [reflexivity |]. cbn.
  rewrite activations_app, clicks_app, Hacts1, Hc1. cbn.
  rewrite !app_nil_r, <- !app_assoc. cbn.
  repeat split. exact Hm1.
Qed.

(** ** Finding the buttons *)

(** The live view button, in the order of the three attempts. *)
Definition liveview_box (f : button -> option box) : option box :=
  match f stop_liveview1_png with
  | Some b => Some b
  | None =>
      match f start_liveview_png with
      | Some b => Some b
      | None => f stop_liveview2_png
      end
  end.

Lemma locate_buttons_cases (em : window) (s : state) :
  win_emmenu s = Some em ->
  let f := locateOnScreen (Some em) in
  let r := locate_buttons locateOnScreen s in
  win_emmenu (snd r) = Some em /\
  titles (snd r) = titles s /\
  match f start_record_png, liveview_box f, f acquire_png with
  | Some rb, Some lb, Some ab =>
      fst r = inr tt /\
      record_button_pos (snd r) = Some (center rb) /\
      liveview_button_pos (snd r) = Some (center lb) /\
      acquire_button_pos (snd r) = Some (center ab) /\
      active (snd r) =
        focus_after em (if option_eqb (active s) (Some em)
                        then win_previous s else active s)
  | None, _, _ =>
      fst r = inl (EMMenuError CouldNotLocateRecord) /\
      active (snd r) = Some em /\
      record_button_pos (snd r) = record_button_pos s /\
      liveview_button_pos (snd r) = liveview_button_pos s /\
      acquire_button_pos (snd r) = acquire_button_pos s
  | Some rb, None, _ =>
      fst r = inl (EMMenuError CouldNotLocateLiveview) /\
      active (snd r) = Some em /\
      record_button_pos (snd r) = Some (center rb) /\
      liveview_button_pos (snd r) = liveview_button_pos s /\
      acquire_button_pos (snd r) = acquire_button_pos s
  | Some rb, Some lb, None =>
      fst r = inl (EMMenuError CouldNotLocateRecord) /\
      active (snd r) = Some em /\
      record_button_pos (snd r) = Some (center rb) /\
      liveview_button_pos (snd r) = Some (center lb) /\
      acquire_button_pos (snd r) = acquire_button_pos s
  end.
Proof.
  intros Hem. cbv zeta. unfold liveview_box, locate_buttons.
  destruct (active s) as [w |] eqn:Ha;
    [destruct (Nat.eqb w em) eqn:E;
       [apply Nat.eqb_eq in E; subst w |] |];
    run_gui;
    repeat (rewrite ?Hem, ?Ha, ?E, ?Nat.eqb_refl; cbn);
    (destruct (locateOnScreen (Some em) start_record_png) as [rb |];
       cbn; [| repeat split; assumption]);
    (destruct (locateOnScreen (Some em) stop_liveview1_png) as [l1 |]; cbn;
       [| destruct (locateOnScreen (Some em) start_liveview_png) as [l2 |];
          cbn;
          [| destruct (locateOnScreen (Some em) stop_liveview2_png)
               as [l3 |]; cbn]];
       try (repeat split; assumption));
    (destruct (locateOnScreen (Some em) acquire_png) as [ab |];
       cbn; [| repeat split; assumption]);
    try (destruct (win_previous s) as [pw |]; cbn);
    repeat split; assumption.
Qed.

(** X21. [locate_buttons] succeeds exactly when, with EMMENU in front,
    the record button, one of the three live view images and the acquire
    button are on the screen; it then remembers their centres, taking for
    the live view the first hit among "stop (running)", "start" and "stop
    (deselected)".  When it fails, the focus is left on EMMENU (the
    previous window is not brought back), and a missing acquire button is
    reported with the text of the record button. *)
Theorem locate_buttons_outcome (em : window) (s : state) :
  win_emmenu s = Some em ->
  let f := locateOnScreen (Some em) in
  let r := locate_buttons locateOnScreen s in
  (fst r = inr tt <->
   f start_record_png <> None /\ liveview_box f <> None /\
   f acquire_png <> None) /\
  (fst r = inr tt ->
   record_button_pos (snd r) = option_map center (f start_record_png) /\
   liveview_button_pos (snd r) = option_map center (liveview_box f) /\
   acquire_button_pos (snd r) = option_map center (f acquire_png)) /\
  (fst r <> inr tt -> active (snd r) = Some em) /\
  (f start_record_png <> None -> liveview_box f <> None ->
   f acquire_png = None ->
   fst r = inl (EMMenuError CouldNotLocateRecord)).
Proof.
  intros Hem. cbv zeta.
  destruct (locate_buttons_cases em s Hem) as (_ & _ & Hcases).
  cbv zeta in Hcases.
  destruct (locateOnScreen (Some em) start_record_png) as [rb |].
  - destruct (liveview_box (locateOnScreen (Some em))) as [lb |].
    + destruct (locateOnScreen (Some em) acquire_png) as [ab |].
      * destruct Hcases as (Hr & H1 & H2 & H3 & _).
        split; [split; [intros _; repeat split; discriminate
                       | intros _; exact Hr] |].
        split; [intros _; cbn; repeat split; assumption |].
        split; [intros Hn; contradiction |].
        intros _ _ Hn. discriminate Hn.
      * destruct Hcases as (Hr & Ha & _).
        split; [split; [intros H; rewrite Hr in H; discriminate
                       | intros (_ & _ & Hn); contradiction] |].
        split; [intros H; rewrite Hr in H; discriminate |].
        split; [intros _; exact Ha |].
        intros _ _ _. exact Hr.
    + destruct Hcases as (Hr & Ha & _).
      split; [split; [intros H; rewrite Hr in H; discriminate
                     | intros (_ & Hn & _); contradiction] |].
      split; [intros H; rewrite Hr in H; discriminate |].
      split; [intros _; exact Ha |].
      intros _ Hn. contradiction.
  - destruct Hcases as (Hr & Ha & _).
    split; [split; [intros H; rewrite Hr in H; discriminate
                   | intros (Hn & _); contradiction] |].
    split; [intros H; rewrite Hr in H; discriminate |].
    split; [intros _; exact Ha |].
    intros Hn. contradiction.
Qed.

(** ** Starting the wrapper *)

(** The lines printed in a trace. *)
Definition printed (tr : list event) : list message :=
  flat_map (fun e => match e with Print m => [m] | _ => [] end) tr.

Lemma printed_app (a b : list event) :
  printed (a ++ b) = printed a ++ printed b.
Proof. unfold printed. apply flat_map_app. Qed.

Definition nonempty (t : string) : bool := negb (String.eqb t EmptyString).

Lemma print_titles_run (ts : list string) :
  forall s : state,
  exists s',
    print_titles ts s = (inr tt, s') /\
    win_emmenu s' = win_emmenu s /\
    active s' = active s /\
    mouse s' = mouse s /\
    printed (trace s') =
      printed (trace s) ++ map MsgTitle (filter nonempty ts).
Proof.
  induction ts as [| t ts IH]; intros s.
  - exists s. cbn. rewrite app_nil_r. repeat split.
  - cbn [print_titles filter]. unfold nonempty at 1. unfold bind at 1.
    destruct (String.eqb t EmptyString); cbn [negb].
    + unfold ret at 1. apply IH.
    + unfold emit at 1.
      match goal with
      | |- context [print_titles ts ?st] =>
          destruct (IH st) as (s' & Hrun & H1 & H2 & H3 & H4)
      end.
      exists s'. split; [exact Hrun |]. cbn in H1, H2, H3, H4.
      split; [exact H1 |]. split; [exact H2 |]. split; [exact H3 |].
      rewrite H4, printed_app. cbn. rewrite <- app_assoc. reflexivity.
Qed.

(** X22. [__init__] goes on to look for the buttons only when exactly one
    open window has "EMMENU4" in its title.  With none it raises at once;
    with several it prints the title of every open window that has one
    and raises, without touching the desktop.  When it succeeds, the
    wrapper holds that window and all three button positions, so that no
    later press can fail for a missing attribute. *)
Theorem init_needs_exactly_one_window (s : state) :
  let ws := getWindowsWithTitle "EMMENU4" (titles s) in
  let r := init locateOnScreen s in
  (ws = [] ->
   fst r = inl (EMMenuError CouldNotFindEMMENU) /\
   trace (snd r) = trace s /\ active (snd r) = active s) /\
  ((2 <= length ws)%nat ->
   fst r = inl (EMMenuError MoreThanOneInstance) /\
   printed (trace (snd r)) =
     printed (trace s) ++ map MsgTitle (filter nonempty (titles s)) /\
   win_emmenu (snd r) = win_emmenu s /\
   active (snd r) = active s /\
   mouse (snd r) = mouse s) /\
  (fst r = inr tt ->
   exists em,
     ws = [em] /\
     contains "EMMENU4" (nth em (titles s) EmptyString) = true /\
     win_emmenu (snd r) = Some em /\
     record_button_pos (snd r) <> None /\
     liveview_button_pos (snd r) <> None /\
     acquire_button_pos (snd r) <> None).
Proof.
  intros ws r.
  set (s0 := mkState (win_emmenu s) None true (record_button_pos s)
                     (liveview_button_pos s) (acquire_button_pos s)
                     (titles s) (active s) (mouse s) (trace s)).
  assert (Hr : r = match ws with
                   | [] => (inl (EMMenuError CouldNotFindEMMENU), s0)
                   | [em] =>
                       locate_buttons locateOnScreen
                         (mkState (Some em) None true (record_button_pos s)
                                  (liveview_button_pos s)
                                  (acquire_button_pos s) (titles s)
                                  (active s) (mouse s) (trace s))
                   | _ =>
                       (print_titles (titles s) ;;;
                        raise (EMMenuError MoreThanOneInstance)) s0
                   end).
  { subst r ws s0. unfold init.
    unfold bind at 1, set_switch_back at 1.
    unfold bind at 1, set_win_previous at 1.
    unfold bind at 1, get at 1. cbv zeta.
    cbn [win_emmenu win_previous switch_back record_button_pos
         liveview_button_pos acquire_button_pos titles active mouse trace].
    destruct (getWindowsWithTitle "EMMENU4" (titles s)) as [| em [| em2 rest]];
      reflexivity. }
  clearbody r. subst r.
  assert (Hin : forall em, In em ws ->
                  contains "EMMENU4" (nth em (titles s) EmptyString) = true).
  { intros em H. subst ws. unfold getWindowsWithTitle in H.
    apply filter_In in H. exact (proj2 H). }
  clearbody ws. destruct ws as [| em [| em2 rest]].
  - cbn. split; [intros _; repeat split |].
    split; [intros H; cbn in H; lia |]. intros H. discriminate H.
  - split; [intros H; discriminate H |].
    split; [intros H; cbn in H; lia |].
    intros Hok. exists em. split; [reflexivity |].
    split; [apply Hin; left; reflexivity |].
    match goal with
    | |- context [locate_buttons locateOnScreen ?st] =>
        destruct (locate_buttons_cases em st eq_refl) as (Hw & _ & Hcases)
    end.
    cbv zeta in Hcases.
    destruct (locateOnScreen (Some em) start_record_png) as [rb |].
    + destruct (liveview_box (locateOnScreen (Some em))) as [lb |].
      * destruct (locateOnScreen (Some em) acquire_png) as [ab |].
        -- destruct Hcases as (_ & H1 & H2 & H3 & _).
           split; [exact Hw |]. rewrite H1, H2, H3.
           repeat split; discriminate.
        -- destruct Hcases as (Hr & _). rewrite Hr in Hok. discriminate.
      * destruct Hcases as (Hr & _). rewrite Hr in Hok. discriminate.
    + destruct Hcases as (Hr & _). rewrite Hr in Hok. discriminate.
  - unfold bind.
    destruct (print_titles_run (titles s) s0)
      as (s' & Hrun & H1 & H2 & H3 & H4).
    rewrite Hrun. unfold raise. cbn [fst snd].
    split; [intros H; discriminate H |]. split.
    + intros _. subst s0. cbn in H1, H2, H3, H4. repeat split; assumption.
    + intros H. discriminate H.
Qed.

End Clicks.

(** ** A desktop with an explorer window and EMMENU

    With EMMENU in front the screen shows the record button, the start
    button of the live view (it is not running) and the acquire button. *)

Definition demo_screen (front : option window) (b : button) : option box :=
  match front with
  | Some 1%nat =>
      match b with
      | start_record_png => Some (10, 20, 30, 40)
      | start_liveview_png => Some (50, 20, 30, 40)
      | acquire_png => Some (90, 20, 30, 40)
      | _ => None
      end
  | _ => None
  end.

Definition demo_titles : list string :=
  ["Explorer"%string; "TVIPS EMMENU4 - camera"%string].

(** Before [__init__], with the explorer in front. *)
Definition demo_desktop : state :=
  mkState None None false None None None demo_titles (Some 0%nat)
          (100, 100) [].

(** The wrapper after a successful [__init__]. *)
Definition demo_wrapper : state := snd (init demo_screen demo_desktop).

Lemma press_restores_mouse_and_focus_witness :
  exists s',
    _press (25, 40) demo_wrapper = (inr tt, s') /\
    mouse s' = (100, 100) /\
    active s' = Some 0%nat /\
    clicks (trace s') = [((25, 40), Some 1%nat)].
Proof.
  destruct (proj1 (press_restores_mouse_and_focus (25, 40) demo_wrapper)
              1%nat eq_refl) as (s' & Hrun & Hm & Ha & _ & Hc).
  exists s'. split; [exact Hrun |]. split; [exact Hm |].
  split; [exact Ha | exact Hc].
Defined.

Lemma live_view_probe_moves_focus_witness :
  exists s',
    live_view_is_running demo_screen demo_wrapper = (inr false, s') /\
    active s' = Some 0%nat.
Proof.
  destruct (live_view_probe_moves_focus demo_screen 1%nat demo_wrapper
              eq_refl) as (s' & Hrun & Ha & _).
  exists s'. split; [exact Hrun | exact Ha].
Defined.

Lemma keep_in_focus_does_not_hold_focus_witness :
  exists s',
    keep_in_focus (presses [(25, 40); (65, 40)]) demo_wrapper
      = (inr tt, s') /\
    activations (trace s') =
      activations (trace demo_wrapper) ++ [1; 0; 1; 0; 0]%nat.
Proof.
  destruct (keep_in_focus_does_not_hold_focus 1%nat 0%nat (25, 40) [(65, 40)]
              demo_wrapper eq_refl eq_refl ltac:(discriminate))
    as (s' & Hrun & Ha & _).
  exists s'. split; [exact Hrun | exact Ha].
Defined.

Lemma locate_buttons_outcome_witness :
  fst (locate_buttons demo_screen demo_wrapper) = inr tt /\
  liveview_button_pos (snd (locate_buttons demo_screen demo_wrapper))
    = Some (65, 40).
Proof.
  destruct (locate_buttons_outcome demo_screen 1%nat demo_wrapper eq_refl)
    as ((_ & Hok) & Hpos & _).
  assert (H : fst (locate_buttons demo_screen demo_wrapper) = inr tt).
  { apply Hok. repeat split; discriminate. }
  split; [exact H |].
  destruct (Hpos H) as (_ & Hl & _). exact Hl.
Defined.

Lemma init_needs_exactly_one_window_witness :
  fst (init demo_screen demo_desktop) = inr tt /\
  win_emmenu (snd (init demo_screen demo_desktop)) = Some 1%nat.
Proof.
  assert (H : fst (init demo_screen demo_desktop) = inr tt) by reflexivity.
  split; [exact H |].
  destruct (init_needs_exactly_one_window demo_screen demo_desktop)
    as (_ & _ & Hok).
  destruct (Hok H) as (em & Hws & _ & Hw & _).
  injection Hws as <-. exact Hw.
Defined.

End Emmenu.
